(** * Maze Shooter: a shallow embedding of [main.cpp]

    The raycasting engine of the game (grid, texture cache, player motion,
    jump physics, DDA ray walk) and its gun animation, written as Rocq
    functions that follow the C++ statement by statement.

    - [int] and [Uint32] values are [Z]; wrap-around is written out where
      the source relies on it.
    - [double] values are kept abstract behind the class [DoubleOps], so
      that the properties that do not depend on the arithmetic are proved
      for any; the instance [binary64] (IEEE 754 double precision, from
      [SpecFloat]) is the arithmetic the program really runs, and what
      depends on rounding, overflow or division by zero is stated there.
    - [cos] and [sin] come from libm, outside this repository: they are
      the parameters of the class [LibmOps]; the instance [binary64_libm]
      tabulates the two calls the program makes.
    - reads of [worldMap] and [texture] outside their bounds are undefined
      behaviour in C++; the model returns [None] there. *)

From Stdlib Require Import ZArith List Bool Lia.
From Stdlib Require Import Floats.SpecFloat.
Import ListNotations.

Local Open Scope Z_scope.

(** ** Constants of [main.cpp] *)

Definition SCREEN_WIDTH : Z := 800.
Definition SCREEN_HEIGHT : Z := 600.
Definition MAP_WIDTH : Z := 24.
Definition MAP_HEIGHT : Z := 24.
Definition TEXTURE_WIDTH : Z := 64.
Definition TEXTURE_HEIGHT : Z := 64.
Definition NUM_TEXTURES : Z := 8.
Definition GUN_FRAMES : Z := 4.
Definition ANIMATION_SPEED : Z := 100.

Definition INT_MIN : Z := -2147483648.
Definition INT_MAX : Z := 2147483647.
Definition UINT32_MOD : Z := 4294967296.

(** Two's complement wrap of a mathematical integer to a 32-bit [int]. *)
Definition wrap_int (z : Z) : Z :=
  (z - INT_MIN) mod UINT32_MOD + INT_MIN.

(** Wrap to [Uint32]. *)
Definition wrap_u32 (z : Z) : Z := z mod UINT32_MOD.

(** ** Arithmetic on [double] *)

Class DoubleOps (D : Type) : Type := {
  dadd : D -> D -> D;
  dsub : D -> D -> D;
  dmul : D -> D -> D;
  ddiv : D -> D -> D;
  dopp : D -> D;
  dabs : D -> D;               (* std::abs *)
  dltb : D -> D -> bool;       (* a < b   *)
  dleb : D -> D -> bool;       (* a <= b  *)
  of_int : Z -> D;             (* implicit int -> double conversion *)
  to_int : D -> Z              (* int(x): truncation toward zero *)
}.

(** The two libm calls of the rotation code. *)
Class LibmOps (D : Type) : Type := {
  dcos : D -> D;
  dsin : D -> D
}.

Declare Scope double_scope.
Delimit Scope double_scope with D.
Infix "+" := dadd : double_scope.
Infix "-" := dsub : double_scope.
Infix "*" := dmul : double_scope.
Infix "/" := ddiv : double_scope.
Infix "<?" := dltb : double_scope.
Infix "<=?" := dleb : double_scope.

(** A decimal literal [n/d] of the source, such as [0.05 = 5/100]: the
    compiler stores the double nearest to the quotient, which is what the
    correctly rounded division of the two (exactly representable) integers
    yields. *)
Definition lit {D} `{DoubleOps D} (n d : Z) : D := (of_int n / of_int d)%D.

(** *** IEEE 754 binary64 *)

Module B64.

Definition prec : Z := 53.
Definition emax : Z := 1024.

Definition t : Type := spec_float.

Definition add : t -> t -> t := SFadd prec emax.
Definition sub : t -> t -> t := SFsub prec emax.
Definition mul : t -> t -> t := SFmul prec emax.
Definition div : t -> t -> t := SFdiv prec emax.
Definition opp : t -> t := SFopp.
Definition abs : t -> t := SFabs.
Definition ltb : t -> t -> bool := SFltb.
Definition leb : t -> t -> bool := SFleb.

Definition of_Z (z : Z) : t := binary_normalize prec emax z 0 false.

(** The integer part of a finite double, rounded toward zero. *)
Definition trunc (x : t) : option Z :=
  match x with
  | S754_zero _ => Some 0
  | S754_finite s m e =>
      let a := match e with
               | Zneg k => Z.shiftr (Zpos m) (Zpos k)
               | _ => Z.shiftl (Zpos m) e
               end in
      Some (if s then - a else a)
  | S754_infinity _ | S754_nan => None
  end.

(** [int(x)].  C++ leaves the conversion undefined when the truncated
    value does not fit an [int] (or [x] is NaN or infinite); x86-64's
    [cvttsd2si] then yields [INT_MIN], which is what the model returns.
    [INT_MIN] is never a valid array index, so such a value used as an
    index is reported as an out-of-bounds read. *)
Definition to_Z (x : t) : Z :=
  match trunc x with
  | Some z => if (INT_MIN <=? z) && (z <=? INT_MAX) then z else INT_MIN
  | None => INT_MIN
  end.

Definition pinf : t := S754_infinity false.
Definition is_zero (x : t) : bool :=
  match x with S754_zero _ => true | _ => false end.
Definition is_nan (x : t) : bool :=
  match x with S754_nan => true | _ => false end.
Definition is_finite (x : t) : bool :=
  match x with S754_zero _ | S754_finite _ _ _ => true | _ => false end.

End B64.

#[global] Instance binary64 : DoubleOps B64.t := {|
  dadd := B64.add; dsub := B64.sub; dmul := B64.mul; ddiv := B64.div;
  dopp := B64.opp; dabs := B64.abs; dltb := B64.ltb; dleb := B64.leb;
  of_int := B64.of_Z; to_int := B64.to_Z
|}.

(** ** Grid model: [worldMap] *)

Definition Grid : Type := list (list Z).

(** [worldMap[x][y]]; [None] stands for a read outside the array. *)
Definition cellAt (g : Grid) (x y : Z) : option Z :=
  if (x <? 0) || (y <? 0) then None
  else match nth_error g (Z.to_nat x) with
       | Some row => nth_error row (Z.to_nat y)
       | None => None
       end.

Definition gridWidth (g : Grid) : Z := Z.of_nat (length g).
Definition gridHeight (g : Grid) : Z :=
  match g with
  | [] => 0
  | row :: _ => Z.of_nat (length row)
  end.

Definition worldMap : Grid :=
  [ [1;1;1;1;1;1;1;1;1;1;1;1;1;1;1;1;1;1;1;1;1;1;1;1];
    [1;0;0;0;0;0;0;0;0;0;0;0;0;0;0;0;0;0;0;0;0;0;0;1];
    [1;0;0;0;0;0;0;0;0;0;0;0;0;0;0;0;0;0;0;0;0;0;0;1];
    [1;0;0;0;0;0;0;0;0;0;0;0;0;0;0;0;0;0;0;0;0;0;0;1];
    [1;0;0;0;0;0;2;2;2;2;2;0;0;0;0;3;0;3;0;3;0;0;0;1];
    [1;0;0;0;0;0;2;0;0;0;2;0;0;0;0;0;0;0;0;0;0;0;0;1];
    [1;0;0;0;0;0;2;0;0;0;2;0;0;0;0;3;0;0;0;3;0;0;0;1];
    [1;0;0;0;0;0;2;0;0;0;2;0;0;0;0;0;0;0;0;0;0;0;0;1];
    [1;0;0;0;0;0;2;2;0;2;2;0;0;0;0;3;0;3;0;3;0;0;0;1];
    [1;0;0;0;0;0;0;0;0;0;0;0;0;0;0;0;0;0;0;0;0;0;0;1];
    [1;0;0;0;0;0;0;0;0;0;0;0;0;0;0;0;0;0;0;0;0;0;0;1];
    [1;0;0;0;0;0;0;0;0;0;0;0;0;0;0;0;0;0;0;0;0;0;0;1];
    [1;0;0;0;0;0;0;0;0;0;0;0;0;0;0;0;0;0;0;0;0;0;0;1];
    [1;0;0;0;0;0;0;0;0;0;0;0;0;0;0;0;0;0;0;0;0;0;0;1];
    [1;0;0;0;0;0;0;0;0;0;0;0;0;0;0;0;0;0;0;0;0;0;0;1];
    [1;0;0;0;0;0;0;0;0;0;0;0;0;0;0;0;0;0;0;0;0;0;0;1];
    [1;4;4;4;4;4;4;4;4;0;0;0;0;0;0;0;0;0;0;0;0;0;0;1];
    [1;4;0;4;0;0;0;0;4;0;0;0;0;0;0;0;0;0;0;0;0;0;0;1];
    [1;4;0;0;0;0;5;0;4;0;0;0;0;0;0;0;0;0;0;0;0;0;0;1];
    [1;4;0;4;0;0;0;0;4;0;0;0;0;0;0;0;0;0;0;0;0;0;0;1];
    [1;4;4;4;4;4;4;4;4;0;0;0;0;0;0;0;0;0;0;0;0;0;0;1];
    [1;0;0;0;0;0;0;0;0;0;0;0;0;0;0;0;0;0;0;0;0;0;0;1];
    [1;0;0;0;0;0;0;0;0;0;0;0;0;0;0;0;0;0;0;0;0;0;0;1];
    [1;1;1;1;1;1;1;1;1;1;1;1;1;1;1;1;1;1;1;1;1;1;1;1] ].

(** The 3x3 room of the reference scenario: walls of value 1 around one
    empty cell. *)
Definition room3 : Grid := [ [1;1;1]; [1;0;1]; [1;1;1] ].

(** The indices [0 .. n-1]. *)
Definition indices (n : Z) : list Z := map Z.of_nat (seq 0 (Z.to_nat n)).

Definition isBorder (g : Grid) (x y : Z) : bool :=
  (x =? 0) || (x =? gridWidth g - 1) || (y =? 0) || (y =? gridHeight g - 1).

Definition sealedCell (g : Grid) (x y : Z) : bool :=
  match cellAt g x y with
  | Some c => (0 <=? c) && (negb (isBorder g x y) || negb (c =? 0))
  | None => false
  end.

(** The data-model invariant of the grid, as a checkable predicate: the
    grid is a [gridWidth] x [gridHeight] rectangle of non-negative cells
    (0 = empty, >= 1 = wall texture index) whose outer border is non-zero. *)
Definition sealedGrid (g : Grid) : bool :=
  forallb (fun row => Z.of_nat (length row) =? gridHeight g) g &&
  forallb (fun x => forallb (sealedCell g x) (indices (gridHeight g)))
          (indices (gridWidth g)).

(** ** Texture cache: [texture[NUM_TEXTURES][TEXTURE_WIDTH * TEXTURE_HEIGHT]] *)

Definition Textures : Type := list (list Z).

Definition MAGENTA : Z := 0xFFFF00FF.

Definition texturesWellFormed (tex : Textures) : Prop :=
  Z.of_nat (length tex) = NUM_TEXTURES /\
  Forall (fun t => Z.of_nat (length t) = TEXTURE_WIDTH * TEXTURE_HEIGHT) tex.

(** [getTexturePixel]; [None] stands for a read outside [texture]. *)
Definition getTexturePixel (tex : Textures) (textureNum texX texY : Z)
  : option Z :=
  let texX := Z.land texX (TEXTURE_WIDTH - 1) in
  let texY := Z.land texY (TEXTURE_HEIGHT - 1) in
  if (textureNum <? 1) || (textureNum >=? NUM_TEXTURES) then
    Some MAGENTA
  else
    match nth_error tex (Z.to_nat textureNum) with
    | Some t => nth_error t (Z.to_nat (TEXTURE_WIDTH * texY + texX))
    | None => None
    end.

(** ** Gun system *)

Record Gun : Type := {
  currentGunFrame : Z;
  isShooting : bool;
  animationTimer : Z;
  lastAnimationTime : Z
}.

(** What [shootGun] sends to the audio mixer and to [std::cout]. *)
Inductive Output : Type :=
| PlayShootSound
| PrintBang.

(** The constructor's gun state; [ticks] is what [SDL_GetTicks] returned. *)
Definition initialGun (ticks : Z) : Gun :=
  {| currentGunFrame := 0; isShooting := false;
     animationTimer := 0; lastAnimationTime := ticks |}.

(** [shootGun]; [sound] is [shootSound && musicEnabled], [now] the value
    of [SDL_GetTicks()]. *)
Definition shootGun (sound : bool) (now : Z) (g : Gun) : Gun * list Output :=
  if isShooting g then (g, [])
  else
    ({| currentGunFrame := 1; isShooting := true;
        animationTimer := 0; lastAnimationTime := now |},
     (if sound then [PlayShootSound] else []) ++ [PrintBang]).

(** [updateGunAnimation]; the elapsed time is a [Uint32] difference. *)
Definition updateGunAnimation (now : Z) (g : Gun) : Gun :=
  if negb (isShooting g) then
    {| currentGunFrame := 0; isShooting := isShooting g;
       animationTimer := animationTimer g;
       lastAnimationTime := lastAnimationTime g |}
  else if wrap_u32 (now - lastAnimationTime g) >=? ANIMATION_SPEED then
    let frame := currentGunFrame g + 1 in
    if frame >=? GUN_FRAMES then
      {| currentGunFrame := 0; isShooting := false;
         animationTimer := animationTimer g; lastAnimationTime := now |}
    else
      {| currentGunFrame := frame; isShooting := isShooting g;
         animationTimer := animationTimer g; lastAnimationTime := now |}
  else g.

(** The sprite [drawGun] reads: [gunSprites[currentGunFrame]]; [None]
    stands for a read outside the array. *)
Definition gunSprite {A : Type} (gunSprites : list A) (g : Gun) : option A :=
  if currentGunFrame g <? 0 then None
  else nth_error gunSprites (Z.to_nat (currentGunFrame g)).

(** One call on the gun system, and the states the game can bring it to. *)
Inductive GunCall : Type :=
| CallShoot (sound : bool) (now : Z)
| CallUpdate (now : Z).

Definition runGunCall (c : GunCall) (g : Gun) : Gun :=
  match c with
  | CallShoot sound now => fst (shootGun sound now g)
  | CallUpdate now => updateGunAnimation now g
  end.

Definition runGunCalls (cs : list GunCall) (g : Gun) : Gun :=
  fold_left (fun g c => runGunCall c g) cs g.

(** ** Player state, motion integrator and raycaster *)

(** Undefined behaviour (a read outside [worldMap]) is threaded through the
    frame update as [None]. *)
Definition bind {A B : Type} (m : option A) (k : A -> option B) : option B :=
  match m with
  | Some a => k a
  | None => None
  end.

Notation "x <- m ;; k" := (bind m (fun x => k))
  (at level 61, m at next level, right associativity).

Section Engine.

Context {D : Type} `{DoubleOps D}.

Definition MOVE_SPEED : D := lit 5 100.
Definition ROT_SPEED : D := lit 3 100.
Definition JUMP_SPEED : D := lit 15 100.
Definition GRAVITY : D := lit 1 100.
Definition GROUND_HEIGHT : D := of_int 0.

Record Player : Type := {
  posX : D; posY : D;
  dirX : D; dirY : D;
  planeX : D; planeY : D;
  cameraHeight : D;
  verticalVelocity : D;
  isJumping : bool
}.

Definition setPosX (p : Player) (v : D) : Player :=
  {| posX := v; posY := posY p; dirX := dirX p; dirY := dirY p;
     planeX := planeX p; planeY := planeY p;
     cameraHeight := cameraHeight p;
     verticalVelocity := verticalVelocity p; isJumping := isJumping p |}.

Definition setPosY (p : Player) (v : D) : Player :=
  {| posX := posX p; posY := v; dirX := dirX p; dirY := dirY p;
     planeX := planeX p; planeY := planeY p;
     cameraHeight := cameraHeight p;
     verticalVelocity := verticalVelocity p; isJumping := isJumping p |}.

Definition setDirPlane (p : Player) (dx dy px py : D) : Player :=
  {| posX := posX p; posY := posY p; dirX := dx; dirY := dy;
     planeX := px; planeY := py;
     cameraHeight := cameraHeight p;
     verticalVelocity := verticalVelocity p; isJumping := isJumping p |}.

Definition setVertical (p : Player) (h v : D) (j : bool) : Player :=
  {| posX := posX p; posY := posY p; dirX := dirX p; dirY := dirY p;
     planeX := planeX p; planeY := planeY p;
     cameraHeight := h; verticalVelocity := v; isJumping := j |}.

(** The pose set by the constructor and by [startNewGame]. *)
Definition initialPlayer : Player :=
  {| posX := of_int 22; posY := of_int 12;
     dirX := dopp (of_int 1); dirY := of_int 0;
     planeX := of_int 0; planeY := lit 66 100;
     cameraHeight := GROUND_HEIGHT;
     verticalVelocity := of_int 0; isJumping := false |}.

(** *** Movement (the bodies of the W, S, A and D branches)

    Each branch is the same two statements
<<
    if (worldMap[int(posX +- vX * MOVE_SPEED)][int(posY)] == 0) posX +-= vX * MOVE_SPEED;
    if (worldMap[int(posX)][int(posY +- vY * MOVE_SPEED)] == 0) posY +-= vY * MOVE_SPEED;
>>
    with [+-] one of [+], [-] and [v] one of [dir], [plane].  The second
    statement reads [posX] after the first has run. *)
Definition moveAxes (op : D -> D -> D) (vX vY : Player -> D)
           (g : Grid) (p : Player) : option Player :=
  c1 <- cellAt g (to_int (op (posX p) (vX p * MOVE_SPEED)%D))
                 (to_int (posY p)) ;;
  let p1 := if c1 =? 0
            then setPosX p (op (posX p) (vX p * MOVE_SPEED)%D) else p in
  c2 <- cellAt g (to_int (posX p1))
                 (to_int (op (posY p1) (vY p1 * MOVE_SPEED)%D)) ;;
  Some (if c2 =? 0
        then setPosY p1 (op (posY p1) (vY p1 * MOVE_SPEED)%D) else p1).

Definition moveForward := moveAxes dadd dirX dirY.       (* W *)
Definition moveBackward := moveAxes dsub dirX dirY.      (* S *)
Definition strafeLeft := moveAxes dsub planeX planeY.    (* A *)
Definition strafeRight := moveAxes dadd planeX planeY.   (* D *)

(** *** Rotation (the bodies of the LEFT and RIGHT branches) *)
Definition rotate `{LibmOps D} (angle : D) (p : Player) : Player :=
  let oldDirX := dirX p in
  let dirX' := (dirX p * dcos angle - dirY p * dsin angle)%D in
  let dirY' := (oldDirX * dsin angle + dirY p * dcos angle)%D in
  let oldPlaneX := planeX p in
  let planeX' := (planeX p * dcos angle - planeY p * dsin angle)%D in
  let planeY' := (oldPlaneX * dsin angle + planeY p * dcos angle)%D in
  setDirPlane p dirX' dirY' planeX' planeY'.

Definition turnLeft `{LibmOps D} : Player -> Player := rotate ROT_SPEED.
Definition turnRight `{LibmOps D} : Player -> Player :=
  rotate (dopp ROT_SPEED).

(** *** Jump physics

    The trigger of [handleGameEvents] (what a SPACE key-down does: the
    test [!isJumping] and the two assignments) and the integration step
    of [handleEvents], with the three constants they read as arguments. *)
Definition jumpTrigger (impulse : D) (p : Player) : Player :=
  if negb (isJumping p)
  then setVertical p (cameraHeight p) impulse true
  else p.

Definition updateJump (gravity ground : D) (p : Player) : Player :=
  if isJumping p then
    let h := (cameraHeight p + verticalVelocity p)%D in
    let v := (verticalVelocity p - gravity)%D in
    if (h <=? ground)%D
    then setVertical p ground (of_int 0) false
    else setVertical p h v true
  else p.

(** *** Raycaster: one column of [renderGame], up to [perpWallDist] *)

Record DDA : Type := {
  sideDistX : D; sideDistY : D;
  mapX : Z; mapY : Z
}.

Record RaySetup : Type := {
  rayDirX : D; rayDirY : D;
  deltaDistX : D; deltaDistY : D;
  stepX : Z; stepY : Z;
  start : DDA
}.

(** The ray of screen column [x]. *)
Definition rayDir (p : Player) (x : Z) : D * D :=
  let cameraX := (of_int (2 * x) / of_int SCREEN_WIDTH - of_int 1)%D in
  ((dirX p + planeX p * cameraX)%D, (dirY p + planeY p * cameraX)%D).

(** Lines 762-786: the DDA state before the step loop, for a ray
    [(rdx, rdy)] cast from [(px, py)]. *)
Definition ddaSetup (px py rdx rdy : D) : RaySetup :=
  let mx := to_int px in
  let my := to_int py in
  let ddx := dabs (of_int 1 / rdx)%D in
  let ddy := dabs (of_int 1 / rdy)%D in
  let '(sx, sdx) :=
    if (rdx <? of_int 0)%D
    then (-1, ((px - of_int mx) * ddx)%D)
    else (1, ((of_int mx + of_int 1 - px) * ddx)%D) in
  let '(sy, sdy) :=
    if (rdy <? of_int 0)%D
    then (-1, ((py - of_int my) * ddy)%D)
    else (1, ((of_int my + of_int 1 - py) * ddy)%D) in
  {| rayDirX := rdx; rayDirY := rdy;
     deltaDistX := ddx; deltaDistY := ddy;
     stepX := sx; stepY := sy;
     start := {| sideDistX := sdx; sideDistY := sdy;
                 mapX := mx; mapY := my |} |}.

(** The first statement of the loop body: advance one axis, and say
    which ([side]: 0 for x, 1 for y). *)
Definition ddaAdvance (r : RaySetup) (st : DDA) : DDA * Z :=
  if (sideDistX st <? sideDistY st)%D then
    ({| sideDistX := (sideDistX st + deltaDistX r)%D;
        sideDistY := sideDistY st;
        mapX := mapX st + stepX r; mapY := mapY st |}, 0)
  else
    ({| sideDistX := sideDistX st;
        sideDistY := (sideDistY st + deltaDistY r)%D;
        mapX := mapX st; mapY := mapY st + stepY r |}, 1).

Inductive DDAResult : Type :=
| Hit (st : DDA) (side : Z) (steps : nat)
| OutOfBounds
| OutOfFuel.

(** [while (hit == 0) { ... }], run for at most [fuel] iterations;
    [done] counts the iterations already made. *)
Fixpoint ddaLoop (g : Grid) (r : RaySetup) (fuel done : nat) (st : DDA)
  : DDAResult :=
  match fuel with
  | O => OutOfFuel
  | S fuel' =>
      let '(st', side) := ddaAdvance r st in
      match cellAt g (mapX st') (mapY st') with
      | None => OutOfBounds
      | Some c =>
          if c >? 0 then Hit st' side (S done)
          else ddaLoop g r fuel' (S done) st'
      end
  end.

(** Lines 805-809. *)
Definition perpWallDist (px py : D) (r : RaySetup) (st : DDA) (side : Z)
  : D :=
  if side =? 0
  then ((of_int (mapX st) - px + of_int (Z.quot (1 - stepX r) 2)) / rayDirX r)%D
  else ((of_int (mapY st) - py + of_int (Z.quot (1 - stepY r) 2)) / rayDirY r)%D.

Record RayHit : Type := {
  hitX : Z; hitY : Z;
  hitSide : Z;
  hitDist : D;
  hitSteps : nat
}.

Inductive CastResult : Type :=
| Cast (h : RayHit)
| CastOutOfBounds
| CastOutOfFuel.

(** The ray cast of screen column [x] (lines 757-809). *)
Definition castRay (g : Grid) (p : Player) (x : Z) (fuel : nat)
  : CastResult :=
  let '(rdx, rdy) := rayDir p x in
  let r := ddaSetup (posX p) (posY p) rdx rdy in
  match ddaLoop g r fuel 0 (start r) with
  | Hit st side steps =>
      Cast {| hitX := mapX st; hitY := mapY st; hitSide := side;
              hitDist := perpWallDist (posX p) (posY p) r st side;
              hitSteps := steps |}
  | OutOfBounds => CastOutOfBounds
  | OutOfFuel => CastOutOfFuel
  end.

End Engine.

Arguments Player D : clear implicits.
Arguments DDA D : clear implicits.
Arguments RaySetup D : clear implicits.
Arguments DDAResult D : clear implicits.
Arguments RayHit D : clear implicits.
Arguments CastResult D : clear implicits.

(** *** libm on binary64

    The program calls [cos] and [sin] at [ROT_SPEED] and at [-ROT_SPEED]
    only.  [cosRot] and [sinRot] are the doubles nearest to the cosine and
    the sine of the double [ROT_SPEED] (0x1.ffc505a355cf6p-1 and
    0x1.eb723f19667c6p-6), which is what a correctly rounding libm returns
    there; [cos] is even and [sin] is odd.  The table is undefined (NaN)
    at any other argument. *)
Module B64Libm.

Definition cosRot : B64.t := S754_finite false 9003146319060214 (-53).
Definition sinRot : B64.t := S754_finite false 8645614306224070 (-58).

Definition cos (x : B64.t) : B64.t :=
  if SFeqb (B64.abs x) ROT_SPEED then cosRot else S754_nan.

Definition sin (x : B64.t) : B64.t :=
  if SFeqb x ROT_SPEED then sinRot
  else if SFeqb x (B64.opp ROT_SPEED) then B64.opp sinRot
  else S754_nan.

End B64Libm.

#[global] Instance binary64_libm : LibmOps B64.t :=
  {| dcos := B64Libm.cos; dsin := B64Libm.sin |}.

(** ** The application: game state and event handling *)

Inductive GameState : Type := STATE_MENU | STATE_PLAYING | STATE_EXIT.

Definition MENU_NEW_GAME : Z := 0.
Definition MENU_EXIT : Z := 1.
Definition MENU_ITEM_COUNT : Z := 2.

Inductive Scancode : Type :=
| SC_W | SC_S | SC_A | SC_D
| SC_LEFT | SC_RIGHT | SC_UP | SC_DOWN
| SC_SPACE | SC_RETURN | SC_ESCAPE
| SC_LSHIFT | SC_RSHIFT | SC_X
| SC_OTHER (code : Z).

Definition scancode_eqb (a b : Scancode) : bool :=
  match a, b with
  | SC_W, SC_W | SC_S, SC_S | SC_A, SC_A | SC_D, SC_D
  | SC_LEFT, SC_LEFT | SC_RIGHT, SC_RIGHT | SC_UP, SC_UP | SC_DOWN, SC_DOWN
  | SC_SPACE, SC_SPACE | SC_RETURN, SC_RETURN | SC_ESCAPE, SC_ESCAPE
  | SC_LSHIFT, SC_LSHIFT | SC_RSHIFT, SC_RSHIFT | SC_X, SC_X => true
  | SC_OTHER m, SC_OTHER n => m =? n
  | _, _ => false
  end.

Inductive Event : Type :=
| SDL_QUIT
| SDL_KEYDOWN (sc : Scancode)
| SDL_KEYUP (sc : Scancode)
| SDL_OTHER.

Section Application.

Context {D : Type} `{DoubleOps D} `{LibmOps D}.

Record Game : Type := {
  running : bool;
  currentState : GameState;
  selectedMenuItem : Z;
  gun : Gun;
  player : Player D;
  keys : Scancode -> bool
}.

Definition setRunning (s : Game) (b : bool) : Game :=
  {| running := b; currentState := currentState s;
     selectedMenuItem := selectedMenuItem s; gun := gun s;
     player := player s; keys := keys s |}.

Definition setMenu (s : Game) (st : GameState) (item : Z) : Game :=
  {| running := running s; currentState := st;
     selectedMenuItem := item; gun := gun s;
     player := player s; keys := keys s |}.

Definition setGun (s : Game) (g : Gun) : Game :=
  {| running := running s; currentState := currentState s;
     selectedMenuItem := selectedMenuItem s; gun := g;
     player := player s; keys := keys s |}.

Definition setPlayer (s : Game) (p : Player D) : Game :=
  {| running := running s; currentState := currentState s;
     selectedMenuItem := selectedMenuItem s; gun := gun s;
     player := p; keys := keys s |}.

Definition setKey (s : Game) (sc : Scancode) (b : bool) : Game :=
  {| running := running s; currentState := currentState s;
     selectedMenuItem := selectedMenuItem s; gun := gun s;
     player := player s;
     keys := fun k => if scancode_eqb k sc then b else keys s k |}.

(** [startNewGame]: the pose is reset, the gun is left as it is. *)
Definition startNewGame (s : Game) : Game :=
  {| running := running s; currentState := STATE_PLAYING;
     selectedMenuItem := selectedMenuItem s; gun := gun s;
     player := initialPlayer; keys := keys s |}.

Definition returnToMenu (s : Game) : Game :=
  setMenu s STATE_MENU MENU_NEW_GAME.

Definition handleMenuEvents (e : Event) (s : Game) : Game :=
  match e with
  | SDL_KEYDOWN SC_UP =>
      setMenu s (currentState s)
        (Z.rem (selectedMenuItem s - 1 + MENU_ITEM_COUNT) MENU_ITEM_COUNT)
  | SDL_KEYDOWN SC_DOWN =>
      setMenu s (currentState s)
        (Z.rem (selectedMenuItem s + 1) MENU_ITEM_COUNT)
  | SDL_KEYDOWN SC_SPACE | SDL_KEYDOWN SC_RETURN =>
      if selectedMenuItem s =? MENU_NEW_GAME then startNewGame s
      else if selectedMenuItem s =? MENU_EXIT then setRunning s false
      else s
  | SDL_KEYDOWN SC_ESCAPE => setRunning s false
  | _ => s
  end.

(** [handleGameEvents]; [sound] and [now] are what its calls of
    [shootGun] see.  The audio and console output of the handlers is not
    part of the game state and is dropped here. *)
Definition handleGameEvents (sound : bool) (now : Z) (e : Event) (s : Game)
  : Game :=
  match e with
  | SDL_KEYDOWN sc =>
      let s := setKey s sc true in
      if scancode_eqb sc SC_ESCAPE then returnToMenu s
      else
        let s :=
          if scancode_eqb sc SC_SPACE
          then setPlayer s (jumpTrigger JUMP_SPEED (player s)) else s in
        let s :=
          if (scancode_eqb sc SC_LSHIFT || scancode_eqb sc SC_RSHIFT)
             && negb (isShooting (gun s))
          then setGun s (fst (shootGun sound now (gun s))) else s in
        if scancode_eqb sc SC_X && negb (isShooting (gun s))
        then setGun s (fst (shootGun sound now (gun s))) else s
  | SDL_KEYUP sc => setKey s sc false
  | _ => s
  end.

(** One polled event of [handleEvents]. *)
Definition dispatchEvent (sound : bool) (te : Z * Event) (s : Game) : Game :=
  let '(now, e) := te in
  let s := match e with SDL_QUIT => setRunning s false | _ => s end in
  match currentState s with
  | STATE_MENU => handleMenuEvents e s
  | STATE_PLAYING => handleGameEvents sound now e s
  | STATE_EXIT => s
  end.

Definition whenKey (held : bool) (f : Player D -> option (Player D))
           (p : Player D) : option (Player D) :=
  if held then f p else Some p.

(** The continuous-input block of [handleEvents] (lines 575-628) on the
    player: movement, strafing, rotation, jump physics, in this order. *)
Definition updatePlayer (g : Grid) (k : Scancode -> bool) (p : Player D)
  : option (Player D) :=
  p <- whenKey (k SC_W) (moveForward g) p ;;
  p <- whenKey (k SC_S) (moveBackward g) p ;;
  p <- whenKey (k SC_A) (strafeLeft g) p ;;
  p <- whenKey (k SC_D) (strafeRight g) p ;;
  let p := if k SC_LEFT then turnLeft p else p in
  let p := if k SC_RIGHT then turnRight p else p in
  Some (updateJump GRAVITY GROUND_HEIGHT p).

(** [handleEvents]: the polled events, each with the tick count current
    when it is handled, then the continuous input at tick [now]. *)
Definition handleEvents (g : Grid) (sound : bool)
           (events : list (Z * Event)) (now : Z) (s : Game) : option Game :=
  let s := fold_left (fun s te => dispatchEvent sound te s) events s in
  match currentState s with
  | STATE_PLAYING =>
      p <- updatePlayer g (keys s) (player s) ;;
      Some (setGun (setPlayer s p) (updateGunAnimation now (gun s)))
  | _ => Some s
  end.

End Application.

Arguments Game D : clear implicits.

(** Repeated application of a per-frame step. *)
Fixpoint iterate {A : Type} (n : nat) (f : A -> A) (a : A) : A :=
  match n with
  | O => a
  | S k => iterate k f (f a)
  end.

(** The four movement inputs. *)
Inductive MoveKey : Type := KeyW | KeyS | KeyA | KeyD.

Section Movement.

Context {D : Type} `{DoubleOps D}.

Definition moveKey (k : MoveKey) : Grid -> Player D -> option (Player D) :=
  match k with
  | KeyW => moveForward
  | KeyS => moveBackward
  | KeyA => strafeLeft
  | KeyD => strafeRight
  end.

(** The position a movement input asks for. *)
Definition candidateX (k : MoveKey) (p : Player D) : D :=
  match k with
  | KeyW => (posX p + dirX p * MOVE_SPEED)%D
  | KeyS => (posX p - dirX p * MOVE_SPEED)%D
  | KeyA => (posX p - planeX p * MOVE_SPEED)%D
  | KeyD => (posX p + planeX p * MOVE_SPEED)%D
  end.

Definition candidateY (k : MoveKey) (p : Player D) : D :=
  match k with
  | KeyW => (posY p + dirY p * MOVE_SPEED)%D
  | KeyS => (posY p - dirY p * MOVE_SPEED)%D
  | KeyA => (posY p - planeY p * MOVE_SPEED)%D
  | KeyD => (posY p + planeY p * MOVE_SPEED)%D
  end.

(** The reading of the y check under which it is made at the x
    coordinate the player had before this input's x update: whenever
    the player has moved along y, the tile at (old x, candidate y) is
    empty. *)
Definition yCheckedAtOldX (k : MoveKey) (g : Grid) (p : Player D) : Prop :=
  forall p',
    moveKey k g p = Some p' ->
    posY p' <> posY p ->
    cellAt g (to_int (posX p)) (to_int (candidateY k p)) = Some 0.

End Movement.

(** ** Derived notions used in the statements *)

(** Tiles left to the border of the grid along the direction of travel:
    the measure that bounds the step loop. *)
Definition remaining (limit step pos : Z) : Z :=
  if step =? 1 then limit - 1 - pos else pos.

Section Derived.

Context {D : Type} `{DoubleOps D}.

(** The DDA state after [n] iterations of the step loop (whatever the
    grid holds): the loop visits these states in order until the first
    one on a wall. *)
Definition ddaState (r : RaySetup D) (n : nat) (st : DDA D) : DDA D :=
  iterate n (fun s => fst (ddaAdvance r s)) st.

(** A jump from [p]: the trigger, then [n] integration steps. *)
Definition jumpArc (impulse gravity ground : D) (n : nat) (p : Player D)
  : Player D :=
  iterate n (updateJump gravity ground) (jumpTrigger impulse p).

Definition grounded (ground : D) (p : Player D) : Prop :=
  isJumping p = false /\
  cameraHeight p = ground /\
  verticalVelocity p = of_int 0.

End Derived.

(** Magnitudes of doubles, in powers of two: [finiteBelow K x] says that
    [x] is a zero or a finite double with [|x| < 2^K] (whose exponent
    field is in range); [atLeast L x] that [x] is an infinity or a finite
    double with [2^L <= |x|]. *)
Definition finiteBelow (K : Z) (x : B64.t) : Prop :=
  match x with
  | S754_zero _ => True
  | S754_finite _ m e => Zpos m < 2 ^ (K - e) /\ e <= 971
  | _ => False
  end.

Definition atLeast (L : Z) (x : B64.t) : Prop :=
  match x with
  | S754_finite _ m e => 2 ^ (L - e) <= Zpos m
  | S754_infinity _ => True
  | _ => False
  end.

(** Placeholder textures, as [loadTextures] installs them when no PNG file
    can be read: [createErrorTexture] in slots 1 to 7 (slot 0 is never
    written; it is filled with zeros here). *)
Definition createErrorTexture : list Z :=
  flat_map (fun y =>
    map (fun x =>
           if Z.rem (Z.quot x 8 + Z.quot y 8) 2 =? 0
           then 0xFF000000 else 0xFFFF00FF)
        (indices TEXTURE_WIDTH))
    (indices TEXTURE_HEIGHT).

Definition errorTextures : Textures :=
  repeat 0 (Z.to_nat (TEXTURE_WIDTH * TEXTURE_HEIGHT))
  :: repeat createErrorTexture (Z.to_nat (NUM_TEXTURES - 1)).

(** ** Concrete inputs (binary64) *)

Module Scenario.

(** The reference scenario: the centre of [room3], facing +x. *)
Definition roomPlayer : Player B64.t :=
  {| posX := lit 15 10; posY := lit 15 10;
     dirX := of_int 1; dirY := of_int 0;
     planeX := of_int 0; planeY := lit 66 100;
     cameraHeight := GROUND_HEIGHT;
     verticalVelocity := of_int 0; isJumping := false |}.

Definition centerColumn : Z := SCREEN_WIDTH / 2.

(** A player in the empty tile (4,5) of [worldMap], next to the wall
    tile (4,6), heading towards -x and +y. *)
Definition cornerPlayer : Player B64.t :=
  {| posX := lit 401 100; posY := lit 597 100;
     dirX := dopp (lit 6 10); dirY := lit 8 10;
     planeX := lit 528 1000; planeY := lit 396 1000;
     cameraHeight := GROUND_HEIGHT;
     verticalVelocity := of_int 0; isJumping := false |}.

(** A player in the empty tile (3,6), heading towards +x and +y: the
    tile ahead along x, (4,6), is a wall; along y the player stays in
    the empty tile (3,6). *)
Definition wallAheadPlayer : Player B64.t :=
  {| posX := lit 398 100; posY := lit 65 10;
     dirX := lit 6 10; dirY := lit 8 10;
     planeX := lit 528 1000; planeY := dopp (lit 396 1000);
     cameraHeight := GROUND_HEIGHT;
     verticalVelocity := of_int 0; isJumping := false |}.

Definition shootingGun : Gun :=
  {| currentGunFrame := 2; isShooting := true;
     animationTimer := 0; lastAnimationTime := 5000 |}.

End Scenario.

(** * The rest of the engine

    The parts of [main.cpp] around the functions above: texture loading,
    the frame compositor of [renderGame], and the sprite placement of
    [drawGun]. *)

(** ** [floor] on [double] *)

Class FloorOps (D : Type) : Type := {
  dfloor : D -> D
}.

Module B64Floor.

(** [floor(x)]: a finite double with a negative exponent has magnitude
    below 2^53, so its floor is an integer that converts exactly; with a
    non-negative exponent the double is an integer already. *)
Definition floor (x : B64.t) : B64.t :=
  match x with
  | S754_finite s m (Zneg k) =>
      let a := Z.shiftr (Zpos m) (Zpos k) in
      if s then
        if Z.shiftl a (Zpos k) =? Zpos m then B64.of_Z (- a)
        else B64.of_Z (- (a + 1))
      else B64.of_Z a
  | _ => x
  end.

End B64Floor.

#[global] Instance binary64_floor : FloorOps B64.t :=
  {| dfloor := B64Floor.floor |}.

(** ** Lists as C arrays *)

(** [a[i] = v]; [None] stands for a write outside the array. *)
Fixpoint writeAt {A : Type} (l : list A) (i : nat) (v : A)
  : option (list A) :=
  match l, i with
  | [], _ => None
  | _ :: t, O => Some (v :: t)
  | h :: t, S i' => option_map (cons h) (writeAt t i' v)
  end.

Definition arrayWrite {A : Type} (l : list A) (i : Z) (v : A)
  : option (list A) :=
  if i <? 0 then None else writeAt l (Z.to_nat i) v.

Definition arrayRead {A : Type} (l : list A) (i : Z) : option A :=
  if i <? 0 then None else nth_error l (Z.to_nat i).

Fixpoint mapM {A B : Type} (f : A -> option B) (l : list A)
  : option (list B) :=
  match l with
  | [] => Some []
  | a :: t =>
      b <- f a ;;
      bs <- mapM f t ;;
      Some (b :: bs)
  end.

(** ** Texture loading *)

(** A decoded image, already converted to ARGB8888: what [IMG_Load] and
    [SDL_ConvertSurfaceFormat] hand to [loadTextureFromPNG]. *)
Record Surface : Type := {
  pixels : list Z;
  surfaceW : Z;
  surfaceH : Z
}.

(** The body of the copy loop of [loadTextureFromPNG] for the texel
    (x, y); the products are [int] products. *)
Definition scaledTexel (s : Surface) (x y : Z) : option Z :=
  let srcX := Z.quot (wrap_int (x * surfaceW s)) TEXTURE_WIDTH in
  let srcY := Z.quot (wrap_int (y * surfaceH s)) TEXTURE_HEIGHT in
  let srcX := if srcX >=? surfaceW s then wrap_int (surfaceW s - 1)
              else srcX in
  let srcY := if srcY >=? surfaceH s then wrap_int (surfaceH s - 1)
              else srcY in
  arrayRead (pixels s) (wrap_int (wrap_int (srcY * surfaceW s) + srcX)).

(** The texture the two nested loops write, row after row. *)
Definition scaleSurface (s : Surface) : option (list Z) :=
  rows <- mapM (fun y => mapM (fun x => scaledTexel s x y)
                              (indices TEXTURE_WIDTH))
               (indices TEXTURE_HEIGHT) ;;
  Some (concat rows).

(** [loadTextureFromPNG]: [file] is the decoded image, or [None] when the
    file cannot be loaded or converted.  The result is the new cache and
    the returned flag. *)
Definition loadTextureFromPNG (tex : Textures) (textureNum : Z)
           (file : option Surface) : option (Textures * bool) :=
  match file with
  | None => Some (tex, false)
  | Some s =>
      t <- scaleSurface s ;;
      tex' <- arrayWrite tex textureNum t ;;
      Some (tex', true)
  end.

(** [createErrorTexture(textureNum)] on the cache. *)
Definition installErrorTexture (tex : Textures) (textureNum : Z)
  : option Textures :=
  arrayWrite tex textureNum createErrorTexture.

(** One iteration of the loop of [loadTextures]; every slot from 1 on has
    a file name, so the [else] branch of the loop body is never taken. *)
Definition loadTextureSlot (files : Z -> option Surface)
           (acc : option (Textures * bool)) (i : Z)
  : option (Textures * bool) :=
  st <- acc ;;
  r <- loadTextureFromPNG (fst st) i (files i) ;;
  if snd r then Some (fst r, snd st)
  else
    tex' <- installErrorTexture (fst r) i ;;
    Some (tex', false).

(** [loadTextures]: the cache after the loop and [allTexturesLoaded]. *)
Definition loadTextures (files : Z -> option Surface) (tex : Textures)
  : option (Textures * bool) :=
  fold_left (loadTextureSlot files)
            (map (fun i => i + 1) (indices (NUM_TEXTURES - 1)))
            (Some (tex, true)).

(** ** Frame compositor *)

Definition SKY : Z := 0xFF87CEEB.
Definition FLOOR : Z := 0xFF555555.

(** The side shading of a texel. *)
Definition shade (color : Z) : Z :=
  Z.lor (Z.land (Z.shiftr color 1) 0x7F7F7F7F) 0xFF000000.

(** A colour channel of a packed ARGB value: 0 = blue, 1 = green,
    2 = red, 3 = alpha. *)
Definition channel (k : Z) (color : Z) : Z :=
  Z.land (Z.shiftr color (8 * k)) 255.

(** The background loops of [renderGame]. *)
Definition fillBackground (horizon : Z) : list Z :=
  flat_map (fun y =>
    map (fun x => if y <? horizon then SKY else FLOOR)
        (indices SCREEN_WIDTH))
    (indices SCREEN_HEIGHT).

(** Lines 811-817: the projected slice, [(lineHeight, drawStart, drawEnd)].
    Signed overflow is undefined in C++; the model wraps. *)
Definition wallSlice {D : Type} `{DoubleOps D} (horizon : Z) (perp : D)
  : Z * Z * Z :=
  let lineHeight := to_int (of_int SCREEN_HEIGHT / perp)%D in
  let drawStart := wrap_int (Z.quot (wrap_int (- lineHeight)) 2 + horizon) in
  let drawStart := if drawStart <? 0 then 0 else drawStart in
  let drawEnd := wrap_int (Z.quot lineHeight 2 + horizon) in
  let drawEnd := if drawEnd >=? SCREEN_HEIGHT then SCREEN_HEIGHT - 1
                 else drawEnd in
  (lineHeight, drawStart, drawEnd).

Section Compositor.

Context {D : Type} `{DoubleOps D} `{FloorOps D}.

Definition horizonOf (p : Player D) : Z :=
  wrap_int (Z.quot SCREEN_HEIGHT 2 + to_int (cameraHeight p * of_int 100)%D).

(** Lines 821-831: the texture column of a hit. *)
Definition wallTexX (p : Player D) (rdx rdy : D) (side : Z) (perp : D) : Z :=
  let wallX := if side =? 0 then (posY p + perp * rdy)%D
               else (posX p + perp * rdx)%D in
  let wallX := (wallX - dfloor wallX)%D in
  let texX := to_int (wallX * of_int TEXTURE_WIDTH)%D in
  let texX := if (side =? 0) && (of_int 0 <? rdx)%D
              then wrap_int (wrap_int (TEXTURE_WIDTH - texX) - 1)
              else texX in
  if (side =? 1) && (rdy <? of_int 0)%D
  then wrap_int (wrap_int (TEXTURE_WIDTH - texX) - 1)
  else texX.

(** The row loop (lines 836-847), for [rows] iterations from row [y]. *)
Fixpoint drawRows (tex : Textures) (texNum texX side x : Z) (step : D)
         (rows : nat) (y : Z) (texPos : D) (buf : list Z)
  : option (list Z) :=
  match rows with
  | O => Some buf
  | S rows' =>
      let texY := Z.land (to_int texPos) (TEXTURE_HEIGHT - 1) in
      color <- getTexturePixel tex texNum texX texY ;;
      let color := if side =? 1 then shade color else color in
      buf' <- arrayWrite buf (y * SCREEN_WIDTH + x) color ;;
      drawRows tex texNum texX side x step rows' (y + 1)
               (texPos + step)%D buf'
  end.

(** One iteration of the column loop of [renderGame] (lines 757-848).
    [None] stands for an access outside an array, or for a step loop that
    has not stopped within [fuel] iterations. *)
Definition renderColumn (g : Grid) (tex : Textures) (p : Player D)
           (fuel : nat) (horizon : Z) (buf : list Z) (x : Z)
  : option (list Z) :=
  match castRay g p x fuel with
  | Cast h =>
      let '(rdx, rdy) := rayDir p x in
      let '(lineHeight, drawStart, drawEnd) := wallSlice horizon (hitDist h) in
      texNum <- cellAt g (hitX h) (hitY h) ;;
      let texX := wallTexX p rdx rdy (hitSide h) (hitDist h) in
      let step := (of_int 1 * of_int TEXTURE_HEIGHT / of_int lineHeight)%D in
      let texPos :=
        (of_int (wrap_int (wrap_int (drawStart - horizon)
                           + Z.quot lineHeight 2)) * step)%D in
      drawRows tex texNum texX (hitSide h) x step
               (Z.to_nat (drawEnd - drawStart)) drawStart texPos buf
  | _ => None
  end.

(** The pixel buffer [renderGame] hands to the presentation layer. *)
Definition renderGame (g : Grid) (tex : Textures) (p : Player D)
           (fuel : nat) : option (list Z) :=
  let horizon := horizonOf p in
  fold_left (fun acc x => buf <- acc ;; renderColumn g tex p fuel horizon buf x)
            (indices SCREEN_WIDTH)
            (Some (fillBackground horizon)).

End Compositor.

(** The pixel of screen position (x, y). *)
Definition pixelAt (buf : list Z) (x y : Z) : option Z :=
  arrayRead buf (y * SCREEN_WIDTH + x).

(** ** Gun sprite placement: the rectangle of [drawGun] *)

Definition gunRect (gunWidth gunHeight : Z) : Z * Z * Z * Z :=
  let scaledWidth := wrap_int (gunWidth * 2) in
  let scaledHeight := wrap_int (gunHeight * 2) in
  let gunX := Z.quot (wrap_int (SCREEN_WIDTH - scaledWidth)) 2 in
  let gunY := wrap_int (SCREEN_HEIGHT - scaledHeight) in
  (gunX, gunY, scaledWidth, scaledHeight).

(** ** A frame of the main loop, and runs of frames *)

Record Frame : Type := {
  frameEvents : list (Z * Event);
  frameTicks : Z
}.

Definition runFrames {D : Type} `{DoubleOps D} `{LibmOps D}
           (g : Grid) (sound : bool) (frames : list Frame) (s : Game D)
  : option (Game D) :=
  fold_left (fun acc f =>
               s <- acc ;;
               handleEvents g sound (frameEvents f) (frameTicks f) s)
            frames (Some s).

(** The state the constructor builds. *)
Definition initialGame {D : Type} `{DoubleOps D} (ticks : Z) : Game D :=
  {| running := true; currentState := STATE_MENU;
     selectedMenuItem := MENU_NEW_GAME; gun := initialGun ticks;
     player := initialPlayer; keys := fun _ => false |}.

(** A decoded image the copy loop can scale without overflow. *)
Definition surfaceOK (s : Surface) : Prop :=
  0 < surfaceW s /\ 0 < surfaceH s /\
  63 * surfaceW s <= INT_MAX /\ 63 * surfaceH s <= INT_MAX /\
  surfaceW s * surfaceH s <= INT_MAX /\
  Z.of_nat (length (pixels s)) = surfaceW s * surfaceH s.

(** The source pixel of texel (x, y). *)
Definition sourceIndex (s : Surface) (x y : Z) : Z :=
  (y * surfaceH s / TEXTURE_HEIGHT) * surfaceW s
  + x * surfaceW s / TEXTURE_WIDTH.

(** What slot [i] of the cache holds once [loadTextures] has dealt with
    it: the scaled image of its file, or the placeholder. *)
Definition slotLoaded (files : Z -> option Surface) (tex : Textures) (i : Z)
  : Prop :=
  match files i with
  | Some s => exists t, scaleSurface s = Some t /\ arrayRead tex i = Some t
  | None => arrayRead tex i = Some createErrorTexture
  end.

Definition fileLoaded (files : Z -> option Surface) (i : Z) : bool :=
  match files i with Some _ => true | None => false end.

(** The two colours of the placeholder. *)
Definition checker (u v : Z) : Z :=
  if ((u mod TEXTURE_WIDTH) / 8 + (v mod TEXTURE_HEIGHT) / 8) mod 2 =? 0
  then 0xFF000000 else 0xFFFF00FF.

(** Sample assets. *)
Module Assets.

(** A 128 x 32 image of one colour. *)
Definition wideSurface : Surface :=
  {| pixels := repeat 0xFF336699 (128 * 32); surfaceW := 128; surfaceH := 32 |}.

(** A 64 x 64 image whose pixel values are their own indices. *)
Definition squareSurface : Surface :=
  {| pixels := indices (TEXTURE_WIDTH * TEXTURE_HEIGHT);
     surfaceW := TEXTURE_WIDTH; surfaceH := TEXTURE_HEIGHT |}.

(** Only the file of slot 2 can be loaded. *)
Definition onlyWall2 (i : Z) : option Surface :=
  if i =? 2 then Some wideSurface else None.

(** The cache before [loadTextures]: eight slots of zeros. *)
Definition blankTextures : Textures :=
  repeat (repeat 0 (Z.to_nat (TEXTURE_WIDTH * TEXTURE_HEIGHT)))
         (Z.to_nat NUM_TEXTURES).

End Assets.

(** Sample runs of frames. *)
Module Frames.

(** Menu navigation, a new game, then back to the menu and a quit request. *)
Definition menuTour : list Frame :=
  [ {| frameEvents := [(0, SDL_KEYDOWN SC_DOWN); (3, SDL_KEYDOWN SC_UP);
                       (5, SDL_KEYDOWN SC_SPACE)];
       frameTicks := 16 |};
    {| frameEvents := [(20, SDL_KEYDOWN SC_ESCAPE); (21, SDL_QUIT)];
       frameTicks := 32 |} ].

(** A new game and one idle frame of play. *)
Definition newGame : list Frame :=
  [ {| frameEvents := [(0, SDL_KEYDOWN SC_SPACE)]; frameTicks := 16 |};
    {| frameEvents := []; frameTicks := 32 |} ].

(** [n] frames without events: the keys stay as they are. *)
Definition idle (n : nat) : list Frame :=
  repeat {| frameEvents := []; frameTicks := 0 |} n.

(** A frame that polls the events [evs]. *)
Definition press (evs : list Event) : Frame :=
  {| frameEvents := map (fun e => (0, e)) evs; frameTicks := 0 |}.

(** A new game, then 25 frames backwards (S held) into the border wall
    behind the start tile. *)
Definition backIntoWall : list Frame :=
  press [SDL_KEYDOWN SC_SPACE] :: press [SDL_KEYDOWN SC_S] :: idle 24.

(** ... then 10 frames of turning left, 60 frames forwards and to the
    right (W and D held), and a jump while turning right and strafing
    left with W and D still held. *)
Definition walk : list Frame :=
  backIntoWall
  ++ press [SDL_KEYUP SC_S; SDL_KEYDOWN SC_LEFT] :: idle 9
  ++ press [SDL_KEYUP SC_LEFT; SDL_KEYDOWN SC_W; SDL_KEYDOWN SC_D] :: idle 59
  ++ press [SDL_KEYDOWN SC_SPACE; SDL_KEYDOWN SC_RIGHT; SDL_KEYDOWN SC_A]
     :: idle 9.

End Frames.

(** What no event handler breaks: the state is never [STATE_EXIT] and the
    menu selection is one of the menu's items. *)
Definition menuInvariant {D : Type} (s : Game D) : Prop :=
  currentState s <> STATE_EXIT /\
  0 <= selectedMenuItem s < MENU_ITEM_COUNT.

(** The tile the player stands in. *)
Definition playerTile {D : Type} `{DoubleOps D} (g : Grid) (p : Player D)
  : option Z :=
  cellAt g (to_int (posX p)) (to_int (posY p)).

(** * Properties *)

(** ** Texture cache *)

Lemma land_mask_mod (x : Z) : Z.land x 63 = x mod 64.
Proof. change 63 with (Z.ones 6). rewrite Z.land_ones by lia. reflexivity. Qed.

Lemma land_mask_period (x n : Z) : Z.land (x + n * 64) 63 = Z.land x 63.
Proof. rewrite !land_mask_mod. apply Z.mod_add. lia. Qed.

Lemma land_mask_wrap (x : Z) : Z.land (wrap_int x) 63 = Z.land x 63.
Proof.
  unfold wrap_int, INT_MIN, UINT32_MOD. rewrite !land_mask_mod.
  rewrite (Z.mod_eq (x - -2147483648) 4294967296) by lia.
  set (q := (x - -2147483648) / 4294967296).
  replace (x - -2147483648 - 4294967296 * q + -2147483648)
    with (x + (- q * 67108864) * 64) by lia.
  apply Z.mod_add. lia.
Qed.

Lemma land_mask_range (x : Z) : 0 <= Z.land x 63 < 64.
Proof. rewrite land_mask_mod. apply Z.mod_pos_bound. lia. Qed.

(** With a well-formed cache and a valid index every sample is a read
    inside [texture]. *)
Lemma getTexturePixel_in_bounds (tex : Textures) (idx u v : Z) :
  texturesWellFormed tex ->
  1 <= idx < NUM_TEXTURES ->
  exists px, getTexturePixel tex idx u v = Some px.
Proof.
  intros [Hlen Hall] Hidx. unfold getTexturePixel.
  replace ((idx <? 1) || (idx >=? NUM_TEXTURES)) with false
    by (symmetry; apply orb_false_iff; unfold NUM_TEXTURES in *; lia).
  destruct (nth_error tex (Z.to_nat idx)) as [t|] eqn:Ht.
  - assert (Hin : In t tex) by (eapply nth_error_In; eauto).
    rewrite Forall_forall in Hall. specialize (Hall t Hin).
    pose proof (land_mask_range u). pose proof (land_mask_range v).
    unfold TEXTURE_WIDTH, TEXTURE_HEIGHT in *. simpl Z.sub.
    destruct (nth_error t (Z.to_nat (64 * Z.land v 63 + Z.land u 63)))
      as [px|] eqn:Hpx; [eauto|].
    apply nth_error_None in Hpx. lia.
  - apply nth_error_None in Ht. lia.
Qed.

Lemma errorTextures_wf : texturesWellFormed errorTextures.
Proof.
  split; [reflexivity|].
  unfold errorTextures. constructor.
  - vm_compute. reflexivity.
  - apply Forall_forall. intros t Ht. apply repeat_spec in Ht. subst t.
    vm_compute. reflexivity.
Qed.

(** C7. For a texture index that is 0, negative, or at least
    [NUM_TEXTURES], and any coordinates, [getTexturePixel] returns the
    magenta sentinel 0xFFFF00FF: it reads nothing from [texture] (the result
    is never the out-of-bounds outcome [None]), whatever the cache holds. *)
Theorem getTexturePixel_invalid_index (tex : Textures) (idx u v : Z) :
  idx < 1 \/ NUM_TEXTURES <= idx ->
  getTexturePixel tex idx u v = Some 0xFFFF00FF.
Proof.
  intros Hidx. unfold getTexturePixel.
  replace ((idx <? 1) || (idx >=? NUM_TEXTURES)) with true; [reflexivity|].
  symmetry. apply orb_true_iff. lia.
Qed.

Lemma getTexturePixel_invalid_index_witness :
  getTexturePixel errorTextures 99 (-7) 1000 = Some 0xFFFF00FF /\
  getTexturePixel [] 0 3 4 = Some 0xFFFF00FF.
Proof.
  split.
  - apply (getTexturePixel_invalid_index errorTextures 99 (-7) 1000).
    right. unfold NUM_TEXTURES. lia.
  - apply (getTexturePixel_invalid_index [] 0 3 4). left. lia.
Defined.

(** C8. Texture sampling is periodic in both pixel coordinates, with
    period the texture width and height: for a well-formed cache and a
    valid index the sample at (u, v) is a pixel of the texture, and the
    samples at (u + N * TEXTURE_WIDTH, v) and (u, v + N * TEXTURE_HEIGHT)
    are that same pixel, for every integer N; so are the samples when the
    shifted coordinate has wrapped around as a 32-bit [int]. *)
Theorem getTexturePixel_periodic (tex : Textures) (idx u v N : Z) :
  texturesWellFormed tex ->
  1 <= idx < NUM_TEXTURES ->
  exists px,
    getTexturePixel tex idx u v = Some px /\
    getTexturePixel tex idx (u + N * TEXTURE_WIDTH) v = Some px /\
    getTexturePixel tex idx u (v + N * TEXTURE_HEIGHT) = Some px /\
    getTexturePixel tex idx (wrap_int (u + N * TEXTURE_WIDTH)) v = Some px /\
    getTexturePixel tex idx u (wrap_int (v + N * TEXTURE_HEIGHT)) = Some px.
Proof.
  intros Hwf Hidx.
  destruct (getTexturePixel_in_bounds tex idx u v Hwf Hidx) as [px Hpx].
  exists px. split; [exact Hpx|].
  unfold getTexturePixel in *. unfold TEXTURE_WIDTH, TEXTURE_HEIGHT in *.
  simpl Z.sub in *.
  rewrite !land_mask_wrap, !land_mask_period. auto.
Qed.

Lemma getTexturePixel_periodic_witness :
  exists px,
    getTexturePixel errorTextures 3 5 9 = Some px /\
    getTexturePixel errorTextures 3 (5 + (-2) * TEXTURE_WIDTH) 9 = Some px /\
    getTexturePixel errorTextures 3 5 (9 + (-2) * TEXTURE_HEIGHT) = Some px /\
    getTexturePixel errorTextures 3
      (wrap_int (5 + (-2) * TEXTURE_WIDTH)) 9 = Some px /\
    getTexturePixel errorTextures 3 5
      (wrap_int (9 + (-2) * TEXTURE_HEIGHT)) = Some px.
Proof.
  apply (getTexturePixel_periodic errorTextures 3 5 9 (-2)).
  - exact errorTextures_wf.
  - unfold NUM_TEXTURES. lia.
Defined.

(** ** Gun system *)

Lemma handleGameEvents_gun_shooting {D : Type} `{DoubleOps D} `{LibmOps D}
      (sound : bool) (now : Z) (e : Event) (s : Game D) :
  isShooting (gun s) = true ->
  gun (handleGameEvents sound now e s) = gun s.
Proof.
  intros Hs. destruct e as [|sc|sc|]; try reflexivity.
  unfold handleGameEvents.
  destruct (scancode_eqb sc SC_ESCAPE); [reflexivity|].
  destruct (scancode_eqb sc SC_SPACE); cbn [gun setPlayer setKey];
    rewrite Hs; cbn [negb]; rewrite !andb_false_r;
    cbn [gun setPlayer setKey]; rewrite Hs; cbn [negb];
    rewrite !andb_false_r; reflexivity.
Qed.

(** C9. While a firing animation is in progress ([isShooting] is true) a
    further fire trigger changes nothing: [shootGun] returns the gun state
    as it was (frame, timers and flag) and emits no sound and no text, and
    a key-down event handled by [handleGameEvents], whichever key it is
    (the fire keys LSHIFT, RSHIFT and X included), leaves the gun state
    unchanged. *)
Theorem shootGun_while_shooting {D : Type} `{DoubleOps D} `{LibmOps D}
        (sound : bool) (now : Z) (g : Gun) :
  isShooting g = true ->
  shootGun sound now g = (g, []) /\
  forall (sc : Scancode) (s : Game D),
    gun s = g ->
    gun (handleGameEvents sound now (SDL_KEYDOWN sc) s) = g.
Proof.
  intros Hs. split.
  - unfold shootGun. rewrite Hs. reflexivity.
  - intros sc s Hg. subst g. apply handleGameEvents_gun_shooting. exact Hs.
Qed.

Lemma shootGun_while_shooting_witness :
  shootGun true 5050 Scenario.shootingGun = (Scenario.shootingGun, []) /\
  forall (sc : Scancode) (s : Game B64.t),
    gun s = Scenario.shootingGun ->
    gun (handleGameEvents true 5050 (SDL_KEYDOWN sc) s) = Scenario.shootingGun.
Proof.
  apply (shootGun_while_shooting (D:=B64.t) true 5050 Scenario.shootingGun).
  reflexivity.
Defined.

Lemma runGunCalls_app (cs ds : list GunCall) (g : Gun) :
  runGunCalls (cs ++ ds) g = runGunCalls ds (runGunCalls cs g).
Proof. unfold runGunCalls. apply fold_left_app. Qed.

Lemma runGunCall_frame_range (c : GunCall) (g : Gun) :
  0 <= currentGunFrame g < GUN_FRAMES ->
  0 <= currentGunFrame (runGunCall c g) < GUN_FRAMES.
Proof.
  unfold GUN_FRAMES. intros Hr. destruct c as [sound now|now]; simpl.
  - unfold shootGun. destruct (isShooting g); simpl; lia.
  - unfold updateGunAnimation.
    destruct (isShooting g); simpl; [|lia].
    destruct (wrap_u32 (now - lastAnimationTime g) >=? ANIMATION_SPEED);
      [|lia].
    unfold GUN_FRAMES.
    destruct (currentGunFrame g + 1 >=? 4) eqn:Hge; simpl; lia.
Qed.

Lemma runGunCalls_frame_range (cs : list GunCall) (g : Gun) :
  0 <= currentGunFrame g < GUN_FRAMES ->
  0 <= currentGunFrame (runGunCalls cs g) < GUN_FRAMES.
Proof.
  revert g. induction cs as [|c cs IH]; intros g Hr; [exact Hr|].
  simpl. apply IH. apply runGunCall_frame_range. exact Hr.
Qed.

Lemma updateGunAnimation_idle_frame (now : Z) (g : Gun) :
  isShooting (updateGunAnimation now g) = true \/
  currentGunFrame (updateGunAnimation now g) = 0.
Proof.
  unfold updateGunAnimation.
  destruct (isShooting g) eqn:Hs; simpl; [|right; reflexivity].
  destruct (wrap_u32 (now - lastAnimationTime g) >=? ANIMATION_SPEED).
  - destruct (currentGunFrame g + 1 >=? GUN_FRAMES); simpl; auto.
  - left. exact Hs.
Qed.

(** C10. In every state the gun reaches from its initial state by any
    sequence of [shootGun] and [updateGunAnimation] calls (at any tick
    counts), [currentGunFrame] is within [0, GUN_FRAMES), so the read
    [gunSprites[currentGunFrame]] of [drawGun] is inside the array of
    [GUN_FRAMES] sprites; and the state left by any further
    [updateGunAnimation] call either is still shooting or has
    [currentGunFrame = 0]. *)
Theorem gun_frame_in_bounds (A : Type) (gunSprites : list A)
        (ticks : Z) (calls : list GunCall) (now : Z) :
  Z.of_nat (length gunSprites) = GUN_FRAMES ->
  let g := runGunCalls calls (initialGun ticks) in
  0 <= currentGunFrame g < GUN_FRAMES /\
  (exists sprite, gunSprite gunSprites g = Some sprite) /\
  (isShooting (updateGunAnimation now g) = true \/
   currentGunFrame (updateGunAnimation now g) = 0).
Proof.
  intros Hlen g.
  assert (Hr : 0 <= currentGunFrame g < GUN_FRAMES).
  { apply runGunCalls_frame_range. unfold GUN_FRAMES. simpl. lia. }
  split; [exact Hr|]. split.
  - unfold gunSprite.
    destruct (currentGunFrame g <? 0) eqn:Hneg; [lia|].
    destruct (nth_error gunSprites (Z.to_nat (currentGunFrame g)))
      as [sp|] eqn:Hsp; [eauto|].
    apply nth_error_None in Hsp. lia.
  - apply updateGunAnimation_idle_frame.
Qed.

Lemma gun_frame_in_bounds_witness :
  let g := runGunCalls
             [CallShoot true 1000; CallUpdate 1100; CallUpdate 1150;
              CallShoot false 1160; CallUpdate 1200]
             (initialGun 0) in
  0 <= currentGunFrame g < GUN_FRAMES /\
  (exists sprite, gunSprite [10; 11; 12; 13] g = Some sprite) /\
  (isShooting (updateGunAnimation 1300 g) = true \/
   currentGunFrame (updateGunAnimation 1300 g) = 0).
Proof.
  apply (gun_frame_in_bounds Z [10; 11; 12; 13] 0
           [CallShoot true 1000; CallUpdate 1100; CallUpdate 1150;
            CallShoot false 1160; CallUpdate 1200] 1300).
  reflexivity.
Defined.

(** ** Motion integrator: axis-separated collision *)

Section MovementFacts.

Context {D : Type} `{DoubleOps D}.

(** What one movement input does, statement by statement. *)
Lemma moveKey_unfold (k : MoveKey) (g : Grid) (p : Player D) :
  moveKey k g p =
  (c1 <- cellAt g (to_int (candidateX k p)) (to_int (posY p)) ;;
   let p1 := if c1 =? 0 then setPosX p (candidateX k p) else p in
   c2 <- cellAt g (to_int (posX p1)) (to_int (candidateY k p)) ;;
   Some (if c2 =? 0 then setPosY p1 (candidateY k p) else p1)).
Proof.
  destruct k; unfold moveKey, moveForward, moveBackward, strafeLeft,
    strafeRight, moveAxes, candidateX, candidateY, bind;
    destruct (cellAt g _ (to_int (posY p))) as [c1|]; try reflexivity;
    destruct (c1 =? 0); reflexivity.
Qed.

(** A movement input is carried out whenever the two tiles it reads are
    inside the grid. *)
Lemma moveKey_total (k : MoveKey) (g : Grid) (p : Player D) (c1 : Z) :
  cellAt g (to_int (candidateX k p)) (to_int (posY p)) = Some c1 ->
  (exists c2,
     cellAt g (to_int (if c1 =? 0 then candidateX k p else posX p))
            (to_int (candidateY k p)) = Some c2) ->
  exists p', moveKey k g p = Some p'.
Proof.
  intros Hc1 [c2 Hc2]. rewrite moveKey_unfold. unfold bind.
  rewrite Hc1. cbv zeta.
  destruct (c1 =? 0); cbn [posX setPosX]; rewrite Hc2; eauto.
Qed.

(** C1 (as amended). For each of the four movement inputs the two axes
    are checked one after the other: the x move is applied exactly when
    the tile at (candidate x, current y) is empty, and the y move is
    applied exactly when the tile at (x after the x update, candidate y)
    is empty; nothing else in the player state changes.  Consequently,
    when the tile ahead along x is a wall and the tile aside along y is
    empty, the player keeps its x and takes the candidate y; and when
    the x move is free and the tile then ahead along y is a wall, the
    player takes the candidate x and keeps its y. *)
Theorem moveKey_axis_separated (k : MoveKey) (g : Grid) (p p' : Player D) :
  moveKey k g p = Some p' ->
  exists c1 c2,
    cellAt g (to_int (candidateX k p)) (to_int (posY p)) = Some c1 /\
    posX p' = (if c1 =? 0 then candidateX k p else posX p) /\
    cellAt g (to_int (posX p')) (to_int (candidateY k p)) = Some c2 /\
    posY p' = (if c2 =? 0 then candidateY k p else posY p) /\
    (dirX p', dirY p', planeX p', planeY p') =
      (dirX p, dirY p, planeX p, planeY p) /\
    (cameraHeight p', verticalVelocity p', isJumping p') =
      (cameraHeight p, verticalVelocity p, isJumping p) /\
    (c1 <> 0 ->
     cellAt g (to_int (posX p)) (to_int (candidateY k p)) = Some 0 ->
     posX p' = posX p /\ posY p' = candidateY k p) /\
    (c1 = 0 -> c2 <> 0 ->
     posX p' = candidateX k p /\ posY p' = posY p).
Proof.
  rewrite moveKey_unfold. unfold bind.
  destruct (cellAt g (to_int (candidateX k p)) (to_int (posY p)))
    as [c1|] eqn:Hc1; [|discriminate].
  cbv zeta.
  destruct (c1 =? 0) eqn:Hz1.
  - destruct (cellAt g (to_int (posX (setPosX p (candidateX k p))))
                (to_int (candidateY k p))) as [c2|] eqn:Hc2;
      [|discriminate].
    intros Heq. injection Heq as <-. exists c1, c2.
    rewrite Hz1.
    destruct (c2 =? 0) eqn:Hz2; cbn [posX posY setPosX setPosY dirX dirY
      planeX planeY cameraHeight verticalVelocity isJumping] in *;
      repeat split; auto; try lia.
  - destruct (cellAt g (to_int (posX p)) (to_int (candidateY k p)))
      as [c2|] eqn:Hc2; [|discriminate].
    intros Heq. injection Heq as <-. exists c1, c2.
    rewrite Hz1.
    destruct (c2 =? 0) eqn:Hz2; cbn [posX posY setPosX setPosY dirX dirY
      planeX planeY cameraHeight verticalVelocity isJumping] in *;
      repeat split; auto; try lia; try congruence.
    assert (c2 = 0) by congruence. lia.
Qed.

End MovementFacts.

(** At [Scenario.cornerPlayer] a forward move takes the player from
    (4.01, 5.97) to (3.98, 6.01): the y move is applied although the tile
    at (old x, candidate y), (4,6), is a wall, because the y check reads
    the tile at the x already updated, (3,6). *)
Lemma moveForward_corner :
  exists p',
    moveKey KeyW worldMap Scenario.cornerPlayer = Some p' /\
    posY p' = candidateY KeyW Scenario.cornerPlayer /\
    posY p' <> posY Scenario.cornerPlayer /\
    to_int (posX Scenario.cornerPlayer) = 4 /\
    to_int (posX p') = 3 /\
    to_int (candidateY KeyW Scenario.cornerPlayer) = 6 /\
    cellAt worldMap 4 6 = Some 2 /\
    cellAt worldMap 3 6 = Some 0.
Proof.
  eexists. split; [vm_compute; reflexivity|].
  repeat split; try (vm_compute; reflexivity).
  vm_compute. discriminate.
Qed.

(** At [Scenario.wallAheadPlayer] the wall (4,6) blocks the x move and
    the y move is free: a forward move keeps x = 3.98 and takes the
    candidate y. *)
Lemma moveForward_slides :
  exists p',
    moveKey KeyW worldMap Scenario.wallAheadPlayer = Some p' /\
    cellAt worldMap (to_int (candidateX KeyW Scenario.wallAheadPlayer))
           (to_int (posY Scenario.wallAheadPlayer)) = Some 2 /\
    posX p' = posX Scenario.wallAheadPlayer /\
    posY p' = candidateY KeyW Scenario.wallAheadPlayer /\
    posY p' <> posY Scenario.wallAheadPlayer.
Proof.
  eexists. split; [vm_compute; reflexivity|].
  repeat split; try (vm_compute; reflexivity).
  vm_compute. discriminate.
Qed.

(** Counterexample to C1 as stated: the y check is not made at the x
    coordinate from before the x update. *)
Lemma yCheckedAtOldX_fails :
  ~ yCheckedAtOldX KeyW worldMap Scenario.cornerPlayer.
Proof.
  intros Hclaim.
  destruct moveForward_corner as (p' & Hmove & _ & Hmoved & _).
  specialize (Hclaim p' Hmove Hmoved).
  vm_compute in Hclaim. clear - Hclaim. discriminate Hclaim.
Qed.

Lemma moveKey_axis_separated_witness :
  exists p',
    moveKey KeyW worldMap Scenario.wallAheadPlayer = Some p' /\
    exists c1 c2,
      cellAt worldMap (to_int (candidateX KeyW Scenario.wallAheadPlayer))
             (to_int (posY Scenario.wallAheadPlayer)) = Some c1 /\
      posX p' = (if c1 =? 0 then candidateX KeyW Scenario.wallAheadPlayer
                 else posX Scenario.wallAheadPlayer) /\
      cellAt worldMap (to_int (posX p'))
             (to_int (candidateY KeyW Scenario.wallAheadPlayer)) = Some c2 /\
      posY p' = (if c2 =? 0 then candidateY KeyW Scenario.wallAheadPlayer
                 else posY Scenario.wallAheadPlayer) /\
      (dirX p', dirY p', planeX p', planeY p') =
        (dirX Scenario.wallAheadPlayer, dirY Scenario.wallAheadPlayer,
         planeX Scenario.wallAheadPlayer, planeY Scenario.wallAheadPlayer) /\
      (cameraHeight p', verticalVelocity p', isJumping p') =
        (cameraHeight Scenario.wallAheadPlayer,
         verticalVelocity Scenario.wallAheadPlayer,
         isJumping Scenario.wallAheadPlayer) /\
      (c1 <> 0 ->
       cellAt worldMap (to_int (posX Scenario.wallAheadPlayer))
              (to_int (candidateY KeyW Scenario.wallAheadPlayer)) = Some 0 ->
       posX p' = posX Scenario.wallAheadPlayer /\
       posY p' = candidateY KeyW Scenario.wallAheadPlayer) /\
      (c1 = 0 -> c2 <> 0 ->
       posX p' = candidateX KeyW Scenario.wallAheadPlayer /\
       posY p' = posY Scenario.wallAheadPlayer).
Proof.
  eexists. split; [vm_compute; reflexivity|].
  apply (moveKey_axis_separated KeyW worldMap Scenario.wallAheadPlayer).
  vm_compute. reflexivity.
Defined.

(** ** Raycaster: the DDA step loop *)

Lemma indices_In (n z : Z) : 0 <= z < n -> In z (indices n).
Proof.
  intros Hz. unfold indices. apply in_map_iff.
  exists (Z.to_nat z). split; [lia|]. apply in_seq. lia.
Qed.

Lemma cellAt_Some_range (g : Grid) (x y c : Z) :
  sealedGrid g = true ->
  cellAt g x y = Some c ->
  0 <= x < gridWidth g /\ 0 <= y < gridHeight g.
Proof.
  unfold sealedGrid, cellAt, gridWidth. intros Hs Hc.
  apply andb_true_iff in Hs. destruct Hs as [Hrows _].
  rewrite forallb_forall in Hrows.
  destruct ((x <? 0) || (y <? 0)) eqn:Hneg; [discriminate|].
  apply orb_false_iff in Hneg.
  destruct (nth_error g (Z.to_nat x)) as [row|] eqn:Hrow; [|discriminate].
  assert (Hx : (Z.to_nat x < length g)%nat)
    by (apply nth_error_Some; congruence).
  assert (Hy : (Z.to_nat y < length row)%nat)
    by (apply nth_error_Some; congruence).
  specialize (Hrows row (nth_error_In _ _ Hrow)).
  lia.
Qed.

Lemma sealedGrid_cell (g : Grid) (x y : Z) :
  sealedGrid g = true ->
  0 <= x < gridWidth g -> 0 <= y < gridHeight g ->
  exists c, cellAt g x y = Some c /\ 0 <= c /\
            (isBorder g x y = true -> c <> 0).
Proof.
  unfold sealedGrid. intros Hs Hx Hy.
  apply andb_true_iff in Hs. destruct Hs as [_ Hcells].
  rewrite forallb_forall in Hcells.
  specialize (Hcells x (indices_In _ _ Hx)).
  rewrite forallb_forall in Hcells.
  specialize (Hcells y (indices_In _ _ Hy)).
  unfold sealedCell in Hcells.
  destruct (cellAt g x y) as [c|]; [|discriminate].
  exists c. split; [reflexivity|].
  apply andb_true_iff in Hcells. destruct Hcells as [Hnn Hb].
  split; [lia|]. intros Hborder. rewrite Hborder in Hb. simpl in Hb.
  destruct (c =? 0) eqn:Hc; [discriminate|lia].
Qed.

(** An empty cell of a sealed grid is not on the border. *)
Lemma empty_cell_interior (g : Grid) (x y c : Z) :
  sealedGrid g = true ->
  cellAt g x y = Some c -> c <= 0 ->
  1 <= x <= gridWidth g - 2 /\ 1 <= y <= gridHeight g - 2.
Proof.
  intros Hs Hc Hle.
  destruct (cellAt_Some_range g x y c Hs Hc) as [Hx Hy].
  destruct (sealedGrid_cell g x y Hs Hx Hy) as (c' & Hc' & Hnn & Hb).
  assert (c' = c) by congruence. subst c'.
  destruct (isBorder g x y) eqn:Hborder.
  - specialize (Hb eq_refl). lia.
  - unfold isBorder in Hborder. repeat (apply orb_false_iff in Hborder;
      destruct Hborder as [Hborder ?]). lia.
Qed.

Section DDAFacts.

Context {D : Type} `{DoubleOps D}.

Lemma ddaSetup_steps (px py rdx rdy : D) :
  let r := ddaSetup px py rdx rdy in
  (stepX r = 1 \/ stepX r = -1) /\ (stepY r = 1 \/ stepY r = -1) /\
  mapX (start r) = to_int px /\ mapY (start r) = to_int py.
Proof.
  unfold ddaSetup.
  destruct (rdx <? of_int 0)%D, (rdy <? of_int 0)%D; simpl; auto.
Qed.

Lemma remaining_bounds (limit step pos : Z) :
  step = 1 \/ step = -1 ->
  1 <= pos <= limit - 2 ->
  1 <= remaining limit step pos <= limit - 2.
Proof. unfold remaining. intros [-> | ->] Hp; simpl; lia. Qed.

Lemma remaining_advance (limit step pos : Z) :
  step = 1 \/ step = -1 ->
  remaining limit step (pos + step) = remaining limit step pos - 1.
Proof. unfold remaining. intros [-> | ->]; simpl; lia. Qed.

Lemma ddaLoop_steps_gt (g : Grid) (r : RaySetup D) (fuel done : nat)
      (st st' : DDA D) (side : Z) (n : nat) :
  ddaLoop g r fuel done st = Hit st' side n -> (done < n)%nat.
Proof.
  revert done st. induction fuel as [|fuel IH]; intros done st; simpl.
  - discriminate.
  - destruct (ddaAdvance r st) as [st1 sd].
    destruct (cellAt g (mapX st1) (mapY st1)) as [c|]; [|discriminate].
    destruct (c >? 0).
    + intros Heq. injection Heq as _ _ <-. lia.
    + intros Heq. apply IH in Heq. lia.
Qed.

(** The result of the loop does not depend on the fuel, once there is
    enough of it. *)
Lemma ddaLoop_fuel (g : Grid) (r : RaySetup D) (fuel done : nat)
      (st st' : DDA D) (side : Z) (n : nat) :
  ddaLoop g r fuel done st = Hit st' side n ->
  forall fuel', (n - done <= fuel')%nat ->
                ddaLoop g r fuel' done st = Hit st' side n.
Proof.
  revert done st. induction fuel as [|fuel IH]; intros done st; simpl.
  - discriminate.
  - intros Hrun fuel' Hfuel.
    pose proof (ddaLoop_steps_gt g r (S fuel) done st st' side n) as Hgt.
    simpl in Hgt. specialize (Hgt Hrun).
    destruct fuel' as [|fuel']; [lia|]. simpl.
    destruct (ddaAdvance r st) as [st1 sd].
    destruct (cellAt g (mapX st1) (mapY st1)) as [c|]; [|discriminate].
    destruct (c >? 0); [exact Hrun|].
    apply IH; [exact Hrun|lia].
Qed.

(** From an interior tile of a sealed grid the loop reaches a wall, in
    no more iterations than there are tiles left to the border along
    the two directions of travel. *)
Lemma ddaLoop_hits (g : Grid) (r : RaySetup D) :
  sealedGrid g = true ->
  (stepX r = 1 \/ stepX r = -1) -> (stepY r = 1 \/ stepY r = -1) ->
  forall (fuel done : nat) (st : DDA D),
    1 <= mapX st <= gridWidth g - 2 ->
    1 <= mapY st <= gridHeight g - 2 ->
    remaining (gridWidth g) (stepX r) (mapX st) +
    remaining (gridHeight g) (stepY r) (mapY st) - 1 <= Z.of_nat fuel ->
    exists st' side n c,
      ddaLoop g r fuel done st = Hit st' side n /\
      Z.of_nat n <= Z.of_nat done +
        remaining (gridWidth g) (stepX r) (mapX st) +
        remaining (gridHeight g) (stepY r) (mapY st) - 1 /\
      cellAt g (mapX st') (mapY st') = Some c /\ 0 < c.
Proof.
  intros Hs HsX HsY.
  induction fuel as [|fuel IH]; intros done st Hx Hy Hfuel.
  - pose proof (remaining_bounds _ _ _ HsX Hx).
    pose proof (remaining_bounds _ _ _ HsY Hy). lia.
  - pose proof (remaining_bounds _ _ _ HsX Hx) as HbX.
    pose proof (remaining_bounds _ _ _ HsY Hy) as HbY.
    simpl. unfold ddaAdvance.
    destruct (sideDistX st <? sideDistY st)%D.
    + set (st1 := {| sideDistX := (sideDistX st + deltaDistX r)%D;
                    sideDistY := sideDistY st;
                    mapX := mapX st + stepX r; mapY := mapY st |}).
      assert (Hx1 : 0 <= mapX st1 < gridWidth g)
        by (simpl; destruct HsX as [-> | ->]; lia).
      assert (Hy1 : 0 <= mapY st1 < gridHeight g) by (simpl; lia).
      destruct (sealedGrid_cell g _ _ Hs Hx1 Hy1) as (c & Hc & Hnn & _).
      rewrite Hc. destruct (c >? 0) eqn:Hwall.
      * exists st1, 0, (S done), c. repeat split; auto; lia.
      * destruct (empty_cell_interior g _ _ c Hs Hc ltac:(lia))
          as [Hix Hiy].
        pose proof (remaining_advance (gridWidth g) _ (mapX st) HsX)
          as Hrem.
        change (mapX st + stepX r) with (mapX st1) in Hrem.
        destruct (IH (S done) st1 Hix Hiy) as (st' & side & n & c' & Hr).
        { rewrite Hrem. change (mapY st1) with (mapY st). lia. }
        exists st', side, n, c'.
        rewrite Hrem in Hr. change (mapY st1) with (mapY st) in Hr.
        destruct Hr as (Hrun & Hn & Hc' & Hpos).
        repeat split; auto; lia.
    + set (st1 := {| sideDistX := sideDistX st;
                    sideDistY := (sideDistY st + deltaDistY r)%D;
                    mapX := mapX st; mapY := mapY st + stepY r |}).
      assert (Hx1 : 0 <= mapX st1 < gridWidth g) by (simpl; lia).
      assert (Hy1 : 0 <= mapY st1 < gridHeight g)
        by (simpl; destruct HsY as [-> | ->]; lia).
      destruct (sealedGrid_cell g _ _ Hs Hx1 Hy1) as (c & Hc & Hnn & _).
      rewrite Hc. destruct (c >? 0) eqn:Hwall.
      * exists st1, 1, (S done), c. repeat split; auto; lia.
      * destruct (empty_cell_interior g _ _ c Hs Hc ltac:(lia))
          as [Hix Hiy].
        pose proof (remaining_advance (gridHeight g) _ (mapY st) HsY)
          as Hrem.
        change (mapY st + stepY r) with (mapY st1) in Hrem.
        destruct (IH (S done) st1 Hix Hiy) as (st' & side & n & c' & Hr).
        { rewrite Hrem. change (mapX st1) with (mapX st). lia. }
        exists st', side, n, c'.
        rewrite Hrem in Hr. change (mapX st1) with (mapX st) in Hr.
        destruct Hr as (Hrun & Hn & Hc' & Hpos).
        repeat split; auto; lia.
Qed.

Lemma ddaState_succ (r : RaySetup D) (n : nat) (st : DDA D) :
  ddaState r (S n) st = fst (ddaAdvance r (ddaState r n st)).
Proof.
  unfold ddaState. revert st.
  induction n as [|n IH]; intros st; [reflexivity|].
  change (iterate (S (S n)) (fun s => fst (ddaAdvance r s)) st)
    with (iterate (S n) (fun s => fst (ddaAdvance r s))
                  (fst (ddaAdvance r st))).
  rewrite IH. reflexivity.
Qed.

(** The state the loop stops in is the last of the states it has been
    through, and [side] the axis of its last advance. *)
Lemma ddaLoop_state (g : Grid) (r : RaySetup D) (fuel done : nat)
      (st st' : DDA D) (side : Z) (n : nat) :
  ddaLoop g r fuel done st = Hit st' side n ->
  exists k, n = (done + S k)%nat /\
            st' = ddaState r (S k) st /\
            side = snd (ddaAdvance r (ddaState r k st)).
Proof.
  revert done st. induction fuel as [|fuel IH]; intros done st; simpl.
  - discriminate.
  - destruct (ddaAdvance r st) as [st1 sd] eqn:Hadv.
    destruct (cellAt g (mapX st1) (mapY st1)) as [c|]; [|discriminate].
    destruct (c >? 0).
    + intros Heq. injection Heq as <- <- <-. exists 0%nat.
      unfold ddaState. simpl. rewrite Hadv. repeat split. lia.
    + intros Heq. destruct (IH _ _ Heq) as (k & Hn & Hst & Hside).
      exists (S k). split; [lia|].
      assert (Hst1 : st1 = fst (ddaAdvance r st)) by (rewrite Hadv; auto).
      subst st1. split; [exact Hst|exact Hside].
Qed.

Lemma dda_hits_aux (g : Grid) (px py rdx rdy : D) :
  sealedGrid g = true ->
  cellAt g (to_int px) (to_int py) = Some 0 ->
  exists st side steps,
    Z.of_nat steps <= gridWidth g + gridHeight g /\
    (forall fuel, (steps <= fuel)%nat ->
       ddaLoop g (ddaSetup px py rdx rdy) fuel 0
               (start (ddaSetup px py rdx rdy)) = Hit st side steps).
Proof.
  intros Hs Hstart.
  destruct (ddaSetup_steps px py rdx rdy) as (HsX & HsY & HmX & HmY).
  set (r := ddaSetup px py rdx rdy) in *.
  destruct (empty_cell_interior g _ _ 0 Hs Hstart ltac:(lia)) as [Hx Hy].
  rewrite <- HmX in Hx. rewrite <- HmY in Hy.
  pose proof (remaining_bounds _ _ _ HsX Hx) as HbX.
  pose proof (remaining_bounds _ _ _ HsY Hy) as HbY.
  destruct (ddaLoop_hits g r Hs HsX HsY
              (Z.to_nat (gridWidth g + gridHeight g)) 0 (start r) Hx Hy)
    as (st & side & n & c & Hrun & Hn & Hc & Hpos); [lia|].
  exists st, side, n. split; [lia|].
  intros fuel Hfuel. eapply ddaLoop_fuel; [exact Hrun|lia].
Qed.

(** C3. For every position inside an empty tile of a sealed grid and
    every ray direction, the DDA step loop terminates: there is a number
    of iterations [steps], at most [gridWidth + gridHeight], after which
    the loop stops on a tile holding a wall -- run with any fuel of at
    least [steps] it returns that hit, never runs out of fuel and never
    reads outside the grid. *)
Theorem dda_terminates (g : Grid) (px py rdx rdy : D) :
  sealedGrid g = true ->
  cellAt g (to_int px) (to_int py) = Some 0 ->
  exists st side steps c,
    Z.of_nat steps <= gridWidth g + gridHeight g /\
    (forall fuel, (steps <= fuel)%nat ->
       ddaLoop g (ddaSetup px py rdx rdy) fuel 0
               (start (ddaSetup px py rdx rdy)) = Hit st side steps) /\
    cellAt g (mapX st) (mapY st) = Some c /\ 0 < c.
Proof.
  intros Hs Hstart.
  destruct (ddaSetup_steps px py rdx rdy) as (HsX & HsY & HmX & HmY).
  set (r := ddaSetup px py rdx rdy) in *.
  destruct (empty_cell_interior g _ _ 0 Hs Hstart ltac:(lia)) as [Hx Hy].
  rewrite <- HmX in Hx. rewrite <- HmY in Hy.
  pose proof (remaining_bounds _ _ _ HsX Hx) as HbX.
  pose proof (remaining_bounds _ _ _ HsY Hy) as HbY.
  destruct (ddaLoop_hits g r Hs HsX HsY
              (Z.to_nat (gridWidth g + gridHeight g)) 0 (start r) Hx Hy)
    as (st & side & n & c & Hrun & Hn & Hc & Hpos); [lia|].
  exists st, side, n, c. repeat split; auto; try lia.
  intros fuel Hfuel. eapply ddaLoop_fuel; [exact Hrun|lia].
Qed.

(** The same for the ray of a screen column. *)
Corollary castRay_hits (g : Grid) (p : Player D) (x : Z) :
  sealedGrid g = true ->
  cellAt g (to_int (posX p)) (to_int (posY p)) = Some 0 ->
  exists h,
    Z.of_nat (hitSteps h) <= gridWidth g + gridHeight g /\
    forall fuel, (hitSteps h <= fuel)%nat -> castRay g p x fuel = Cast h.
Proof.
  intros Hs Hstart. unfold castRay.
  destruct (rayDir p x) as [rdx rdy].
  destruct (dda_hits_aux g (posX p) (posY p) rdx rdy Hs Hstart)
    as (st & side & n & Hn & Hrun).
  eexists {| hitX := mapX st; hitY := mapY st; hitSide := side;
             hitDist := _; hitSteps := n |}.
  split; [exact Hn|]. intros fuel Hfuel. simpl in Hfuel.
  rewrite (Hrun fuel Hfuel). reflexivity.
Qed.

End DDAFacts.

Lemma dda_terminates_witness :
  exists st side steps c,
    Z.of_nat steps <= gridWidth worldMap + gridHeight worldMap /\
    (forall fuel, (steps <= fuel)%nat ->
       ddaLoop worldMap
         (ddaSetup (of_int 22) (of_int 12) (dopp (of_int 1)) (lit 33 100))
         fuel 0
         (start (ddaSetup (D:=B64.t) (of_int 22) (of_int 12)
                          (dopp (of_int 1)) (lit 33 100)))
       = Hit st side steps) /\
    cellAt worldMap (mapX st) (mapY st) = Some c /\ 0 < c.
Proof.
  apply (dda_terminates (D:=B64.t) worldMap (of_int 22) (of_int 12)
                        (dopp (of_int 1)) (lit 33 100)).
  - vm_compute. reflexivity.
  - vm_compute. reflexivity.
Defined.

(** C4. The reference scenario, in binary64: in the 3x3 room, from
    (1.5, 1.5) with direction (1, 0) and camera plane (0, 0.66), the ray of
    the centre screen column (column [SCREEN_WIDTH / 2], whose camera
    offset is 0) stops after one x step on the wall tile (2, 1), with
    side 0 and perpendicular wall distance exactly 0.5, whatever fuel
    (at least one iteration) the loop is given. *)
Theorem reference_scenario (fuel : nat) :
  rayDir Scenario.roomPlayer Scenario.centerColumn = (of_int 1, of_int 0) /\
  castRay room3 Scenario.roomPlayer Scenario.centerColumn (S fuel) =
    Cast {| hitX := 2; hitY := 1; hitSide := 0;
            hitDist := lit 1 2; hitSteps := 1 |} /\
  cellAt room3 2 1 = Some 1 /\
  lit (D:=B64.t) 1 2 = S754_finite false 4503599627370496 (-53).
Proof.
  repeat split; vm_compute; reflexivity.
Qed.

(** ** Raycaster: a ray component that is exactly zero (binary64) *)

Module ZeroComponent.

Lemma recip_zero (s : bool) :
  dabs (of_int 1 / S754_zero s)%D = B64.pinf.
Proof. destruct s; reflexivity. Qed.

Lemma zero_not_negative (s : bool) :
  (S754_zero s <? of_int 0)%D = false.
Proof. destruct s; reflexivity. Qed.

Lemma mul_pinf_positive (x : B64.t) :
  (of_int 0 <? x)%D = true -> (x * B64.pinf)%D = B64.pinf.
Proof.
  destruct x as [s|s| |s m e]; try destruct s; simpl;
    try discriminate; reflexivity.
Qed.

Lemma pinf_not_less (y : B64.t) : (B64.pinf <? y)%D = false.
Proof. destruct y as [s|s| |s m e]; try destruct s; reflexivity. Qed.

Lemma pinf_add_pinf : (B64.pinf + B64.pinf)%D = B64.pinf.
Proof. reflexivity. Qed.

Lemma setup_x (px py rdy : B64.t) (s : bool) :
  let r := ddaSetup px py (S754_zero s) rdy in
  deltaDistX r = B64.pinf /\ stepX r = 1 /\
  mapX (start r) = to_int px /\
  sideDistX (start r) =
    ((of_int (to_int px) + of_int 1 - px) * B64.pinf)%D.
Proof.
  unfold ddaSetup. rewrite zero_not_negative, recip_zero.
  destruct (rdy <? of_int 0)%D; simpl; auto.
Qed.

Lemma setup_y (px py rdx : B64.t) (s : bool) :
  let r := ddaSetup px py rdx (S754_zero s) in
  deltaDistY r = B64.pinf /\ stepY r = 1 /\
  mapY (start r) = to_int py /\
  sideDistY (start r) =
    ((of_int (to_int py) + of_int 1 - py) * B64.pinf)%D.
Proof.
  unfold ddaSetup. rewrite zero_not_negative, recip_zero.
  destruct (rdx <? of_int 0)%D; simpl; auto.
Qed.

(** Once the x side distance is +inf the loop only ever advances y. *)
Lemma x_never_advanced (r : RaySetup B64.t) (st : DDA B64.t) (n : nat) :
  sideDistX st = B64.pinf ->
  sideDistX (ddaState r n st) = B64.pinf /\
  mapX (ddaState r n st) = mapX st /\
  snd (ddaAdvance r (ddaState r n st)) = 1.
Proof.
  intros Hinf. induction n as [|n IH].
  - unfold ddaState. simpl. repeat split; auto.
    unfold ddaAdvance. rewrite Hinf, pinf_not_less. reflexivity.
  - destruct IH as (Hs & Hm & _).
    assert (Hst : sideDistX (ddaState r (S n) st) = B64.pinf /\
                  mapX (ddaState r (S n) st) = mapX st).
    { rewrite ddaState_succ. unfold ddaAdvance.
      rewrite Hs, pinf_not_less. simpl. auto. }
    destruct Hst as [Hs' Hm']. repeat split; auto.
    unfold ddaAdvance. rewrite Hs', pinf_not_less. reflexivity.
Qed.

(** With an infinite y delta the y side distance stays +inf. *)
Lemma y_side_stays_pinf (r : RaySetup B64.t) (st : DDA B64.t) (n : nat) :
  deltaDistY r = B64.pinf ->
  sideDistY st = B64.pinf ->
  sideDistY (ddaState r n st) = B64.pinf.
Proof.
  intros Hd Hinf. induction n as [|n IH]; [exact Hinf|].
  rewrite ddaState_succ. unfold ddaAdvance.
  destruct (sideDistX (ddaState r n st) <? sideDistY (ddaState r n st))%D;
    simpl; [exact IH|].
  rewrite IH, Hd. reflexivity.
Qed.

End ZeroComponent.

(** *** Magnitudes of binary64 results

    [B64.add], [B64.sub], [B64.mul] and [B64.div] are [SFadd], [SFsub],
    [SFmul] and [SFdiv] at precision 53 and [emax = 1024].  Each rounds
    its exact result with [binary_round_aux]; what follows bounds the
    magnitude of that result, which is what keeps a distance finite. *)

(** The number of binary digits of a mantissa. *)
Lemma digits2_size (p : positive) : digits2_pos p = Pos.size p.
Proof. induction p; simpl; congruence. Qed.

Lemma digits2_bounds (p : positive) :
  2 ^ (Zpos (digits2_pos p) - 1) <= Zpos p < 2 ^ Zpos (digits2_pos p).
Proof.
  rewrite digits2_size. split.
  - pose proof (Pos.size_le p) as H.
    assert (H2 : Zpos (2 ^ Pos.size p) <= Zpos p~0)
      by (apply Pos2Z.pos_le_pos; exact H).
    rewrite Pos2Z.inj_pow in H2.
    replace (Zpos (Pos.size p)) with (Zpos (Pos.size p) - 1 + 1) in H2 by lia.
    rewrite Z.pow_add_r in H2 by lia.
    change (2 ^ 1) with 2 in H2. lia.
  - pose proof (Pos.size_gt p) as H.
    assert (H2 : Zpos p < Zpos (2 ^ Pos.size p))
      by (apply Pos2Z.pos_lt_pos; exact H).
    rewrite Pos2Z.inj_pow in H2. exact H2.
Qed.

(** [m < 2^k] bounds the number of digits. *)
Lemma Zdigits2_le (m k : Z) :
  0 <= m < 2 ^ k -> Zdigits2 m <= k.
Proof.
  intros [H0 Hlt].
  assert (Hk : 0 <= k).
  { destruct (Z.le_gt_cases 0 k) as [|Hneg]; [assumption|].
    rewrite Z.pow_neg_r in Hlt by lia. lia. }
  destruct m as [|p|p]; simpl; [lia| |lia].
  destruct (digits2_bounds p) as [Hlo _].
  destruct (Z.le_gt_cases (Zpos (digits2_pos p)) k) as [|Hgt]; [assumption|].
  exfalso.
  assert (2 ^ k <= 2 ^ (Zpos (digits2_pos p) - 1))
    by (apply Z.pow_le_mono_r; lia).
  lia.
Qed.

(** The right shifts of the rounding procedure divide the mantissa. *)
Lemma shr_1_m (mrs : shr_record) :
  0 <= shr_m mrs -> shr_m (shr_1 mrs) = shr_m mrs / 2.
Proof.
  destruct mrs as [m r s]. simpl. intros Hm.
  destruct m as [|p|p]; [reflexivity| |lia].
  destruct p as [p|p|]; simpl.
  - rewrite (Pos2Z.inj_xI p). apply Z.div_unique with (r := 1); lia.
  - rewrite (Pos2Z.inj_xO p). apply Z.div_unique with (r := 0); lia.
  - reflexivity.
Qed.

Lemma iter_shr_1_m (p : positive) :
  forall mrs, 0 <= shr_m mrs ->
    shr_m (iter_pos shr_1 p mrs) = shr_m mrs / 2 ^ Zpos p.
Proof.
  induction p as [p IH|p IH|]; intros mrs Hm; simpl iter_pos.
  - assert (H1 : 0 <= shr_m (shr_1 mrs)).
    { rewrite shr_1_m by assumption. apply Z.div_pos; lia. }
    assert (H2 : 0 <= shr_m (iter_pos shr_1 p (shr_1 mrs))).
    { rewrite IH by assumption. apply Z.div_pos; [assumption|].
      apply Z.pow_pos_nonneg; lia. }
    assert (Hpow : 2 ^ Zpos p~1 = 2 * 2 ^ Zpos p * 2 ^ Zpos p).
    { rewrite (Pos2Z.inj_xI p), Z.pow_add_r, Z.pow_twice_r by lia.
      change (2 ^ 1) with 2. lia. }
    rewrite IH, IH, shr_1_m by assumption.
    rewrite !Z.div_div by (try apply Z.pow_pos_nonneg; lia).
    rewrite Hpow. f_equal. lia.
  - assert (H2 : 0 <= shr_m (iter_pos shr_1 p mrs)).
    { rewrite IH by assumption. apply Z.div_pos; [assumption|].
      apply Z.pow_pos_nonneg; lia. }
    assert (Hpow : 2 ^ Zpos p~0 = 2 ^ Zpos p * 2 ^ Zpos p).
    { rewrite (Pos2Z.inj_xO p). apply Z.pow_twice_r. }
    rewrite IH, IH by assumption.
    rewrite !Z.div_div by (try apply Z.pow_pos_nonneg; lia).
    rewrite Hpow. reflexivity.
  - rewrite shr_1_m by assumption. reflexivity.
Qed.

Lemma shr_record_of_loc_m (m : Z) (l : location) :
  shr_m (shr_record_of_loc m l) = m.
Proof. destruct l as [|[| |]]; reflexivity. Qed.

Lemma fexp_le (k K : Z) :
  k <= K -> fexp 53 1024 k <= Z.max (K - 53) (-1074).
Proof. unfold fexp, emin. lia. Qed.

(** One normalising shift keeps the mantissa below [2^(K - e)]. *)
Lemma shr_fexp_below (m e : Z) (l : location) (K : Z) :
  0 <= m < 2 ^ (K - e) -> e <= 971 -> -1074 <= K <= 1024 ->
  0 <= shr_m (fst (shr_fexp 53 1024 m e l))
     < 2 ^ (K - snd (shr_fexp 53 1024 m e l)) /\
  snd (shr_fexp 53 1024 m e l) <= 971.
Proof.
  intros Hm He HK.
  assert (Hd : Zdigits2 m + e <= K).
  { pose proof (Zdigits2_le m (K - e) Hm). lia. }
  pose proof (fexp_le _ _ Hd) as Hf.
  unfold shr_fexp, shr.
  set (fe := fexp 53 1024 (Zdigits2 m + e)) in *.
  destruct (fe - e) as [|p|p] eqn:Hn; simpl fst; simpl snd.
  - rewrite shr_record_of_loc_m. split; [exact Hm|exact He].
  - rewrite iter_shr_1_m by (rewrite shr_record_of_loc_m; lia).
    rewrite shr_record_of_loc_m.
    assert (Hp : 0 < 2 ^ Zpos p) by (apply Z.pow_pos_nonneg; lia).
    split; [|lia]. split.
    + apply Z.div_pos; lia.
    + apply Z.div_lt_upper_bound; [exact Hp|].
      rewrite <- Z.pow_add_r by lia.
      replace (Zpos p + (K - (e + Zpos p))) with (K - e) by lia.
      apply Hm.
  - rewrite shr_record_of_loc_m. split; [exact Hm|exact He].
Qed.

Lemma round_nearest_even_bounds (m : Z) (l : location) :
  m <= round_nearest_even m l <= m + 1.
Proof.
  destruct l as [|[| |]]; simpl; try lia.
  destruct (Z.even m); lia.
Qed.

(** Rounding a value below [2^K] gives a finite double, at most [2^K]. *)
Lemma round_below (s : bool) (m e : Z) (l : location) (K : Z) :
  0 <= m < 2 ^ (K - e) -> e <= 971 -> -1074 <= K <= 1023 ->
  finiteBelow (K + 1) (binary_round_aux 53 1024 s m e l).
Proof.
  intros Hm He HK. unfold binary_round_aux.
  destruct (shr_fexp_below m e l K Hm He ltac:(lia)) as [H1 He1].
  destruct (shr_fexp 53 1024 m e l) as [mrs1 e1]. cbn [fst snd] in H1, He1.
  pose proof (round_nearest_even_bounds (shr_m mrs1)
                (loc_of_shr_record mrs1)) as Hr.
  set (m1 := round_nearest_even (shr_m mrs1) (loc_of_shr_record mrs1)) in *.
  assert (Hm1 : 0 <= m1 < 2 ^ (K + 1 - e1)).
  { split; [lia|].
    assert (0 <= K - e1).
    { destruct (Z.le_gt_cases 0 (K - e1)); [assumption|].
      rewrite Z.pow_neg_r in H1 by lia. lia. }
    replace (K + 1 - e1) with (K - e1 + 1) by lia.
    rewrite Z.pow_add_r by lia. change (2 ^ 1) with 2. lia. }
  destruct (shr_fexp_below m1 e1 loc_Exact (K + 1) Hm1 He1 ltac:(lia))
    as [H2 He2].
  destruct (shr_fexp 53 1024 m1 e1 loc_Exact) as [mrs2 e2].
  cbn [fst snd] in H2, He2.
  destruct (shr_m mrs2) as [|p|p]; cbv beta iota.
  - exact I.
  - assert (Hle : (e2 <=? 1024 - 53) = true) by (apply Z.leb_le; lia).
    rewrite Hle. split; [apply H2|exact He2].
  - lia.
Qed.

(** Aligning two mantissas shifts the one with the larger exponent left. *)
Lemma iter_xO (m d : positive) :
  Zpos (Pos.iter xO m d) = Zpos m * 2 ^ Zpos d.
Proof.
  induction d as [|d IH] using Pos.peano_ind.
  - simpl. rewrite (Pos2Z.inj_xO m). lia.
  - rewrite Pos.iter_succ, (Pos2Z.inj_xO (Pos.iter xO m d)), IH, Pos2Z.inj_succ.
    rewrite Z.pow_succ_r by lia. lia.
Qed.

Lemma shl_align_spec (m : positive) (e e' : Z) :
  snd (shl_align m e e') <= e /\
  Zpos (fst (shl_align m e e')) =
    Zpos m * 2 ^ (e - snd (shl_align m e e')).
Proof.
  unfold shl_align. destruct (e' - e) as [|p|p] eqn:Hd;
    cbn [fst snd].
  - split; [lia|]. rewrite Z.sub_diag. change (2 ^ 0) with 1. lia.
  - split; [lia|]. rewrite Z.sub_diag. change (2 ^ 0) with 1. lia.
  - split; [lia|]. rewrite iter_xO. f_equal. f_equal. lia.
Qed.

Lemma pow_split (a b : Z) : 0 <= a -> 0 <= b -> 2 ^ (a + b) = 2 ^ a * 2 ^ b.
Proof. intros. apply Z.pow_add_r; assumption. Qed.

Lemma pow_pos_exp (m K : Z) : 0 < m -> m < 2 ^ K -> 0 < K.
Proof.
  intros Hm Hlt. destruct (Z.lt_ge_cases 0 K) as [|Hle]; [assumption|].
  exfalso. destruct (Z.eq_dec K 0) as [->|].
  - simpl in Hlt. lia.
  - rewrite Z.pow_neg_r in Hlt by lia. lia.
Qed.

Lemma binary_round_below (s : bool) (m : positive) (e K : Z) :
  Zpos m < 2 ^ (K - e) -> e <= 971 -> -1074 <= K <= 1023 ->
  finiteBelow (K + 1) (binary_round 53 1024 s m e).
Proof.
  intros Hm He HK. unfold binary_round.
  destruct (shl_align_spec m e (fexp 53 1024 (Zpos (digits2_pos m) + e)))
    as [Hle Hv].
  destruct (shl_align m e (fexp 53 1024 (Zpos (digits2_pos m) + e)))
    as [mz ez]. cbn [fst snd] in Hle, Hv.
  apply round_below; [|lia|exact HK].
  split; [lia|]. rewrite Hv.
  pose proof (pow_pos_exp _ _ (Pos2Z.is_pos m) Hm) as HKe.
  replace (K - ez) with ((K - e) + (e - ez)) by lia.
  rewrite pow_split by lia.
  apply Z.mul_lt_mono_pos_r; [apply Z.pow_pos_nonneg; lia|exact Hm].
Qed.

Lemma normalize_below (z e K : Z) (sz : bool) :
  Z.abs z < 2 ^ (K - e) -> e <= 971 -> -1074 <= K <= 1023 ->
  finiteBelow (K + 1) (binary_normalize 53 1024 z e sz).
Proof.
  intros Hz He HK. destruct z as [|p|p]; simpl.
  - exact I.
  - apply binary_round_below; assumption.
  - apply binary_round_below; assumption.
Qed.

Lemma finiteBelow_mono (K K' : Z) (x : spec_float) :
  K <= K' -> finiteBelow K x -> finiteBelow K' x.
Proof.
  intros HK. destruct x as [s|s| |s m e]; simpl; auto.
  intros [Hm He]. split; [|exact He].
  pose proof (pow_pos_exp _ _ (Pos2Z.is_pos m) Hm).
  eapply Z.lt_le_trans; [exact Hm|]. apply Z.pow_le_mono_r; lia.
Qed.

Lemma finiteBelow_opp (K : Z) (x : spec_float) : finiteBelow K x -> finiteBelow K (SFopp x).
Proof. destruct x; simpl; auto. Qed.

Lemma finiteBelow_abs (K : Z) (x : spec_float) : finiteBelow K x -> finiteBelow K (SFabs x).
Proof. destruct x; simpl; auto. Qed.

(** The aligned mantissa of a finiteBelow double. *)
Lemma aligned_below (m : positive) (e ez K : Z) :
  Zpos m < 2 ^ (K - e) -> ez <= e ->
  Zpos (fst (shl_align m e ez)) < 2 ^ (K - ez).
Proof.
  intros Hm Hle.
  pose proof (pow_pos_exp _ _ (Pos2Z.is_pos m) Hm) as HKe.
  unfold shl_align. destruct (ez - e) as [|p|p] eqn:Hd;
    cbn [fst snd].
  - replace ez with e by lia. exact Hm.
  - lia.
  - rewrite iter_xO.
    replace (K - ez) with ((K - e) + Zpos p) by lia.
    rewrite pow_split by lia.
    apply Z.mul_lt_mono_pos_r; [apply Z.pow_pos_nonneg; lia|exact Hm].
Qed.

(** Sums, differences, products and quotients. *)
Lemma add_below (K : Z) (x y : spec_float) :
  -1074 <= K <= 1021 ->
  finiteBelow K x -> finiteBelow K y -> finiteBelow (K + 2) (SFadd 53 1024 x y).
Proof.
  intros HK Hx Hy.
  destruct x as [sx|sx| |sx mx ex]; try contradiction;
    destruct y as [sy|sy| |sy my ey]; try contradiction.
  - destruct sx, sy; exact I.
  - exact (finiteBelow_mono K (K + 2) _ ltac:(lia) Hy).
  - exact (finiteBelow_mono K (K + 2) _ ltac:(lia) Hx).
  - destruct Hx as [Hmx Hex], Hy as [Hmy Hey]. unfold SFadd.
    set (ez := Z.min ex ey).
    pose proof (aligned_below mx ex ez K Hmx ltac:(lia)) as Hax.
    pose proof (aligned_below my ey ez K Hmy ltac:(lia)) as Hay.
    replace (K + 2) with (K + 1 + 1) by lia.
    apply normalize_below; [|lia|lia].
    pose proof (pow_pos_exp _ _ (Pos2Z.is_pos _) Hax) as HKe.
    replace (K + 1 - ez) with (K - ez + 1) by lia.
    rewrite pow_split by lia. change (2 ^ 1) with 2.
    destruct sx, sy; simpl cond_Zopp; lia.
Qed.

Lemma sub_below (K : Z) (x y : spec_float) :
  -1074 <= K <= 1021 ->
  finiteBelow K x -> finiteBelow K y -> finiteBelow (K + 2) (SFsub 53 1024 x y).
Proof.
  intros HK Hx Hy.
  destruct x as [sx|sx| |sx mx ex]; try contradiction;
    destruct y as [sy|sy| |sy my ey]; try contradiction.
  - destruct sx, sy; exact I.
  - exact (finiteBelow_mono K (K + 2) _ ltac:(lia) Hy).
  - exact (finiteBelow_mono K (K + 2) _ ltac:(lia) Hx).
  - destruct Hx as [Hmx Hex], Hy as [Hmy Hey]. unfold SFsub.
    set (ez := Z.min ex ey).
    pose proof (aligned_below mx ex ez K Hmx ltac:(lia)) as Hax.
    pose proof (aligned_below my ey ez K Hmy ltac:(lia)) as Hay.
    replace (K + 2) with (K + 1 + 1) by lia.
    apply normalize_below; [|lia|lia].
    pose proof (pow_pos_exp _ _ (Pos2Z.is_pos _) Hax) as HKe.
    replace (K + 1 - ez) with (K - ez + 1) by lia.
    rewrite pow_split by lia. change (2 ^ 1) with 2.
    destruct sx, sy; simpl cond_Zopp; lia.
Qed.

Lemma mul_below (K1 K2 : Z) (x y : spec_float) :
  -1074 <= K1 + K2 <= 972 ->
  finiteBelow K1 x -> finiteBelow K2 y -> finiteBelow (K1 + K2 + 1) (SFmul 53 1024 x y).
Proof.
  intros HK Hx Hy.
  destruct x as [sx|sx| |sx mx ex]; try contradiction;
    destruct y as [sy|sy| |sy my ey]; try contradiction;
    try exact I.
  destruct Hx as [Hmx Hex], Hy as [Hmy Hey]. unfold SFmul.
  pose proof (pow_pos_exp _ _ (Pos2Z.is_pos _) Hmx) as H1.
  pose proof (pow_pos_exp _ _ (Pos2Z.is_pos _) Hmy) as H2.
  apply round_below; [|lia|lia].
  split; [lia|]. rewrite Pos2Z.inj_mul.
  replace (K1 + K2 - (ex + ey)) with ((K1 - ex) + (K2 - ey)) by lia.
  rewrite pow_split by lia.
  apply Z.mul_lt_mono_nonneg; lia.
Qed.

Lemma div_below (K L : Z) (x y : spec_float) :
  -1074 <= K - L <= 1023 ->
  finiteBelow K x -> atLeast L y -> finiteBelow (K - L + 1) (SFdiv 53 1024 x y).
Proof.
  intros HK Hx Hy.
  destruct x as [sx|sx| |sx mx ex]; try contradiction;
    destruct y as [sy|sy| |sy my ey]; try contradiction;
    try exact I.
  destruct Hx as [Hmx Hex]. simpl in Hy. unfold SFdiv, SFdiv_core_binary.
  set (d1 := Zdigits2 (Zpos mx)). set (d2 := Zdigits2 (Zpos my)).
  set (e' := Z.min (fexp 53 1024 (d1 + ex - (d2 + ey))) (ex - ey)).
  set (s := ex - ey - e').
  pose proof (pow_pos_exp _ _ (Pos2Z.is_pos _) Hmx) as HKx.
  assert (Hd1 : d1 + ex <= K).
  { pose proof (Zdigits2_le (Zpos mx) (K - ex) ltac:(lia)). unfold d1. lia. }
  assert (Hd2 : L < d2 + ey).
  { unfold d2. simpl. destruct (digits2_bounds my) as [_ Hup].
    destruct (Z.lt_ge_cases L (Zpos (digits2_pos my) + ey)) as [|Hge];
      [assumption|exfalso].
    assert (2 ^ Zpos (digits2_pos my) <= 2 ^ (L - ey))
      by (apply Z.pow_le_mono_r; lia).
    lia. }
  assert (Hfe : fexp 53 1024 (d1 + ex - (d2 + ey))
                <= Z.max (K - L - 1 - 53) (-1074))
    by (apply fexp_le; lia).
  assert (Hs : 0 <= s) by (unfold s, e'; lia).
  set (m' := match s with
             | 0 => Zpos mx
             | Zpos _ => Z.shiftl (Zpos mx) s
             | Zneg _ => 0
             end).
  assert (Hm' : m' = Zpos mx * 2 ^ s).
  { unfold m'. destruct s as [|p|p] eqn:Es; [simpl; lia| |lia].
    rewrite Z.shiftl_mul_pow2 by lia. reflexivity. }
  assert (Hq : fst (Z.div_eucl m' (Zpos my)) = m' / Zpos my)
    by reflexivity.
  destruct (Z.div_eucl m' (Zpos my)) as [q r]. simpl in Hq.
  apply round_below; [|unfold e'; lia|lia].
  assert (Hspos : 0 < 2 ^ s) by (apply Z.pow_pos_nonneg; lia).
  split.
  - rewrite Hq. apply Z.div_pos; [|lia]. rewrite Hm'. lia.
  - rewrite Hq. apply Z.div_lt_upper_bound; [lia|].
    rewrite Hm'.
    assert (Hnum : Zpos mx * 2 ^ s < 2 ^ (K - ex + s)).
    { rewrite pow_split by lia.
      apply Z.mul_lt_mono_pos_r; [exact Hspos|exact Hmx]. }
    eapply Z.lt_le_trans; [exact Hnum|].
    assert (He'K : 0 <= K - L - e') by (unfold e'; lia).
    destruct (Z.le_gt_cases 0 (L - ey)) as [Hpos|Hneg].
    + replace (K - ex + s) with ((L - ey) + (K - L - e'))
        by (unfold s; lia).
      rewrite pow_split by lia.
      apply Z.mul_le_mono_nonneg_r; [apply Z.pow_nonneg; lia|exact Hy].
    + assert (2 ^ (K - ex + s) <= 2 ^ (K - L - e'))
        by (apply Z.pow_le_mono_r; unfold s; lia).
      assert (0 < 2 ^ (K - L - e')) by (apply Z.pow_pos_nonneg; lia).
      nia.
Qed.

Lemma finiteBelow_lt_pinf (K : Z) (x : spec_float) :
  finiteBelow K x -> SFltb x (S754_infinity false) = true.
Proof. destruct x as [s|s| |s m e]; simpl; try contradiction; reflexivity. Qed.

Lemma of_Z_below (z K : Z) :
  Z.abs z < 2 ^ K -> -1074 <= K <= 1023 ->
  finiteBelow (K + 1) (binary_normalize 53 1024 z 0 false).
Proof.
  intros Hz HK. apply normalize_below; [|lia|exact HK].
  rewrite Z.sub_0_r. exact Hz.
Qed.

(** A valid double that compares at or above 1/2 in magnitude. *)
Lemma half_le_atLeast (x : spec_float) :
  valid_binary 53 1024 x = true ->
  SFleb (S754_finite false 4503599627370496 (-53)) (SFabs x) = true ->
  atLeast (-1) x.
Proof.
  intros Hv Hle. destruct x as [s|s| |s m e];
    try discriminate; try exact I.
  unfold valid_binary, bounded, canonical_mantissa in Hv.
  apply andb_prop in Hv. destruct Hv as [Hc _].
  apply Z.eqb_eq in Hc. unfold fexp, emin in Hc.
  destruct (digits2_bounds m) as [Hlo _].
  unfold SFleb, SFabs, SFcompare in Hle. unfold atLeast.
  revert Hle. destruct (Z.compare_spec (-53) e) as [He|He|He]; intros Hle.
  - subst e. change (Pos.compare_cont Eq 4503599627370496 m)
      with (4503599627370496 ?= m)%positive in Hle.
    destruct (Pos.compare_spec 4503599627370496 m) as [Hm|Hm|Hm];
      try discriminate.
    + subst m. vm_compute. discriminate.
    + change (2 ^ (-1 - -53)) with 4503599627370496. lia.
  - assert (Hd : Zpos (digits2_pos m) = 53) by lia.
    rewrite Hd in Hlo.
    eapply Z.le_trans; [|exact Hlo].
    apply Z.pow_le_mono_r; lia.
  - discriminate.
Qed.

(** A double whose conversion to [int] is not negative is below 2^31. *)
Lemma div_lt_pow (a b c : Z) : 0 <= a -> 0 < b -> a / b < c -> a < c * b.
Proof.
  intros Ha Hb Hlt.
  pose proof (Z.div_mod a b ltac:(lia)) as Hdm.
  pose proof (Z.mod_pos_bound a b Hb) as Hmod.
  nia.
Qed.

Lemma to_Z_nonneg_below (x : B64.t) : 0 <= B64.to_Z x -> finiteBelow 31 x.
Proof.
  unfold B64.to_Z, INT_MIN, INT_MAX.
  destruct x as [s|s| |s m e]; cbn [B64.trunc];
    try (intros H; exfalso; lia); [intros _; exact I|].
  set (a := match e with
            | Zneg k => Z.shiftr (Zpos m) (Zpos k)
            | _ => Z.shiftl (Zpos m) e
            end).
  cbv zeta.
  destruct ((-2147483648 <=? (if s then - a else a)) &&
            ((if s then - a else a) <=? 2147483647)) eqn:Hr;
    [|intros H; exfalso; lia].
  intros Hz. apply andb_prop in Hr. destruct Hr as [_ Hr].
  apply Z.leb_le in Hr.
  assert (Ha : a < 2 ^ 31).
  { change (2 ^ 31) with 2147483648. destruct s; lia. }
  clear Hz Hr. unfold finiteBelow. destruct e as [|k|k]; unfold a in Ha.
  - rewrite Z.shiftl_mul_pow2 in Ha by lia.
    change (2 ^ 0) with 1 in Ha. split; [|lia].
    rewrite Z.sub_0_r. lia.
  - rewrite Z.shiftl_mul_pow2 in Ha by lia.
    assert (Hk : Zpos k < 31).
    { destruct (Z.lt_ge_cases (Zpos k) 31) as [|Hge]; [assumption|exfalso].
      assert (2 ^ 31 <= 2 ^ Zpos k) by (apply Z.pow_le_mono_r; lia).
      assert (0 < 2 ^ 31) by reflexivity. nia. }
    split; [|lia].
    replace 31 with ((31 - Zpos k) + Zpos k) in Ha by lia.
    rewrite pow_split in Ha by lia.
    assert (0 < 2 ^ Zpos k) by (apply Z.pow_pos_nonneg; lia).
    nia.
  - rewrite Z.shiftr_div_pow2 in Ha by lia. split; [|lia].
    replace (31 - Zneg k) with (31 + Zpos k) by lia.
    rewrite pow_split by lia.
    apply div_lt_pow; [lia|apply Z.pow_pos_nonneg; lia|exact Ha].
Qed.

(** *** The distances of an axis whose ray component is not small *)

Lemma to_Z_range (x : B64.t) : INT_MIN <= B64.to_Z x <= INT_MAX.
Proof.
  unfold B64.to_Z, INT_MIN, INT_MAX.
  destruct (B64.trunc x) as [z|]; [|lia].
  destruct ((-2147483648 <=? z) && (z <=? 2147483647)) eqn:Hr; [|lia].
  apply andb_prop in Hr. destruct Hr as [H1 H2].
  apply Z.leb_le in H1. apply Z.leb_le in H2. lia.
Qed.

Lemma finiteBelow_finite (K : Z) (x : B64.t) :
  finiteBelow K x -> B64.is_finite x = true.
Proof. destruct x; simpl; try contradiction; reflexivity. Qed.

Lemma of_int_below (z : Z) :
  INT_MIN <= z <= INT_MAX -> finiteBelow 33 (of_int (D:=B64.t) z).
Proof.
  intros Hz. apply (of_Z_below z 32); [|lia].
  change (2 ^ 32) with 4294967296. unfold INT_MIN, INT_MAX in Hz. lia.
Qed.

(** The distances to the tile edges, the delta-distance of a component
    of magnitude at least 1/2, and the side distance they give. *)
Lemma offsets_below (p : B64.t) :
  0 <= to_int p ->
  finiteBelow 37 (p - of_int (to_int p))%D /\
  finiteBelow 37 (of_int (to_int p) + of_int 1 - p)%D.
Proof.
  intros Hp.
  assert (Hs : finiteBelow 33 p).
  { apply (finiteBelow_mono 31); [lia|]. apply to_Z_nonneg_below. exact Hp. }
  pose proof (of_int_below (to_int p) (to_Z_range p)) as Hi.
  pose proof (of_int_below 1 ltac:(unfold INT_MIN, INT_MAX; lia)) as H1.
  split.
  - apply (finiteBelow_mono 35); [lia|]. apply (sub_below 33); [lia|exact Hs|exact Hi].
  - apply (sub_below 35); [lia| |apply (finiteBelow_mono 33); [lia|exact Hs]].
    apply (add_below 33); [lia|exact Hi|exact H1].
Qed.

Lemma delta_below (c : B64.t) :
  atLeast (-1) c -> finiteBelow 35 (dabs (of_int 1 / c))%D.
Proof.
  intros Hc. apply finiteBelow_abs.
  apply (div_below 33 (-1)); [lia| |exact Hc].
  apply of_int_below. unfold INT_MIN, INT_MAX. lia.
Qed.

Lemma setup_sideDistX_below (px py rdx rdy : B64.t) :
  0 <= to_int px -> atLeast (-1) rdx ->
  finiteBelow 35 (deltaDistX (ddaSetup px py rdx rdy)) /\
  finiteBelow 73 (sideDistX (start (ddaSetup px py rdx rdy))).
Proof.
  intros Hp Hc. pose proof (delta_below rdx Hc) as Hd.
  destruct (offsets_below px Hp) as [Ho1 Ho2].
  unfold ddaSetup.
  destruct (rdx <? of_int 0)%D, (rdy <? of_int 0)%D;
    cbn [deltaDistX deltaDistY start sideDistX sideDistY];
    (split; [exact Hd|]);
    apply (mul_below 37 35); solve [lia | assumption].
Qed.

Lemma setup_sideDistY_below (px py rdx rdy : B64.t) :
  0 <= to_int py -> atLeast (-1) rdy ->
  finiteBelow 35 (deltaDistY (ddaSetup px py rdx rdy)) /\
  finiteBelow 73 (sideDistY (start (ddaSetup px py rdx rdy))).
Proof.
  intros Hp Hc. pose proof (delta_below rdy Hc) as Hd.
  destruct (offsets_below py Hp) as [Ho1 Ho2].
  unfold ddaSetup.
  destruct (rdx <? of_int 0)%D, (rdy <? of_int 0)%D;
    cbn [deltaDistX deltaDistY start sideDistX sideDistY];
    (split; [exact Hd|]);
    apply (mul_below 37 35); solve [lia | assumption].
Qed.

(** An iteration adds at most one delta-distance to a side distance. *)
Lemma sideDistX_below (r : RaySetup B64.t) (st : DDA B64.t) (n : nat) :
  finiteBelow 35 (deltaDistX r) -> finiteBelow 73 (sideDistX st) ->
  (n <= 470)%nat ->
  finiteBelow (73 + 2 * Z.of_nat n) (sideDistX (ddaState r n st)).
Proof.
  intros Hd Hs. induction n as [|n IH]; intros Hn.
  - exact Hs.
  - specialize (IH ltac:(lia)). rewrite ddaState_succ. unfold ddaAdvance.
    replace (73 + 2 * Z.of_nat (S n)) with (73 + 2 * Z.of_nat n + 2) by lia.
    destruct (sideDistX (ddaState r n st) <? sideDistY (ddaState r n st))%D;
      cbn [fst sideDistX sideDistY].
    + apply add_below; [lia|exact IH|].
      apply (finiteBelow_mono 35); [lia|exact Hd].
    + apply (finiteBelow_mono (73 + 2 * Z.of_nat n)); [lia|exact IH].
Qed.

Lemma sideDistY_below (r : RaySetup B64.t) (st : DDA B64.t) (n : nat) :
  finiteBelow 35 (deltaDistY r) -> finiteBelow 73 (sideDistY st) ->
  (n <= 470)%nat ->
  finiteBelow (73 + 2 * Z.of_nat n) (sideDistY (ddaState r n st)).
Proof.
  intros Hd Hs. induction n as [|n IH]; intros Hn.
  - exact Hs.
  - specialize (IH ltac:(lia)). rewrite ddaState_succ. unfold ddaAdvance.
    replace (73 + 2 * Z.of_nat (S n)) with (73 + 2 * Z.of_nat n + 2) by lia.
    destruct (sideDistX (ddaState r n st) <? sideDistY (ddaState r n st))%D;
      cbn [fst sideDistX sideDistY].
    + apply (finiteBelow_mono (73 + 2 * Z.of_nat n)); [lia|exact IH].
    + apply add_below; [lia|exact IH|].
      apply (finiteBelow_mono 35); [lia|exact Hd].
Qed.

(** With the y side distance at +inf and a finite x side distance the
    loop only ever advances x. *)
Lemma y_never_advanced (r : RaySetup B64.t) (st : DDA B64.t) (n : nat) :
  finiteBelow 35 (deltaDistX r) -> finiteBelow 73 (sideDistX st) ->
  sideDistY st = B64.pinf ->
  (n <= 470)%nat ->
  sideDistY (ddaState r n st) = B64.pinf /\
  mapY (ddaState r n st) = mapY st /\
  snd (ddaAdvance r (ddaState r n st)) = 0.
Proof.
  intros Hd Hs Hinf.
  assert (Hstep : forall k, (k <= 470)%nat ->
            sideDistY (ddaState r k st) = B64.pinf ->
            (sideDistX (ddaState r k st) <? sideDistY (ddaState r k st))%D
            = true).
  { intros k Hk Hy. rewrite Hy.
    apply (finiteBelow_lt_pinf _ _ (sideDistX_below r st k Hd Hs Hk)). }
  induction n as [|n IH]; intros Hn.
  - split; [exact Hinf|]. split; [reflexivity|].
    pose proof (Hstep 0%nat Hn Hinf) as H0.
    change (ddaState r 0 st) with st in H0 |- *.
    unfold ddaAdvance. rewrite H0. reflexivity.
  - destruct (IH ltac:(lia)) as (Hy & Hm & _).
    assert (Hst : sideDistY (ddaState r (S n) st) = B64.pinf /\
                  mapY (ddaState r (S n) st) = mapY st).
    { rewrite ddaState_succ. unfold ddaAdvance.
      rewrite (Hstep n ltac:(lia) Hy). cbn [fst sideDistY mapY]. auto. }
    destruct Hst as [Hy' Hm']. split; [exact Hy'|]. split; [exact Hm'|].
    unfold ddaAdvance. rewrite (Hstep (S n) Hn Hy'). reflexivity.
Qed.

Lemma lit_half :
  lit (D:=B64.t) 1 2 = S754_finite false 4503599627370496 (-53).
Proof. vm_compute. reflexivity. Qed.

(** The quotient of [perpWallDist]. *)
Lemma perp_below (p c : B64.t) (m k : Z) :
  0 <= to_int p -> INT_MIN <= m <= INT_MAX -> INT_MIN <= k <= INT_MAX ->
  atLeast (-1) c ->
  finiteBelow 39 ((of_int m - p + of_int k) / c)%D.
Proof.
  intros Hp Hm Hk Hc.
  assert (Hs : finiteBelow 33 p).
  { apply (finiteBelow_mono 31); [lia|]. apply to_Z_nonneg_below. exact Hp. }
  apply (div_below 37 (-1)); [lia| |exact Hc].
  apply (add_below 35); [lia| |].
  - apply (sub_below 33); [lia|apply of_int_below; exact Hm|exact Hs].
  - apply (finiteBelow_mono 33); [lia|apply of_int_below; exact Hk].
Qed.

Section HitCell.

Context {D : Type} `{DoubleOps D}.

(** The hit of the step loop lies inside the grid. *)
Lemma dda_hits_cell (g : Grid) (px py rdx rdy : D) :
  sealedGrid g = true ->
  cellAt g (to_int px) (to_int py) = Some 0 ->
  exists st side steps c,
    Z.of_nat steps <= gridWidth g + gridHeight g /\
    (forall fuel, (steps <= fuel)%nat ->
       ddaLoop g (ddaSetup px py rdx rdy) fuel 0
               (start (ddaSetup px py rdx rdy)) = Hit st side steps) /\
    cellAt g (mapX st) (mapY st) = Some c.
Proof.
  intros Hs Hstart.
  destruct (ddaSetup_steps px py rdx rdy) as (HsX & HsY & HmX & HmY).
  set (r := ddaSetup px py rdx rdy) in *.
  destruct (empty_cell_interior g _ _ 0 Hs Hstart ltac:(lia)) as [Hx Hy].
  rewrite <- HmX in Hx. rewrite <- HmY in Hy.
  pose proof (remaining_bounds _ _ _ HsX Hx) as HbX.
  pose proof (remaining_bounds _ _ _ HsY Hy) as HbY.
  destruct (ddaLoop_hits g r Hs HsX HsY
              (Z.to_nat (gridWidth g + gridHeight g)) 0 (start r) Hx Hy)
    as (st & side & n & c & Hrun & Hn & Hc & Hpos); [lia|].
  exists st, side, n, c. repeat split; auto; try lia.
  intros fuel Hfuel. eapply ddaLoop_fuel; [exact Hrun|lia].
Qed.

Lemma ddaSetup_rays (px py rdx rdy : D) :
  rayDirX (ddaSetup px py rdx rdy) = rdx /\
  rayDirY (ddaSetup px py rdx rdy) = rdy.
Proof.
  unfold ddaSetup.
  destruct (rdx <? of_int 0)%D, (rdy <? of_int 0)%D; split; reflexivity.
Qed.

End HitCell.

Lemma step_offset_range (step : Z) :
  step = 1 \/ step = -1 -> INT_MIN <= Z.quot (1 - step) 2 <= INT_MAX.
Proof. intros [-> | ->]; vm_compute; split; discriminate. Qed.

(** C2. The DDA setup divides by the ray component without a test; in
    binary64 the quotient by an exactly zero component (+0 or -0) is an
    infinity, and the step loop never chooses that axis.  For a player in
    an empty tile of a sealed grid of at most 400 rows plus columns (the
    distances [mapX + 1.0 - posX] and [mapY + 1.0 - posY] to the far tile
    edges are positive), and a ray with one component exactly zero and
    the other a double of magnitude at least 1/2 (every ray of the
    renderer with a zero component is such a ray: it is the unit
    direction plus a multiple of the perpendicular camera plane, so its
    length is at least 1):
    - the delta-distance and the side distance of the zero axis are +inf
      and those of the other axis are finite, at every iteration: no
      distance is NaN;
    - every iteration advances the other axis, and the map coordinate of
      the zero axis never changes;
    - the step loop terminates within [gridWidth + gridHeight]
      iterations, on a side of the other axis, and the perpendicular wall
      distance computed from the hit is finite. *)
Theorem dda_zero_component (g : Grid) (px py other : B64.t) (s : bool) :
  sealedGrid g = true ->
  gridWidth g + gridHeight g <= 400 ->
  cellAt g (to_int px) (to_int py) = Some 0 ->
  (of_int 0 <? of_int (to_int px) + of_int 1 - px)%D = true ->
  (of_int 0 <? of_int (to_int py) + of_int 1 - py)%D = true ->
  valid_binary B64.prec B64.emax other = true ->
  (lit 1 2 <=? dabs other)%D = true ->
  let rX := ddaSetup px py (S754_zero s) other in
  let rY := ddaSetup px py other (S754_zero s) in
  (deltaDistX rX = B64.pinf /\
   B64.is_finite (deltaDistY rX) = true /\
   (forall n,
      sideDistX (ddaState rX n (start rX)) = B64.pinf /\
      mapX (ddaState rX n (start rX)) = to_int px /\
      snd (ddaAdvance rX (ddaState rX n (start rX))) = 1) /\
   (forall n, (n <= 400)%nat ->
      B64.is_finite (sideDistY (ddaState rX n (start rX))) = true) /\
   exists st steps,
     Z.of_nat steps <= gridWidth g + gridHeight g /\
     mapX st = to_int px /\
     B64.is_finite (perpWallDist px py rX st 1) = true /\
     forall fuel, (steps <= fuel)%nat ->
       ddaLoop g rX fuel 0 (start rX) = Hit st 1 steps) /\
  (deltaDistY rY = B64.pinf /\
   B64.is_finite (deltaDistX rY) = true /\
   (forall n, (n <= 400)%nat ->
      sideDistY (ddaState rY n (start rY)) = B64.pinf /\
      B64.is_finite (sideDistX (ddaState rY n (start rY))) = true /\
      mapY (ddaState rY n (start rY)) = to_int py /\
      snd (ddaAdvance rY (ddaState rY n (start rY))) = 0) /\
   exists st steps,
     Z.of_nat steps <= gridWidth g + gridHeight g /\
     mapY st = to_int py /\
     B64.is_finite (perpWallDist px py rY st 0) = true /\
     forall fuel, (steps <= fuel)%nat ->
       ddaLoop g rY fuel 0 (start rY) = Hit st 0 steps).
Proof.
  intros Hs Hsize Hstart Hox Hoy Hvalid Hhalf rX rY.
  rewrite lit_half in Hhalf.
  pose proof (half_le_atLeast other Hvalid Hhalf) as Hbig.
  destruct (cellAt_Some_range g _ _ _ Hs Hstart) as [Hpx Hpy].
  destruct (ZeroComponent.setup_x px py other s) as (HdX & _ & HmX & HsX).
  destruct (ZeroComponent.setup_y px py other s) as (HdY & _ & HmY & HsY).
  fold rX in HdX, HmX, HsX. fold rY in HdY, HmY, HsY.
  rewrite (ZeroComponent.mul_pinf_positive _ Hox) in HsX.
  rewrite (ZeroComponent.mul_pinf_positive _ Hoy) in HsY.
  destruct (setup_sideDistY_below px py (S754_zero s) other
              ltac:(lia) Hbig) as [HfdY HfsY].
  destruct (setup_sideDistX_below px py other (S754_zero s)
              ltac:(lia) Hbig) as [HfdX HfsX].
  fold rX in HfdY, HfsY. fold rY in HfdX, HfsX.
  split.
  - split; [exact HdX|]. split; [exact (finiteBelow_finite _ _ HfdY)|].
    split; [|split].
    + intros n.
      destruct (ZeroComponent.x_never_advanced rX (start rX) n HsX)
        as (H1 & H2 & H3).
      rewrite H2, HmX. auto.
    + intros n Hn.
      exact (finiteBelow_finite _ _
               (sideDistY_below rX (start rX) n HfdY HfsY ltac:(lia))).
    + destruct (dda_hits_cell g px py (S754_zero s) other Hs Hstart)
        as (st & side & steps & c & Hn & Hrun & Hc).
      fold rX in Hrun.
      destruct (ddaLoop_state g rX steps 0 (start rX) st side steps
                  (Hrun steps (le_n steps))) as (k & _ & Hst & Hside).
      destruct (ZeroComponent.x_never_advanced rX (start rX) k HsX)
        as (_ & _ & Hk).
      destruct (ZeroComponent.x_never_advanced rX (start rX) (S k) HsX)
        as (_ & Hm & _).
      destruct (cellAt_Some_range g _ _ _ Hs Hc) as [_ HstY].
      destruct (ddaSetup_steps px py (S754_zero s) other)
        as (_ & HstepY & _).
      fold rX in HstepY.
      exists st, steps. split; [exact Hn|]. split; [|split].
      * rewrite Hst, Hm. exact HmX.
      * unfold perpWallDist. change (1 =? 0) with false. cbv iota.
        apply (finiteBelow_finite 39).
        apply perp_below;
          [lia|unfold INT_MIN, INT_MAX; lia|
           apply step_offset_range; exact HstepY|].
        unfold rX. rewrite (proj2 (ddaSetup_rays _ _ _ _)). exact Hbig.
      * rewrite <- Hk, <- Hside. exact Hrun.
  - split; [exact HdY|]. split; [exact (finiteBelow_finite _ _ HfdX)|].
    split.
    + intros n Hn.
      destruct (y_never_advanced rY (start rY) n HfdX HfsX HsY ltac:(lia))
        as (H1 & H2 & H3).
      split; [exact H1|]. split; [|split; [rewrite H2; exact HmY|exact H3]].
      exact (finiteBelow_finite _ _
               (sideDistX_below rY (start rY) n HfdX HfsX ltac:(lia))).
    + destruct (dda_hits_cell g px py other (S754_zero s) Hs Hstart)
        as (st & side & steps & c & Hn & Hrun & Hc).
      fold rY in Hrun.
      destruct (ddaLoop_state g rY steps 0 (start rY) st side steps
                  (Hrun steps (le_n steps))) as (k & Hsteps & Hst & Hside).
      assert (Hk400 : (S k <= 400)%nat) by lia.
      destruct (y_never_advanced rY (start rY) k HfdX HfsX HsY ltac:(lia))
        as (_ & _ & Hk).
      destruct (y_never_advanced rY (start rY) (S k) HfdX HfsX HsY
                  ltac:(lia)) as (_ & Hm & _).
      destruct (cellAt_Some_range g _ _ _ Hs Hc) as [HstX _].
      destruct (ddaSetup_steps px py other (S754_zero s))
        as (HstepX & _).
      fold rY in HstepX.
      exists st, steps. split; [exact Hn|]. split; [|split].
      * rewrite Hst, Hm. exact HmY.
      * unfold perpWallDist. change (0 =? 0) with true. cbv iota.
        apply (finiteBelow_finite 39).
        apply perp_below;
          [lia|unfold INT_MIN, INT_MAX; lia|
           apply step_offset_range; exact HstepX|].
        unfold rY. rewrite (proj1 (ddaSetup_rays _ _ _ _)). exact Hbig.
      * rewrite <- Hk, <- Hside. exact Hrun.
Qed.

Lemma dda_zero_component_witness :
  let px := of_int (D:=B64.t) 22 in
  let py := of_int (D:=B64.t) 12 in
  let rX := ddaSetup px py (S754_zero false) (dopp (of_int 1)) in
  let rY := ddaSetup px py (dopp (of_int 1)) (S754_zero false) in
  (deltaDistX rX = B64.pinf /\
   B64.is_finite (deltaDistY rX) = true /\
   (forall n,
      sideDistX (ddaState rX n (start rX)) = B64.pinf /\
      mapX (ddaState rX n (start rX)) = to_int px /\
      snd (ddaAdvance rX (ddaState rX n (start rX))) = 1) /\
   (forall n, (n <= 400)%nat ->
      B64.is_finite (sideDistY (ddaState rX n (start rX))) = true) /\
   exists st steps,
     Z.of_nat steps <= gridWidth worldMap + gridHeight worldMap /\
     mapX st = to_int px /\
     B64.is_finite (perpWallDist px py rX st 1) = true /\
     forall fuel, (steps <= fuel)%nat ->
       ddaLoop worldMap rX fuel 0 (start rX) = Hit st 1 steps) /\
  (deltaDistY rY = B64.pinf /\
   B64.is_finite (deltaDistX rY) = true /\
   (forall n, (n <= 400)%nat ->
      sideDistY (ddaState rY n (start rY)) = B64.pinf /\
      B64.is_finite (sideDistX (ddaState rY n (start rY))) = true /\
      mapY (ddaState rY n (start rY)) = to_int py /\
      snd (ddaAdvance rY (ddaState rY n (start rY))) = 0) /\
   exists st steps,
     Z.of_nat steps <= gridWidth worldMap + gridHeight worldMap /\
     mapY st = to_int py /\
     B64.is_finite (perpWallDist px py rY st 0) = true /\
     forall fuel, (steps <= fuel)%nat ->
       ddaLoop worldMap rY fuel 0 (start rY) = Hit st 0 steps).
Proof.
  apply (dda_zero_component worldMap (of_int 22) (of_int 12)
                            (dopp (of_int 1)) false);
    vm_compute; solve [reflexivity | discriminate].
Defined.

(** The renderer meets the case at the pose the game starts from: the
    ray of the centre screen column is (-1, +0), and it stops after 22 x
    steps on the border tile (0, 12), at the perpendicular distance 21. *)
Lemma initial_centre_ray :
  rayDir (D:=B64.t) initialPlayer Scenario.centerColumn
  = (dopp (of_int 1), S754_zero false) /\
  castRay (D:=B64.t) worldMap initialPlayer Scenario.centerColumn 48
  = Cast {| hitX := 0; hitY := 12; hitSide := 0;
            hitDist := of_int 21; hitSteps := 22 |}.
Proof. split; vm_compute; reflexivity. Qed.

(** ** Jump physics *)

Lemma iterate_succ {A : Type} (n : nat) (f : A -> A) (a : A) :
  iterate (S n) f a = f (iterate n f a).
Proof.
  revert a. induction n as [|n IH]; intros a; [reflexivity|].
  change (iterate (S (S n)) f a) with (iterate (S n) f (f a)).
  rewrite IH. reflexivity.
Qed.

Lemma iterate_fixed {A : Type} (n : nat) (f : A -> A) (a : A) :
  f a = a -> iterate n f a = a.
Proof.
  intros Hf. induction n as [|n IH]; [reflexivity|].
  simpl. rewrite Hf. exact IH.
Qed.

Section JumpFacts.

Context {D : Type} `{DoubleOps D}.
Variables impulse gravity ground : D.

Lemma jumpArc_succ (n : nat) (p : Player D) :
  jumpArc impulse gravity ground (S n) p =
  updateJump gravity ground (jumpArc impulse gravity ground n p).
Proof. unfold jumpArc. apply iterate_succ. Qed.

(** Without a jump in progress the integration step does nothing. *)
Lemma updateJump_not_jumping (p : Player D) :
  isJumping p = false -> updateJump gravity ground p = p.
Proof. intros Hj. unfold updateJump. rewrite Hj. reflexivity. Qed.

(** A step either keeps the player airborne or grounds it exactly. *)
Lemma updateJump_lands (p : Player D) :
  isJumping p = true ->
  isJumping (updateJump gravity ground p) = true \/
  grounded ground (updateJump gravity ground p).
Proof.
  intros Hj. unfold updateJump. rewrite Hj.
  destruct (cameraHeight p + verticalVelocity p <=? ground)%D.
  - right. repeat split.
  - left. reflexivity.
Qed.

Lemma jumpArc_airborne_or_grounded (n : nat) (p : Player D) :
  grounded ground p ->
  isJumping (jumpArc impulse gravity ground n p) = true \/
  grounded ground (jumpArc impulse gravity ground n p).
Proof.
  intros (Hj & Hh & Hv). induction n as [|n IH].
  - left. unfold jumpArc, jumpTrigger. simpl. rewrite Hj. reflexivity.
  - rewrite jumpArc_succ. destruct IH as [IH | IH].
    + apply updateJump_lands. exact IH.
    + right. rewrite updateJump_not_jumping; [exact IH|apply IH].
Qed.

End JumpFacts.

(** The code's constants, in binary64: a jump from the initial pose is
    airborne for 30 frames and over at the 31st. *)
Lemma jump_arc_binary64 :
  forallb (fun n => isJumping (jumpArc (D:=B64.t) JUMP_SPEED GRAVITY
                                       GROUND_HEIGHT n initialPlayer))
          (seq 0 31) = true /\
  jumpArc (D:=B64.t) JUMP_SPEED GRAVITY GROUND_HEIGHT 31 initialPlayer
  = initialPlayer.
Proof. split; vm_compute; reflexivity. Qed.

(** C5. The jump integrator lands exactly.  Whatever the impulse, the
    gravity and the ground height, and in any arithmetic: once a jump
    started from the ground is over (the player is no longer airborne
    after some number of integration steps), the player is at exactly the
    ground height with exactly zero vertical velocity, and any number of
    further integration steps without a new trigger leave the state
    unchanged.  With the code's constants (impulse 0.15, gravity 0.01,
    ground 0) in binary64, a jump from the initial state is airborne for
    30 steps and over at the 31st, which gives back the initial state
    bit for bit. *)
Theorem jump_arc_grounding :
  (forall (D : Type) (ops : DoubleOps D) (impulse gravity ground : D)
          (p : Player D) (n m : nat),
      grounded ground p ->
      isJumping (jumpArc impulse gravity ground n p) = false ->
      grounded ground (jumpArc impulse gravity ground n p) /\
      iterate m (updateJump gravity ground)
              (jumpArc impulse gravity ground n p)
      = jumpArc impulse gravity ground n p) /\
  (forallb (fun n => isJumping (jumpArc (D:=B64.t) JUMP_SPEED GRAVITY
                                        GROUND_HEIGHT n initialPlayer))
           (seq 0 31) = true /\
   jumpArc (D:=B64.t) JUMP_SPEED GRAVITY GROUND_HEIGHT 31 initialPlayer
   = initialPlayer).
Proof.
  split.
  - intros D ops impulse gravity ground p n m Hg Hland.
    destruct (jumpArc_airborne_or_grounded impulse gravity ground n p Hg)
      as [Hair | Hgr]; [congruence|].
    split; [exact Hgr|].
    apply iterate_fixed. apply updateJump_not_jumping. exact Hland.
  - exact jump_arc_binary64.
Qed.

Lemma jump_arc_grounding_witness :
  grounded GROUND_HEIGHT
    (jumpArc (D:=B64.t) JUMP_SPEED GRAVITY GROUND_HEIGHT 31 initialPlayer) /\
  iterate 7 (updateJump GRAVITY GROUND_HEIGHT)
    (jumpArc (D:=B64.t) JUMP_SPEED GRAVITY GROUND_HEIGHT 31 initialPlayer)
  = jumpArc JUMP_SPEED GRAVITY GROUND_HEIGHT 31 initialPlayer.
Proof.
  destruct jump_arc_grounding as (Hland & _).
  apply (Hland B64.t binary64 JUMP_SPEED GRAVITY GROUND_HEIGHT
               initialPlayer 31%nat 7%nat).
  - repeat split.
  - vm_compute. reflexivity.
Defined.

(** ** Rotation

    [rotate] evaluates the rotation matrix in binary64, with the rounded
    cosine and sine of libm: the magnitudes of the direction and of the
    camera plane and their dot product are kept up to rounding only.
    One left turn from the initial pose already leaves a direction and a
    plane whose dot product is not zero, and a right turn after it does
    not give back the initial pose. *)
Lemma rotation_rounds :
  let p := turnLeft (initialPlayer (D:=B64.t)) in
  (dirX p * planeX p + dirY p * planeY p)%D
  = S754_finite true 4503599627370496 (-110) /\
  planeX (turnRight p) = S754_finite false 4503599627370496 (-110) /\
  planeX (initialPlayer (D:=B64.t)) = S754_zero false.
Proof. repeat split; vm_compute; reflexivity. Qed.


(** * Further properties of the engine *)

(** ** Application state machine *)

Lemma scancode_eqb_eq (a b : Scancode) : scancode_eqb a b = true <-> a = b.
Proof.
  split.
  - destruct a, b; simpl; try discriminate; try reflexivity.
    intros Hc. apply Z.eqb_eq in Hc. subst. reflexivity.
  - intros <-. destruct a; simpl; try reflexivity. apply Z.eqb_refl.
Qed.

Section StateMachine.

Context {D : Type} `{DoubleOps D} `{LibmOps D}.

Lemma handleMenuEvents_invariant (e : Event) (s : Game D) :
  menuInvariant s -> menuInvariant (handleMenuEvents e s).
Proof.
  unfold menuInvariant, MENU_ITEM_COUNT. intros [Hst Hsel].
  destruct e as [|sc|sc|]; try (split; assumption).
  destruct sc; simpl; try (split; assumption).
  - split; [assumption|]. unfold MENU_ITEM_COUNT.
    assert (Hc : selectedMenuItem s = 0 \/ selectedMenuItem s = 1) by lia.
    destruct Hc as [-> | ->]; vm_compute; split; congruence.
  - split; [assumption|]. unfold MENU_ITEM_COUNT.
    assert (Hc : selectedMenuItem s = 0 \/ selectedMenuItem s = 1) by lia.
    destruct Hc as [-> | ->]; vm_compute; split; congruence.
  - destruct (selectedMenuItem s =? MENU_NEW_GAME); simpl.
    + split; [discriminate|assumption].
    + destruct (selectedMenuItem s =? MENU_EXIT); simpl; split; assumption.
  - destruct (selectedMenuItem s =? MENU_NEW_GAME); simpl.
    + split; [discriminate|assumption].
    + destruct (selectedMenuItem s =? MENU_EXIT); simpl; split; assumption.
Qed.

Lemma handleGameEvents_invariant (sound : bool) (now : Z) (e : Event)
      (s : Game D) :
  menuInvariant s -> menuInvariant (handleGameEvents sound now e s).
Proof.
  unfold menuInvariant, MENU_ITEM_COUNT. intros [Hst Hsel].
  destruct e as [|sc|sc|]; try (split; assumption).
  unfold handleGameEvents.
  destruct (scancode_eqb sc SC_ESCAPE).
  - simpl. split; [discriminate|]. unfold MENU_NEW_GAME. lia.
  - repeat match goal with
           | |- context [if ?b then _ else _] => destruct b
           end; simpl; split; assumption.
Qed.

Lemma dispatchEvent_invariant (sound : bool) (te : Z * Event) (s : Game D) :
  menuInvariant s -> menuInvariant (dispatchEvent sound te s).
Proof.
  intros Hinv. destruct te as [now e]. unfold dispatchEvent.
  assert (Hq : menuInvariant
                 (match e with SDL_QUIT => setRunning s false | _ => s end))
    by (destruct e; exact Hinv).
  destruct (currentState
              (match e with SDL_QUIT => setRunning s false | _ => s end)).
  - apply handleMenuEvents_invariant. exact Hq.
  - apply handleGameEvents_invariant. exact Hq.
  - exact Hq.
Qed.

Lemma dispatchEvents_invariant (sound : bool) (events : list (Z * Event))
      (s : Game D) :
  menuInvariant s ->
  menuInvariant (fold_left (fun s te => dispatchEvent sound te s) events s).
Proof.
  revert s. induction events as [|te events IH]; intros s Hinv; simpl.
  - exact Hinv.
  - apply IH. apply dispatchEvent_invariant. exact Hinv.
Qed.

Lemma handleEvents_invariant (g : Grid) (sound : bool)
      (events : list (Z * Event)) (now : Z) (s s' : Game D) :
  menuInvariant s ->
  handleEvents g sound events now s = Some s' ->
  menuInvariant s'.
Proof.
  intros Hinv. unfold handleEvents.
  pose proof (dispatchEvents_invariant sound events s Hinv) as Hd.
  set (s1 := fold_left (fun s te => dispatchEvent sound te s) events s) in *.
  destruct (currentState s1) eqn:Hst.
  - intros Heq. injection Heq as <-. exact Hd.
  - unfold bind. destruct (updatePlayer g (keys s1) (player s1)) as [p|];
      [|discriminate].
    intros Heq. injection Heq as <-. exact Hd.
  - intros Heq. injection Heq as <-. exact Hd.
Qed.

(** A property kept by every frame is kept by every run of frames. *)
Lemma runFrames_ind (P : Game D -> Prop) (g : Grid) (sound : bool) :
  (forall events now s s',
      P s -> handleEvents g sound events now s = Some s' -> P s') ->
  forall frames s s',
    P s -> runFrames g sound frames s = Some s' -> P s'.
Proof.
  intros Hstep frames. unfold runFrames.
  induction frames as [|f frames IH]; intros s s' HP; simpl.
  - intros Heq. injection Heq as <-. exact HP.
  - destruct (handleEvents g sound (frameEvents f) (frameTicks f) s)
      as [s1|] eqn:Hf.
    + apply IH. eapply Hstep; eauto.
    + intros Hnone. exfalso. clear -Hnone.
      induction frames as [|f' frames IH']; simpl in Hnone;
        [discriminate|auto].
Qed.

(** X1. Whatever events arrive in whatever frames, the application that
    the constructor builds is never in [STATE_EXIT] (the enumerator is
    unused) and its menu selection stays one of the [MENU_ITEM_COUNT]
    items. *)
Theorem state_never_exit (g : Grid) (sound : bool) (ticks : Z)
        (frames : list Frame) (s' : Game D) :
  runFrames g sound frames (initialGame ticks) = Some s' ->
  currentState s' <> STATE_EXIT /\
  0 <= selectedMenuItem s' < MENU_ITEM_COUNT.
Proof.
  apply (runFrames_ind menuInvariant g sound).
  - intros events now s s1 Hinv Hrun.
    eapply handleEvents_invariant; eauto.
  - split; [discriminate|]. simpl. unfold MENU_NEW_GAME, MENU_ITEM_COUNT. lia.
Qed.

Lemma dispatchEvent_running (sound : bool) (te : Z * Event) (s : Game D) :
  running s = false -> running (dispatchEvent sound te s) = false.
Proof.
  intros Hr. destruct te as [now e]. unfold dispatchEvent.
  assert (Hq : running
                 (match e with SDL_QUIT => setRunning s false | _ => s end)
               = false) by (destruct e; auto).
  set (s1 := match e with SDL_QUIT => setRunning s false | _ => s end) in *.
  destruct (currentState s1); [| |exact Hq].
  - destruct e as [|sc|sc|]; try exact Hq.
    destruct sc; simpl; try exact Hq;
      repeat match goal with
             | |- context [if ?b then _ else _] => destruct b
             end; simpl; auto.
  - destruct e as [|sc|sc|]; try exact Hq. unfold handleGameEvents.
    repeat match goal with
           | |- context [if ?b then _ else _] => destruct b
           end; simpl; auto.
Qed.

(** X2. No handler sets [running] back to true: once the application has
    been told to quit, it stays so through every later frame. *)
Theorem running_never_resumes (g : Grid) (sound : bool)
        (frames : list Frame) (s s' : Game D) :
  running s = false ->
  runFrames g sound frames s = Some s' ->
  running s' = false.
Proof.
  apply (runFrames_ind (fun s => running s = false) g sound).
  intros events now s0 s1 Hr. unfold handleEvents.
  assert (Hd : running
                 (fold_left (fun s te => dispatchEvent sound te s) events s0)
               = false).
  { clear -Hr. revert s0 Hr. induction events as [|te events IH];
      intros s0 Hr; simpl; [exact Hr|].
    apply IH. apply dispatchEvent_running. exact Hr. }
  set (s2 := fold_left (fun s te => dispatchEvent sound te s) events s0) in *.
  destruct (currentState s2).
  - intros Heq. injection Heq as <-. exact Hd.
  - unfold bind. destruct (updatePlayer g (keys s2) (player s2)) as [p|];
      [|discriminate].
    intros Heq. injection Heq as <-. exact Hd.
  - intros Heq. injection Heq as <-. exact Hd.
Qed.

(** X3. The two transitions of the state machine.  An event takes the
    application from the menu into the game only if it is a SPACE or
    RETURN key-down with "new game" selected, and the player then has the
    initial pose while the gun is as it was; an event takes it from the
    game to the menu only if it is an ESCAPE key-down, which selects
    "new game" and leaves the player and the gun as they were. *)
Theorem state_transitions (sound : bool) (now : Z) (e : Event) (s : Game D) :
  let s' := dispatchEvent sound (now, e) s in
  (currentState s = STATE_MENU -> currentState s' = STATE_PLAYING ->
   (e = SDL_KEYDOWN SC_SPACE \/ e = SDL_KEYDOWN SC_RETURN) /\
   selectedMenuItem s = MENU_NEW_GAME /\
   player s' = initialPlayer /\ gun s' = gun s) /\
  (currentState s = STATE_PLAYING -> currentState s' = STATE_MENU ->
   e = SDL_KEYDOWN SC_ESCAPE /\
   selectedMenuItem s' = MENU_NEW_GAME /\
   player s' = player s /\ gun s' = gun s).
Proof.
  intros s'. subst s'. unfold dispatchEvent. split.
  - intros Hm.
    assert (Hq : currentState
                   (match e with SDL_QUIT => setRunning s false | _ => s end)
                 = STATE_MENU) by (destruct e; exact Hm).
    rewrite Hq.
    destruct e as [|sc|sc|]; simpl; try congruence.
    destruct sc; simpl; try congruence.
    + destruct (selectedMenuItem s =? MENU_NEW_GAME) eqn:Hsel.
      * intros _. apply Z.eqb_eq in Hsel. auto.
      * destruct (selectedMenuItem s =? MENU_EXIT); simpl; congruence.
    + destruct (selectedMenuItem s =? MENU_NEW_GAME) eqn:Hsel.
      * intros _. apply Z.eqb_eq in Hsel. auto.
      * destruct (selectedMenuItem s =? MENU_EXIT); simpl; congruence.
  - intros Hp.
    assert (Hq : currentState
                   (match e with SDL_QUIT => setRunning s false | _ => s end)
                 = STATE_PLAYING) by (destruct e; exact Hp).
    rewrite Hq.
    destruct e as [|sc|sc|]; simpl; try congruence.
    destruct (scancode_eqb sc SC_ESCAPE) eqn:Hesc.
    + apply scancode_eqb_eq in Hesc. subst sc. intros _. simpl. auto.
    + repeat match goal with
             | |- context [if ?b then _ else _] => destruct b
             end; simpl; congruence.
Qed.

End StateMachine.

Lemma state_never_exit_witness :
  exists s',
    runFrames (D:=B64.t) worldMap true Frames.menuTour (initialGame 0) = Some s' /\
    currentState s' <> STATE_EXIT /\
    0 <= selectedMenuItem s' < MENU_ITEM_COUNT.
Proof.
  eexists. split; [reflexivity|].
  apply (state_never_exit (D:=B64.t) worldMap true 0 Frames.menuTour).
  reflexivity.
Defined.

Lemma running_never_resumes_witness :
  exists s',
    runFrames (D:=B64.t) worldMap true Frames.menuTour
              (setRunning (initialGame 0) false) = Some s' /\
    running s' = false.
Proof.
  eexists. split; [reflexivity|].
  apply (running_never_resumes (D:=B64.t) worldMap true Frames.menuTour
           (setRunning (initialGame 0) false)); reflexivity.
Defined.

Lemma state_transitions_witness :
  (let s' := dispatchEvent (D:=B64.t) true (7, SDL_KEYDOWN SC_RETURN)
                           (initialGame 0) in
   (SDL_KEYDOWN SC_RETURN = SDL_KEYDOWN SC_SPACE \/
    SDL_KEYDOWN SC_RETURN = SDL_KEYDOWN SC_RETURN) /\
   selectedMenuItem (initialGame (D:=B64.t) 0) = MENU_NEW_GAME /\
   player s' = initialPlayer /\ gun s' = gun (initialGame (D:=B64.t) 0)) /\
  (let s := startNewGame (initialGame (D:=B64.t) 0) in
   let s' := dispatchEvent true (9, SDL_KEYDOWN SC_ESCAPE) s in
   SDL_KEYDOWN SC_ESCAPE = SDL_KEYDOWN SC_ESCAPE /\
   selectedMenuItem s' = MENU_NEW_GAME /\
   player s' = player s /\ gun s' = gun s).
Proof.
  split.
  - apply (proj1 (state_transitions (D:=B64.t) true 7
                    (SDL_KEYDOWN SC_RETURN) (initialGame 0)));
      reflexivity.
  - apply (proj2 (state_transitions (D:=B64.t) true 9
                    (SDL_KEYDOWN SC_ESCAPE)
                    (startNewGame (initialGame 0))));
      reflexivity.
Defined.

(** ** Input tracking *)

(** X4. Held keys are tracked only while playing: there a key-down sets
    and a key-up clears exactly the entry of its scancode (ESCAPE
    included, which also leaves to the menu); in the menu no event changes
    [keys], so a key released while the menu is shown stays recorded as
    held. *)
Theorem key_tracking {D : Type} `{DoubleOps D}
        (sound : bool) (now : Z) (e : Event) (s : Game D) (k : Scancode) :
  keys (dispatchEvent sound (now, e) s) k =
  match currentState s, e with
  | STATE_PLAYING, SDL_KEYDOWN sc => if scancode_eqb k sc then true
                                     else keys s k
  | STATE_PLAYING, SDL_KEYUP sc => if scancode_eqb k sc then false
                                   else keys s k
  | _, _ => keys s k
  end.
Proof.
  unfold dispatchEvent.
  destruct (currentState s) eqn:Hst.
  - replace (currentState
               (match e with SDL_QUIT => setRunning s false | _ => s end))
      with STATE_MENU by (destruct e; simpl; congruence).
    destruct e as [|sc|sc|]; try reflexivity.
    destruct sc; simpl; try reflexivity;
      repeat match goal with
             | |- context [if ?b then _ else _] => destruct b
             end; reflexivity.
  - replace (currentState
               (match e with SDL_QUIT => setRunning s false | _ => s end))
      with STATE_PLAYING by (destruct e; simpl; congruence).
    destruct e as [|sc|sc|]; try reflexivity.
    unfold handleGameEvents.
    repeat match goal with
           | |- context [if ?b then _ else _] =>
               lazymatch b with
               | scancode_eqb k sc => fail
               | _ => destruct b
               end
           end; reflexivity.
  - replace (currentState
               (match e with SDL_QUIT => setRunning s false | _ => s end))
      with STATE_EXIT by (destruct e; simpl; congruence).
    destruct e; reflexivity.
Qed.

(** ** Jump physics, continued *)

(** X5. No event changes an airborne player: in particular a SPACE
    key-down during a jump neither restarts the jump nor touches the
    vertical velocity. *)
Theorem airborne_ignores_events {D : Type} `{DoubleOps D}
        (sound : bool) (now : Z) (e : Event) (s : Game D) :
  isJumping (player s) = true ->
  player (handleGameEvents sound now e s) = player s.
Proof.
  intros Hj. destruct e as [|sc|sc|]; try reflexivity.
  unfold handleGameEvents.
  destruct (scancode_eqb sc SC_ESCAPE); [reflexivity|].
  assert (Hjt : jumpTrigger JUMP_SPEED (player (setKey s sc true))
                = player s).
  { unfold jumpTrigger. simpl. rewrite Hj. reflexivity. }
  rewrite Hjt.
  repeat match goal with
         | |- context [if ?b then _ else _] => destruct b
         end; reflexivity.
Qed.

Lemma airborne_ignores_events_witness :
  player (handleGameEvents true 40 (SDL_KEYDOWN SC_SPACE)
            (setPlayer (startNewGame (initialGame (D:=B64.t) 0))
                       (jumpTrigger JUMP_SPEED initialPlayer)))
  = jumpTrigger JUMP_SPEED initialPlayer.
Proof.
  apply (airborne_ignores_events (D:=B64.t) true 40 (SDL_KEYDOWN SC_SPACE)
           (setPlayer (startNewGame (initialGame 0))
                      (jumpTrigger JUMP_SPEED initialPlayer))).
  reflexivity.
Defined.

(** X6. During a jump the camera is never found below the ground: after
    the trigger and any number of integration steps, the camera height
    either is the ground height or fails the test [cameraHeight <=
    ground]. *)
Theorem camera_never_below_ground {D : Type} `{DoubleOps D}
        (impulse gravity ground : D) (p : Player D) (n : nat) :
  grounded ground p ->
  cameraHeight (jumpArc impulse gravity ground n p) = ground \/
  (cameraHeight (jumpArc impulse gravity ground n p) <=? ground)%D = false.
Proof.
  intros (Hj & Hh & Hv). induction n as [|n IH].
  - left. unfold jumpArc, jumpTrigger. simpl. rewrite Hj. exact Hh.
  - rewrite jumpArc_succ.
    set (q := jumpArc impulse gravity ground n p) in *.
    unfold updateJump. destruct (isJumping q); [|exact IH].
    destruct (cameraHeight q + verticalVelocity q <=? ground)%D eqn:Hle.
    + left. reflexivity.
    + right. exact Hle.
Qed.

Lemma camera_never_below_ground_witness :
  cameraHeight (jumpArc (D:=B64.t) JUMP_SPEED GRAVITY GROUND_HEIGHT
                        12 initialPlayer) = GROUND_HEIGHT \/
  (cameraHeight (jumpArc (D:=B64.t) JUMP_SPEED GRAVITY GROUND_HEIGHT
                         12 initialPlayer) <=? GROUND_HEIGHT)%D = false.
Proof.
  apply (camera_never_below_ground (D:=B64.t) JUMP_SPEED GRAVITY
           GROUND_HEIGHT initialPlayer 12).
  repeat split.
Defined.

(** ** Gun animation timing *)

Lemma updateGunAnimation_due (now : Z) (g : Gun) :
  isShooting g = true ->
  ANIMATION_SPEED <= wrap_u32 (now - lastAnimationTime g) ->
  updateGunAnimation now g =
  if currentGunFrame g + 1 >=? GUN_FRAMES
  then {| currentGunFrame := 0; isShooting := false;
          animationTimer := animationTimer g; lastAnimationTime := now |}
  else {| currentGunFrame := currentGunFrame g + 1; isShooting := true;
          animationTimer := animationTimer g; lastAnimationTime := now |}.
Proof.
  intros Hs Hdue. unfold updateGunAnimation. rewrite Hs. cbn [negb].
  replace (wrap_u32 (now - lastAnimationTime g) >=? ANIMATION_SPEED)
    with true by (symmetry; apply Z.geb_le; exact Hdue).
  reflexivity.
Qed.

Lemma updateGunAnimation_early (now : Z) (g : Gun) :
  isShooting g = true ->
  wrap_u32 (now - lastAnimationTime g) < ANIMATION_SPEED ->
  updateGunAnimation now g = g.
Proof.
  intros Hs Hlt. unfold updateGunAnimation. rewrite Hs. cbn [negb].
  replace (wrap_u32 (now - lastAnimationTime g) >=? ANIMATION_SPEED)
    with false; [reflexivity|].
  symmetry. rewrite Z.geb_leb. apply Z.leb_gt. exact Hlt.
Qed.

(** X7. A shot lasts exactly three animation steps.  From an idle gun,
    [shootGun] shows frame 1; each later [updateGunAnimation] call that
    finds at least [ANIMATION_SPEED] ms elapsed since the last step (the
    difference taken modulo 2^32, so across a wrap of the tick counter
    too) moves to frames 2, 3 and then back to the idle frame 0 with
    [isShooting] cleared; a call that finds less elapsed changes nothing. *)
Theorem shot_cycle (sound : bool) (t0 t1 t2 t3 : Z) (g : Gun) :
  isShooting g = false ->
  ANIMATION_SPEED <= wrap_u32 (t1 - t0) ->
  ANIMATION_SPEED <= wrap_u32 (t2 - t1) ->
  ANIMATION_SPEED <= wrap_u32 (t3 - t2) ->
  let g0 := fst (shootGun sound t0 g) in
  let g1 := updateGunAnimation t1 g0 in
  let g2 := updateGunAnimation t2 g1 in
  let g3 := updateGunAnimation t3 g2 in
  (currentGunFrame g0, isShooting g0) = (1, true) /\
  (currentGunFrame g1, isShooting g1) = (2, true) /\
  (currentGunFrame g2, isShooting g2) = (3, true) /\
  (currentGunFrame g3, isShooting g3) = (0, false) /\
  (forall t g', isShooting g' = true ->
                wrap_u32 (t - lastAnimationTime g') < ANIMATION_SPEED ->
                updateGunAnimation t g' = g').
Proof.
  intros Hidle H1 H2 H3. cbv zeta.
  unfold shootGun. rewrite Hidle. cbn [fst].
  assert (E1 : updateGunAnimation t1
                 {| currentGunFrame := 1; isShooting := true;
                    animationTimer := 0; lastAnimationTime := t0 |} =
               {| currentGunFrame := 2; isShooting := true;
                  animationTimer := 0; lastAnimationTime := t1 |})
    by (rewrite updateGunAnimation_due; [reflexivity|reflexivity|exact H1]).
  assert (E2 : updateGunAnimation t2
                 {| currentGunFrame := 2; isShooting := true;
                    animationTimer := 0; lastAnimationTime := t1 |} =
               {| currentGunFrame := 3; isShooting := true;
                  animationTimer := 0; lastAnimationTime := t2 |})
    by (rewrite updateGunAnimation_due; [reflexivity|reflexivity|exact H2]).
  assert (E3 : updateGunAnimation t3
                 {| currentGunFrame := 3; isShooting := true;
                    animationTimer := 0; lastAnimationTime := t2 |} =
               {| currentGunFrame := 0; isShooting := false;
                  animationTimer := 0; lastAnimationTime := t3 |})
    by (rewrite updateGunAnimation_due; [reflexivity|reflexivity|exact H3]).
  rewrite E1, E2, E3. repeat split.
  intros t g' Hs Hlt. apply updateGunAnimation_early; assumption.
Qed.

Lemma shot_cycle_witness :
  let g0 := fst (shootGun true 4294967246 (initialGun 0)) in
  let g1 := updateGunAnimation 60 g0 in
  let g2 := updateGunAnimation 160 g1 in
  let g3 := updateGunAnimation 300 g2 in
  (currentGunFrame g0, isShooting g0) = (1, true) /\
  (currentGunFrame g1, isShooting g1) = (2, true) /\
  (currentGunFrame g2, isShooting g2) = (3, true) /\
  (currentGunFrame g3, isShooting g3) = (0, false) /\
  (forall t g', isShooting g' = true ->
                wrap_u32 (t - lastAnimationTime g') < ANIMATION_SPEED ->
                updateGunAnimation t g' = g').
Proof.
  apply (shot_cycle true 4294967246 60 160 300 (initialGun 0));
    vm_compute; congruence.
Defined.

(** ** Collision: the player stays out of the walls *)

Section CollisionFacts.

Context {D : Type} `{DoubleOps D}.

Lemma moveKey_tile (k : MoveKey) (g : Grid) (p p' : Player D) :
  playerTile g p = Some 0 ->
  moveKey k g p = Some p' ->
  playerTile g p' = Some 0.
Proof.
  unfold playerTile. intros Htile. rewrite moveKey_unfold. unfold bind.
  destruct (cellAt g (to_int (candidateX k p)) (to_int (posY p)))
    as [c1|] eqn:Hc1; [|discriminate].
  cbv zeta. destruct (c1 =? 0) eqn:Hz1.
  - apply Z.eqb_eq in Hz1. subst c1.
    destruct (cellAt g (to_int (posX (setPosX p (candidateX k p))))
                (to_int (candidateY k p))) as [c2|] eqn:Hc2; [|discriminate].
    destruct (c2 =? 0) eqn:Hz2; intros Heq; injection Heq as <-.
    + apply Z.eqb_eq in Hz2. subst c2. exact Hc2.
    + exact Hc1.
  - destruct (cellAt g (to_int (posX p)) (to_int (candidateY k p)))
      as [c2|] eqn:Hc2; [|discriminate].
    destruct (c2 =? 0) eqn:Hz2; intros Heq; injection Heq as <-.
    + apply Z.eqb_eq in Hz2. subst c2. exact Hc2.
    + exact Htile.
Qed.

Lemma whenKey_tile (k : MoveKey) (held : bool) (g : Grid) (p p' : Player D) :
  playerTile g p = Some 0 ->
  whenKey held (moveKey k g) p = Some p' ->
  playerTile g p' = Some 0.
Proof.
  intros Htile. unfold whenKey. destruct held.
  - apply moveKey_tile. exact Htile.
  - intros Heq. injection Heq as <-. exact Htile.
Qed.

Lemma updateJump_position (gravity ground : D) (p : Player D) :
  posX (updateJump gravity ground p) = posX p /\
  posY (updateJump gravity ground p) = posY p.
Proof.
  unfold updateJump. destruct (isJumping p); [|auto].
  destruct (cameraHeight p + verticalVelocity p <=? ground)%D; auto.
Qed.

Lemma updatePlayer_tile `{LibmOps D} (g : Grid) (k : Scancode -> bool)
      (p p' : Player D) :
  playerTile g p = Some 0 ->
  updatePlayer g k p = Some p' ->
  playerTile g p' = Some 0.
Proof.
  intros Htile. unfold updatePlayer, bind.
  destruct (whenKey (k SC_W) (moveForward g) p) as [p1|] eqn:H1;
    [|discriminate].
  apply (whenKey_tile KeyW) in H1; [|exact Htile].
  destruct (whenKey (k SC_S) (moveBackward g) p1) as [p2|] eqn:H2;
    [|discriminate].
  apply (whenKey_tile KeyS) in H2; [|exact H1].
  destruct (whenKey (k SC_A) (strafeLeft g) p2) as [p3|] eqn:H3;
    [|discriminate].
  apply (whenKey_tile KeyA) in H3; [|exact H2].
  destruct (whenKey (k SC_D) (strafeRight g) p3) as [p4|] eqn:H4;
    [|discriminate].
  apply (whenKey_tile KeyD) in H4; [|exact H3].
  intros Heq. injection Heq as <-.
  unfold playerTile in *.
  destruct (updateJump_position GRAVITY GROUND_HEIGHT
              (if k SC_RIGHT then turnRight (if k SC_LEFT then turnLeft p4
                                             else p4)
               else if k SC_LEFT then turnLeft p4 else p4)) as [Hx Hy].
  rewrite Hx, Hy.
  destruct (k SC_RIGHT), (k SC_LEFT); exact H4.
Qed.

Lemma dispatchEvent_tile (g : Grid) (sound : bool) (te : Z * Event)
      (s : Game D) :
  playerTile g initialPlayer = Some 0 ->
  playerTile g (player s) = Some 0 ->
  playerTile g (player (dispatchEvent sound te s)) = Some 0.
Proof.
  intros Hinit Htile. destruct te as [now e]. unfold dispatchEvent.
  assert (Hq : playerTile g
                 (player (match e with
                          | SDL_QUIT => setRunning s false | _ => s end))
               = Some 0) by (destruct e; exact Htile).
  set (s1 := match e with SDL_QUIT => setRunning s false | _ => s end) in *.
  destruct (currentState s1); [| |exact Hq].
  - destruct e as [|sc|sc|]; try exact Hq.
    destruct sc; simpl; try exact Hq;
      repeat match goal with
             | |- context [if ?b then _ else _] => destruct b
             end; simpl; auto.
  - destruct e as [|sc|sc|]; try exact Hq. unfold handleGameEvents.
    assert (Hj : playerTile g (jumpTrigger JUMP_SPEED
                                 (player (setKey s1 sc true))) = Some 0).
    { unfold jumpTrigger. simpl.
      destruct (isJumping (player s1)); exact Hq. }
    repeat match goal with
           | |- context [if ?b then _ else _] => destruct b
           end; simpl; auto.
Qed.

(** X8. The player never enters a wall.  On a sealed grid whose start
    tile is empty, after any run of frames from the constructor's state
    -- whatever keys are pressed, held and released, however often the
    game is left and restarted -- the player stands in an empty tile, and
    so the ray of every screen column stops on a wall within [gridWidth +
    gridHeight] iterations of the step loop. *)
Theorem player_stays_out_of_walls `{LibmOps D} (g : Grid) (sound : bool)
        (ticks : Z) (frames : list Frame) (s' : Game D) :
  sealedGrid g = true ->
  playerTile g initialPlayer = Some 0 ->
  runFrames g sound frames (initialGame ticks) = Some s' ->
  playerTile g (player s') = Some 0 /\
  forall x, exists h,
    Z.of_nat (hitSteps h) <= gridWidth g + gridHeight g /\
    forall fuel, (hitSteps h <= fuel)%nat ->
                 castRay g (player s') x fuel = Cast h.
Proof.
  intros Hs Hinit Hrun.
  assert (Htile : playerTile g (player s') = Some 0).
  { revert Hrun.
    apply (runFrames_ind (fun s => playerTile g (player s) = Some 0)
                         g sound); [|exact Hinit].
    intros events now s0 s1 Ht. unfold handleEvents.
    assert (Hd : playerTile g
                   (player (fold_left
                              (fun s te => dispatchEvent sound te s)
                              events s0)) = Some 0).
    { clear -Ht Hinit. revert s0 Ht.
      induction events as [|te events IH]; intros s0 Ht; simpl; [exact Ht|].
      apply IH. apply dispatchEvent_tile; assumption. }
    set (s2 := fold_left (fun s te => dispatchEvent sound te s) events s0)
      in *.
    destruct (currentState s2).
    - intros Heq. injection Heq as <-. exact Hd.
    - unfold bind.
      destruct (updatePlayer g (keys s2) (player s2)) as [p|] eqn:Hp;
        [|discriminate].
      intros Heq. injection Heq as <-. simpl.
      eapply updatePlayer_tile; eauto.
    - intros Heq. injection Heq as <-. exact Hd. }
  split; [exact Htile|].
  intros x. apply castRay_hits; assumption.
Qed.

End CollisionFacts.

(** The run [Frames.walk] in binary64: backing up from the start tile
    the player moves until the border wall (the tile (23, 12)) holds it
    at x = 22.95 (rounded), where a further step backwards changes
    nothing; at the end of the run it has walked to the tile (19, 12)
    and is in the air, with four keys still held. *)
Lemma walk_run :
  (exists s,
     runFrames (D:=B64.t) worldMap true Frames.backIntoWall (initialGame 0)
     = Some s /\
     posX (player s) = S754_finite false 6459850715509559 (-48) /\
     posY (player s) = of_int 12 /\
     cellAt worldMap (to_int (candidateX KeyS (player s)))
            (to_int (posY (player s))) = Some 1 /\
     moveBackward worldMap (player s) = Some (player s)) /\
  (exists s,
     runFrames (D:=B64.t) worldMap true Frames.walk (initialGame 0)
     = Some s /\
     currentState s = STATE_PLAYING /\
     (to_int (posX (player s)), to_int (posY (player s))) = (19, 12) /\
     isJumping (player s) = true /\
     keys s SC_W = true /\ keys s SC_D = true /\ keys s SC_A = true /\
     keys s SC_RIGHT = true).
Proof.
  split; eexists; (split; [vm_compute; reflexivity|]);
    repeat split; vm_compute; reflexivity.
Qed.

Lemma player_stays_out_of_walls_witness :
  exists s',
    runFrames (D:=B64.t) worldMap true Frames.walk (initialGame 0)
    = Some s' /\
    playerTile worldMap (player s') = Some 0 /\
    forall x, exists h,
      Z.of_nat (hitSteps h) <= gridWidth worldMap + gridHeight worldMap /\
      forall fuel, (hitSteps h <= fuel)%nat ->
                   castRay worldMap (player s') x fuel = Cast h.
Proof.
  eexists. split; [vm_compute; reflexivity|].
  apply (player_stays_out_of_walls (D:=B64.t) worldMap true 0 Frames.walk).
  - vm_compute. reflexivity.
  - vm_compute. reflexivity.
  - vm_compute. reflexivity.
Defined.

(** ** Frame compositor *)

Lemma small_index (n : Z) :
  0 <= n < 8 ->
  n = 0 \/ n = 1 \/ n = 2 \/ n = 3 \/ n = 4 \/ n = 5 \/ n = 6 \/ n = 7.
Proof. lia. Qed.

Lemma testbit_255 (n : Z) : 0 <= n -> Z.testbit 255 n = (n <? 8).
Proof.
  intros Hn. change 255 with (Z.ones 8).
  destruct (n <? 8) eqn:Hlt.
  - apply Z.ones_spec_low. lia.
  - apply Z.ones_spec_high. lia.
Qed.

Lemma shade_bit (c n : Z) :
  0 <= n ->
  Z.testbit (shade c) n =
  (Z.testbit c (n + 1) && Z.testbit 0x7F7F7F7F n) || Z.testbit 0xFF000000 n.
Proof.
  intros Hn. unfold shade.
  rewrite Z.lor_spec, Z.land_spec, Z.shiftr_spec by lia. reflexivity.
Qed.

Lemma shade_channel_rgb (c k : Z) :
  k = 0 \/ k = 1 \/ k = 2 ->
  channel k (shade c) = channel k c / 2.
Proof.
  intros Hk. unfold channel.
  apply Z.bits_inj'. intros n Hn.
  rewrite <- Z.shiftr_div_pow2 with (n := 1) by lia.
  rewrite Z.land_spec, !Z.shiftr_spec, Z.land_spec, Z.shiftr_spec,
    !testbit_255, shade_bit by lia.
  destruct (n <? 8) eqn:Hlt.
  - apply Z.ltb_lt in Hlt.
    destruct (small_index n ltac:(lia))
      as [-> | [-> | [-> | [-> | [-> | [-> | [-> | ->]]]]]]];
      destruct Hk as [-> | [-> | ->]]; cbn;
      rewrite ?andb_true_r, ?orb_false_r, ?andb_false_r; reflexivity.
  - rewrite !andb_false_r.
    destruct (n + 1 <? 8) eqn:Hlt1;
      [apply Z.ltb_lt in Hlt1; apply Z.ltb_ge in Hlt; lia|].
    rewrite andb_false_r. reflexivity.
Qed.

Lemma shade_channel_alpha (c : Z) : channel 3 (shade c) = 255.
Proof.
  unfold channel. apply Z.bits_inj'. intros n Hn.
  rewrite Z.land_spec, Z.shiftr_spec, testbit_255, shade_bit by lia.
  destruct (n <? 8) eqn:Hlt; [|apply andb_false_r].
  apply Z.ltb_lt in Hlt.
  destruct (small_index n ltac:(lia))
    as [-> | [-> | [-> | [-> | [-> | [-> | [-> | ->]]]]]]]; cbn;
    rewrite ?andb_true_r, ?orb_true_r; reflexivity.
Qed.

Lemma shade_range (c : Z) : 0 <= shade c < 4294967296.
Proof.
  assert (Hm : shade c = shade c mod 2 ^ 32).
  { rewrite <- Z.land_ones by lia. apply Z.bits_inj'. intros n Hn.
    rewrite Z.land_spec.
    destruct (n <? 32) eqn:Hlt.
    - rewrite Z.ones_spec_low, andb_true_r by lia. reflexivity.
    - apply Z.ltb_ge in Hlt.
      rewrite Z.ones_spec_high, andb_false_r by lia.
      rewrite shade_bit by lia.
      rewrite (Z.bits_above_log2 0x7F7F7F7F n) by (simpl; lia).
      rewrite (Z.bits_above_log2 0xFF000000 n) by (simpl; lia).
      rewrite andb_false_r. reflexivity. }
  rewrite Hm. change 4294967296 with (2 ^ 32). apply Z.mod_pos_bound. lia.
Qed.

(** X11. The side shading halves each of the red, green and blue
    channels of a colour (rounding down) and sets the alpha channel to
    255, whatever alpha the texel had; the result is a 32-bit value. *)
Theorem shade_channels (color : Z) :
  channel 3 (shade color) = 255 /\
  channel 2 (shade color) = channel 2 color / 2 /\
  channel 1 (shade color) = channel 1 color / 2 /\
  channel 0 (shade color) = channel 0 color / 2 /\
  0 <= shade color < 4294967296.
Proof.
  repeat split; try (apply shade_channel_rgb; auto);
    try apply shade_channel_alpha; apply shade_range.
Qed.

(** arrays *)

Lemma writeAt_spec {A : Type} (l : list A) (i : nat) (v : A) :
  (i < length l)%nat ->
  exists l', writeAt l i v = Some l' /\
             length l' = length l /\
             nth_error l' i = Some v /\
             forall j, j <> i -> nth_error l' j = nth_error l j.
Proof.
  revert i. induction l as [|a l IH]; intros i Hi; simpl in Hi; [lia|].
  destruct i as [|i]; simpl.
  - exists (v :: l). repeat split. intros [|j] Hj; [congruence|reflexivity].
  - destruct (IH i ltac:(lia)) as (l' & Hw & Hlen & Hnth & Hother).
    rewrite Hw. simpl. exists (a :: l'). repeat split; simpl; auto.
    intros [|j] Hj; [reflexivity|]. simpl. apply Hother. congruence.
Qed.

Lemma arrayWrite_spec {A : Type} (l : list A) (i : Z) (v : A) :
  0 <= i < Z.of_nat (length l) ->
  exists l', arrayWrite l i v = Some l' /\
             length l' = length l /\
             arrayRead l' i = Some v /\
             forall j, j <> i -> arrayRead l' j = arrayRead l j.
Proof.
  intros Hi. unfold arrayWrite, arrayRead.
  destruct (i <? 0) eqn:Hneg; [lia|].
  destruct (writeAt_spec l (Z.to_nat i) v ltac:(lia))
    as (l' & Hw & Hlen & Hnth & Hother).
  exists l'. repeat split; auto.
  intros j Hj. destruct (j <? 0) eqn:Hjn; [reflexivity|].
  apply Hother. lia.
Qed.

Lemma indices_length (n : Z) : length (indices n) = Z.to_nat n.
Proof. unfold indices. rewrite length_map, length_seq. reflexivity. Qed.

Lemma indices_nth (n : Z) (i : nat) :
  (i < Z.to_nat n)%nat -> nth_error (indices n) i = Some (Z.of_nat i).
Proof.
  intros Hi. unfold indices. rewrite nth_error_map, nth_error_seq.
  destruct (Nat.ltb_spec i (Z.to_nat n)); [reflexivity|lia].
Qed.

Lemma rows_length {A B C : Type} (f : B -> A -> C) (xs : list B)
      (ys : list A) :
  length (flat_map (fun y => map (fun x => f x y) xs) ys)
  = (length ys * length xs)%nat.
Proof.
  induction ys as [|y ys IH]; [reflexivity|].
  simpl. rewrite length_app, length_map, IH. reflexivity.
Qed.

(** Row-major addressing: element [j] of row [i]. *)
Lemma rows_nth {A B C : Type} (f : B -> A -> C) (xs : list B) (ys : list A)
      (i j : nat) (x : B) (y : A) :
  nth_error xs j = Some x ->
  nth_error ys i = Some y ->
  nth_error (flat_map (fun y => map (fun x => f x y) xs) ys)
            (i * length xs + j)
  = Some (f x y).
Proof.
  intros Hx. assert (Hj : (j < length xs)%nat)
    by (apply nth_error_Some; congruence).
  revert i. induction ys as [|y0 ys IH]; intros i Hy.
  - destruct i; discriminate.
  - destruct i as [|i]; simpl in *.
    + injection Hy as ->.
      rewrite nth_error_app1 by (rewrite length_map; exact Hj).
      rewrite nth_error_map, Hx. reflexivity.
    + rewrite nth_error_app2 by (rewrite length_map; lia).
      rewrite length_map.
      replace (length xs + i * length xs + j - length xs)%nat
        with (i * length xs + j)%nat by lia.
      apply IH. exact Hy.
Qed.

Lemma fillBackground_length (horizon : Z) :
  Z.of_nat (length (fillBackground horizon)) = SCREEN_WIDTH * SCREEN_HEIGHT.
Proof.
  unfold fillBackground. rewrite rows_length, !indices_length.
  unfold SCREEN_WIDTH, SCREEN_HEIGHT. lia.
Qed.

Lemma fillBackground_pixel (horizon x y : Z) :
  0 <= x < SCREEN_WIDTH -> 0 <= y < SCREEN_HEIGHT ->
  pixelAt (fillBackground horizon) x y
  = Some (if y <? horizon then SKY else FLOOR).
Proof.
  intros Hx Hy. unfold pixelAt, arrayRead.
  destruct (y * SCREEN_WIDTH + x <? 0) eqn:Hneg;
    [unfold SCREEN_WIDTH in *; lia|].
  unfold fillBackground.
  replace (Z.to_nat (y * SCREEN_WIDTH + x))
    with (Z.to_nat y * length (indices SCREEN_WIDTH) + Z.to_nat x)%nat
    by (rewrite indices_length; unfold SCREEN_WIDTH in *; lia).
  rewrite (rows_nth (fun _ y => if y <? horizon then SKY else FLOOR)
             _ _ _ _ (Z.of_nat (Z.to_nat x)) (Z.of_nat (Z.to_nat y)))
    by (apply indices_nth; unfold SCREEN_WIDTH, SCREEN_HEIGHT in *; lia).
  rewrite Z2Nat.id by lia. reflexivity.
Qed.

Lemma getTexturePixel_total (tex : Textures) (texNum u v : Z) :
  texturesWellFormed tex ->
  exists color, getTexturePixel tex texNum u v = Some color.
Proof.
  intros Hwf.
  destruct ((texNum <? 1) || (texNum >=? NUM_TEXTURES)) eqn:Hr.
  - exists MAGENTA. unfold getTexturePixel. rewrite Hr. reflexivity.
  - apply getTexturePixel_in_bounds; [exact Hwf|].
    apply orb_false_iff in Hr. lia.
Qed.

Section CompositorFacts.

Context {D : Type} `{DoubleOps D} `{FloorOps D}.

Lemma wallSlice_range (horizon : Z) (perp : D) :
  0 <= snd (fst (wallSlice horizon perp)) /\
  snd (wallSlice horizon perp) <= SCREEN_HEIGHT - 1.
Proof.
  unfold wallSlice. cbn [fst snd]. split.
  - match goal with |- 0 <= (if ?b then _ else _) => destruct b eqn:Hb end;
      lia.
  - match goal with |- (if ?b then _ else _) <= _ => destruct b eqn:Hb end;
      lia.
Qed.

(** The row loop writes inside the buffer, and only in its own column
    and rows. *)
Lemma drawRows_spec (tex : Textures) (texNum texX side x : Z) (step : D) :
  texturesWellFormed tex ->
  0 <= x < SCREEN_WIDTH ->
  forall (rows : nat) (y : Z) (texPos : D) (buf : list Z),
    0 <= y ->
    ((0 < rows)%nat -> y + Z.of_nat rows <= SCREEN_HEIGHT - 1) ->
    Z.of_nat (length buf) = SCREEN_WIDTH * SCREEN_HEIGHT ->
    exists buf',
      drawRows tex texNum texX side x step rows y texPos buf = Some buf' /\
      length buf' = length buf /\
      forall x' y', 0 <= x' < SCREEN_WIDTH ->
                    (x' <> x \/ y' < y \/ y + Z.of_nat rows <= y' \/
                     rows = O) ->
                    pixelAt buf' x' y' = pixelAt buf x' y'.
Proof.
  intros Hwf Hx. induction rows as [|rows IH]; intros y texPos buf Hy Hend Hlen.
  - exists buf. simpl. auto.
  - specialize (Hend ltac:(lia)). cbn [drawRows]. unfold bind.
    destruct (getTexturePixel_total tex texNum texX
                (Z.land (to_int texPos) (TEXTURE_HEIGHT - 1)) Hwf)
      as [color Hc].
    rewrite Hc.
    set (color' := if side =? 1 then shade color else color).
    destruct (arrayWrite_spec buf (y * SCREEN_WIDTH + x) color')
      as (buf1 & Hw & Hlen1 & _ & Hother).
    { unfold SCREEN_WIDTH, SCREEN_HEIGHT in *. lia. }
    rewrite Hw.
    destruct (IH (y + 1) (texPos + step)%D buf1) as (buf' & Hr & Hlen' & Hpix).
    { lia. } { lia. } { rewrite Hlen1. exact Hlen. }
    exists buf'. split; [exact Hr|]. split; [congruence|].
    intros x' y' Hx' Hout.
    rewrite Hpix by (auto; lia).
    unfold pixelAt. apply Hother.
    unfold SCREEN_WIDTH in *. lia.
Qed.

(** A ray from an empty tile of a sealed grid stops on a wall tile. *)
Lemma castRay_hits_wall (g : Grid) (p : Player D) (x : Z) (fuel : nat) :
  sealedGrid g = true ->
  playerTile g p = Some 0 ->
  (Z.to_nat (gridWidth g + gridHeight g) <= fuel)%nat ->
  exists h c, castRay g p x fuel = Cast h /\
              cellAt g (hitX h) (hitY h) = Some c /\ 0 < c.
Proof.
  intros Hs Hstart Hfuel. unfold castRay, playerTile in *.
  destruct (rayDir p x) as [rdx rdy].
  destruct (ddaSetup_steps (posX p) (posY p) rdx rdy)
    as (HsX & HsY & HmX & HmY).
  set (r := ddaSetup (posX p) (posY p) rdx rdy) in *.
  destruct (empty_cell_interior g _ _ 0 Hs Hstart ltac:(lia)) as [Hx Hy].
  rewrite <- HmX in Hx. rewrite <- HmY in Hy.
  pose proof (remaining_bounds _ _ _ HsX Hx) as HbX.
  pose proof (remaining_bounds _ _ _ HsY Hy) as HbY.
  destruct (ddaLoop_hits g r Hs HsX HsY fuel 0 (start r) Hx Hy)
    as (st & side & n & c & Hrun & Hn & Hc & Hpos); [lia|].
  rewrite Hrun. eexists. exists c. split; [reflexivity|]. simpl. auto.
Qed.

Lemma renderColumn_spec (g : Grid) (tex : Textures) (p : Player D)
      (fuel : nat) (horizon : Z) (buf : list Z) (x : Z) :
  sealedGrid g = true ->
  texturesWellFormed tex ->
  playerTile g p = Some 0 ->
  (Z.to_nat (gridWidth g + gridHeight g) <= fuel)%nat ->
  0 <= x < SCREEN_WIDTH ->
  Z.of_nat (length buf) = SCREEN_WIDTH * SCREEN_HEIGHT ->
  exists buf',
    renderColumn g tex p fuel horizon buf x = Some buf' /\
    length buf' = length buf /\
    forall x' y', 0 <= x' < SCREEN_WIDTH ->
                  (x' <> x \/ SCREEN_HEIGHT - 1 <= y') ->
                  pixelAt buf' x' y' = pixelAt buf x' y'.
Proof.
  intros Hs Hwf Htile Hfuel Hx Hlen. unfold renderColumn.
  destruct (castRay_hits_wall g p x fuel Hs Htile Hfuel)
    as (h & c & Hcast & Hc & _).
  rewrite Hcast. destruct (rayDir p x) as [rdx rdy].
  pose proof (wallSlice_range horizon (hitDist h)) as [Hstart Hend].
  destruct (wallSlice horizon (hitDist h)) as [[lineHeight drawStart] drawEnd].
  cbn [fst snd] in Hstart, Hend.
  rewrite Hc. unfold bind.
  match goal with
  | |- exists buf', drawRows ?t ?n ?tx ?sd ?xx ?st ?rows ?y ?tp ?b = _ /\ _ =>
      destruct (drawRows_spec t n tx sd xx st Hwf Hx rows y tp b)
        as (buf' & Hr & Hlen' & Hpix)
  end.
  { exact Hstart. } { lia. } { exact Hlen. }
  exists buf'. split; [exact Hr|]. split; [exact Hlen'|].
  intros x' y' Hx' Hout. apply Hpix; [exact Hx'|].
  destruct Hout as [Hne | Hlast]; [left; exact Hne|]. right. right.
  destruct (Z.to_nat (drawEnd - drawStart)) eqn:Hrows; [right; reflexivity|].
  left. lia.

Qed.

(** X12. A frame render is memory safe and leaves the bottom row to the
    background.  For a player in an empty tile of a sealed grid, with a
    well-formed texture cache and enough fuel for the step loop,
    [renderGame] finishes without reading or writing outside [worldMap],
    [texture] or the pixel buffer -- whatever the wall distances, also
    zero, infinite or NaN -- and returns a buffer of [SCREEN_WIDTH *
    SCREEN_HEIGHT] pixels whose last row no wall slice has touched: it
    holds the sky or floor colour chosen by the horizon. *)
Theorem renderGame_in_bounds (g : Grid) (tex : Textures) (p : Player D)
        (fuel : nat) :
  sealedGrid g = true ->
  texturesWellFormed tex ->
  playerTile g p = Some 0 ->
  (Z.to_nat (gridWidth g + gridHeight g) <= fuel)%nat ->
  exists buf,
    renderGame g tex p fuel = Some buf /\
    Z.of_nat (length buf) = SCREEN_WIDTH * SCREEN_HEIGHT /\
    forall x, 0 <= x < SCREEN_WIDTH ->
      pixelAt buf x (SCREEN_HEIGHT - 1)
      = Some (if SCREEN_HEIGHT - 1 <? horizonOf p then SKY else FLOOR).
Proof.
  intros Hs Hwf Htile Hfuel. unfold renderGame.
  set (horizon := horizonOf p).
  assert (Hgen : forall (cols : list Z) (buf : list Z),
             (forall x, In x cols -> 0 <= x < SCREEN_WIDTH) ->
             Z.of_nat (length buf) = SCREEN_WIDTH * SCREEN_HEIGHT ->
             exists buf',
               fold_left (fun acc x => b <- acc ;;
                                       renderColumn g tex p fuel horizon b x)
                         cols (Some buf) = Some buf' /\
               length buf' = length buf /\
               forall x', 0 <= x' < SCREEN_WIDTH ->
                 pixelAt buf' x' (SCREEN_HEIGHT - 1)
                 = pixelAt buf x' (SCREEN_HEIGHT - 1)).
  { induction cols as [|x cols IH]; intros buf Hcols Hlen.
    - exists buf. simpl. auto.
    - cbn [fold_left].
      change (b <- Some buf ;; renderColumn g tex p fuel horizon b x)
        with (renderColumn g tex p fuel horizon buf x).
      destruct (renderColumn_spec g tex p fuel horizon buf x Hs Hwf Htile
                  Hfuel (Hcols x (or_introl eq_refl)) Hlen)
        as (buf1 & Hr & Hlen1 & Hpix1).
      rewrite Hr.
      destruct (IH buf1) as (buf' & Hf & Hlen' & Hpix').
      { intros x0 Hin. apply Hcols. right. exact Hin. }
      { rewrite Hlen1. exact Hlen. }
      exists buf'. split; [exact Hf|]. split; [congruence|].
      intros x' Hx'. rewrite Hpix' by exact Hx'.
      apply Hpix1; [exact Hx'|]. right. lia. }
  destruct (Hgen (indices SCREEN_WIDTH) (fillBackground horizon))
    as (buf & Hf & Hlen & Hpix).
  { intros x Hin. unfold indices in Hin. apply in_map_iff in Hin.
    destruct Hin as (n & <- & Hn). apply in_seq in Hn. lia. }
  { apply fillBackground_length. }
  exists buf. split; [exact Hf|]. split.
  - rewrite Hlen. apply fillBackground_length.
  - intros x Hx. rewrite Hpix by exact Hx.
    apply fillBackground_pixel; [exact Hx|]. unfold SCREEN_HEIGHT. lia.
Qed.

End CompositorFacts.

(** ** Texture loading *)

Lemma wrap_int_id (z : Z) : INT_MIN <= z <= INT_MAX -> wrap_int z = z.
Proof.
  unfold wrap_int, INT_MIN, INT_MAX, UINT32_MOD. intros Hz.
  rewrite Z.mod_small by lia. lia.
Qed.

Lemma mapM_total {A B : Type} (f : A -> option B) (g : A -> B) (l : list A) :
  (forall a, In a l -> f a = Some (g a)) ->
  mapM f l = Some (map g l).
Proof.
  induction l as [|a l IH]; intros Hf; [reflexivity|].
  simpl. rewrite (Hf a (or_introl eq_refl)). unfold bind.
  rewrite IH by (intros b Hb; apply Hf; right; exact Hb). reflexivity.
Qed.

Lemma indices_range (n z : Z) : In z (indices n) -> 0 <= z < n.
Proof.
  unfold indices. intros Hin. apply in_map_iff in Hin.
  destruct Hin as (k & <- & Hk). apply in_seq in Hk. lia.
Qed.

Lemma sourceIndex_range (s : Surface) (x y : Z) :
  surfaceOK s ->
  0 <= x < TEXTURE_WIDTH -> 0 <= y < TEXTURE_HEIGHT ->
  0 <= x * surfaceW s / TEXTURE_WIDTH < surfaceW s /\
  0 <= y * surfaceH s / TEXTURE_HEIGHT < surfaceH s /\
  0 <= sourceIndex s x y < surfaceW s * surfaceH s.
Proof.
  unfold surfaceOK, sourceIndex, TEXTURE_WIDTH, TEXTURE_HEIGHT.
  intros (Hw & Hh & _ & _ & _ & _) Hx Hy.
  assert (Hsx : 0 <= x * surfaceW s / 64 < surfaceW s).
  { split; [apply Z.div_pos; nia|].
    apply Z.div_lt_upper_bound; nia. }
  assert (Hsy : 0 <= y * surfaceH s / 64 < surfaceH s).
  { split; [apply Z.div_pos; nia|].
    apply Z.div_lt_upper_bound; nia. }
  repeat split; try lia; nia.
Qed.

Lemma scaledTexel_spec (s : Surface) (x y : Z) :
  surfaceOK s ->
  0 <= x < TEXTURE_WIDTH -> 0 <= y < TEXTURE_HEIGHT ->
  scaledTexel s x y
  = Some (nth (Z.to_nat (sourceIndex s x y)) (pixels s) 0).
Proof.
  intros Hok Hx Hy.
  destruct (sourceIndex_range s x y Hok Hx Hy) as (Hsx & Hsy & Hidx).
  destruct Hok as (Hw & Hh & Hmw & Hmh & Hmax & Hlen).
  unfold scaledTexel, sourceIndex in *.
  unfold TEXTURE_WIDTH, TEXTURE_HEIGHT, INT_MAX in *.
  rewrite (wrap_int_id (x * surfaceW s))
    by (unfold INT_MIN, INT_MAX; nia).
  rewrite (wrap_int_id (y * surfaceH s))
    by (unfold INT_MIN, INT_MAX; nia).
  rewrite !Z.quot_div_nonneg by nia.
  replace (x * surfaceW s / 64 >=? surfaceW s) with false
    by (symmetry; rewrite Z.geb_leb; apply Z.leb_gt; lia).
  replace (y * surfaceH s / 64 >=? surfaceH s) with false
    by (symmetry; rewrite Z.geb_leb; apply Z.leb_gt; lia).
  rewrite (wrap_int_id (y * surfaceH s / 64 * surfaceW s))
    by (unfold INT_MIN, INT_MAX; nia).
  rewrite wrap_int_id by (unfold INT_MIN, INT_MAX; nia).
  unfold arrayRead.
  destruct (_ <? 0) eqn:Hneg; [lia|].
  apply nth_error_nth'. lia.
Qed.

Lemma scaleSurface_rows (s : Surface) :
  surfaceOK s ->
  scaleSurface s =
  Some (flat_map (fun y =>
          map (fun x => nth (Z.to_nat (sourceIndex s x y)) (pixels s) 0)
              (indices TEXTURE_WIDTH))
          (indices TEXTURE_HEIGHT)).
Proof.
  intros Hok. unfold scaleSurface.
  rewrite (mapM_total _
             (fun y => map (fun x => nth (Z.to_nat (sourceIndex s x y))
                                         (pixels s) 0)
                           (indices TEXTURE_WIDTH))).
  - unfold bind. rewrite flat_map_concat_map. reflexivity.
  - intros y Hy. apply mapM_total. intros x Hx.
    apply scaledTexel_spec; [exact Hok| |]; apply indices_range; assumption.
Qed.

(** X13. Texture scaling reads inside the source image.  For an image of
    positive size (small enough for the [int] products) the copy loop of
    [loadTextureFromPNG] produces [TEXTURE_WIDTH * TEXTURE_HEIGHT] texels,
    and texel (x, y) is the source pixel at column [x * width / 64] and
    row [y * height / 64], an index inside the image: the two clamps of
    the loop never apply. *)
Theorem scaleSurface_spec (s : Surface) :
  surfaceOK s ->
  exists t,
    scaleSurface s = Some t /\
    Z.of_nat (length t) = TEXTURE_WIDTH * TEXTURE_HEIGHT /\
    forall x y, 0 <= x < TEXTURE_WIDTH -> 0 <= y < TEXTURE_HEIGHT ->
      0 <= sourceIndex s x y < Z.of_nat (length (pixels s)) /\
      arrayRead t (TEXTURE_WIDTH * y + x)
      = arrayRead (pixels s) (sourceIndex s x y).
Proof.
  intros Hok. eexists. split; [apply scaleSurface_rows; exact Hok|]. split.
  - rewrite rows_length, !indices_length. reflexivity.
  - intros x y Hx Hy.
    destruct (sourceIndex_range s x y Hok Hx Hy) as (_ & _ & Hidx).
    assert (Hlen : Z.of_nat (length (pixels s)) = surfaceW s * surfaceH s)
      by apply Hok.
    split; [lia|].
    unfold arrayRead.
    destruct (TEXTURE_WIDTH * y + x <? 0) eqn:Hn;
      [unfold TEXTURE_WIDTH in *; lia|].
    destruct (sourceIndex s x y <? 0) eqn:Hn2; [lia|].
    replace (Z.to_nat (TEXTURE_WIDTH * y + x))
      with (Z.to_nat y * length (indices TEXTURE_WIDTH) + Z.to_nat x)%nat
      by (rewrite indices_length; unfold TEXTURE_WIDTH in *; lia).
    rewrite (rows_nth (fun x y => nth (Z.to_nat (sourceIndex s x y))
                                      (pixels s) 0)
               _ _ _ _ (Z.of_nat (Z.to_nat x)) (Z.of_nat (Z.to_nat y)))
      by (apply indices_nth; unfold TEXTURE_WIDTH, TEXTURE_HEIGHT in *; lia).
    rewrite !Z2Nat.id by lia.
    symmetry. apply nth_error_nth'. lia.
Qed.

(** X14. Scaling an image that already has the texture's size copies
    it unchanged. *)
Theorem scaleSurface_identity (s : Surface) :
  surfaceW s = TEXTURE_WIDTH -> surfaceH s = TEXTURE_HEIGHT ->
  Z.of_nat (length (pixels s)) = TEXTURE_WIDTH * TEXTURE_HEIGHT ->
  scaleSurface s = Some (pixels s).
Proof.
  intros Hw Hh Hlen.
  assert (Hok : surfaceOK s).
  { unfold surfaceOK. rewrite Hw, Hh, Hlen.
    unfold TEXTURE_WIDTH, TEXTURE_HEIGHT, INT_MAX. lia. }
  rewrite (scaleSurface_rows s Hok). f_equal.
  apply nth_error_ext. intros n.
  destruct (Nat.lt_ge_cases n 4096) as [Hn | Hn].
  - set (x := Z.of_nat (n mod 64)). set (y := Z.of_nat (n / 64)).
    pose proof (Nat.mod_upper_bound n 64 ltac:(lia)).
    pose proof (Nat.Div0.div_lt_upper_bound n 64 64 ltac:(lia)).
    pose proof (Nat.div_mod_eq n 64).
    replace n with (Z.to_nat y * length (indices TEXTURE_WIDTH)
                    + Z.to_nat x)%nat at 1
      by (rewrite indices_length; unfold TEXTURE_WIDTH, x, y; lia).
    rewrite (rows_nth (fun x y => nth (Z.to_nat (sourceIndex s x y))
                                      (pixels s) 0)
               _ _ _ _ (Z.of_nat (Z.to_nat x)) (Z.of_nat (Z.to_nat y)))
      by (apply indices_nth; unfold TEXTURE_WIDTH, TEXTURE_HEIGHT, x, y;
          lia).
    rewrite !Z2Nat.id by (unfold x, y; lia).
    assert (Hsrc : sourceIndex s x y = Z.of_nat n).
    { unfold sourceIndex. rewrite Hw, Hh.
      unfold TEXTURE_WIDTH, TEXTURE_HEIGHT.
      rewrite !Z.div_mul by lia. unfold x, y. lia. }
    rewrite Hsrc, Nat2Z.id. symmetry. apply nth_error_nth'.
    unfold TEXTURE_WIDTH, TEXTURE_HEIGHT in Hlen. lia.
  - assert (H1 : nth_error (pixels s) n = None).
    { apply nth_error_None. unfold TEXTURE_WIDTH, TEXTURE_HEIGHT in Hlen.
      lia. }
    rewrite H1. apply nth_error_None.
    rewrite rows_length, !indices_length.
    unfold TEXTURE_WIDTH, TEXTURE_HEIGHT. lia.
Qed.

Lemma loadTextures_fold (files : Z -> option Surface) :
  (forall i s, files i = Some s -> surfaceOK s) ->
  forall (slots : list Z) (tex : Textures) (flag : bool),
    NoDup slots ->
    (forall i, In i slots -> 0 <= i < Z.of_nat (length tex)) ->
    exists tex',
      fold_left (loadTextureSlot files) slots (Some (tex, flag))
      = Some (tex', flag && forallb (fileLoaded files) slots) /\
      length tex' = length tex /\
      (forall j, ~ In j slots -> arrayRead tex' j = arrayRead tex j) /\
      (forall i, In i slots -> slotLoaded files tex' i).
Proof.
  intros Hok.
  induction slots as [|i slots IH]; intros tex flag Hnd Hin.
  - exists tex. simpl. rewrite andb_true_r. repeat split; auto.
    intros i [].
  - inversion Hnd as [|? ? Hni Hnd']; subst.
    assert (Hi : 0 <= i < Z.of_nat (length tex)) by (apply Hin; left; auto).
    cbn [fold_left forallb].
    assert (Hstep : exists tex1,
               loadTextureSlot files (Some (tex, flag)) i
               = Some (tex1, flag && fileLoaded files i) /\
               length tex1 = length tex /\
               (forall j, j <> i -> arrayRead tex1 j = arrayRead tex j) /\
               slotLoaded files tex1 i).
    { unfold loadTextureSlot, loadTextureFromPNG, installErrorTexture,
        slotLoaded, fileLoaded, bind. cbn [fst snd].
      destruct (files i) as [s|] eqn:Hf.
      - rewrite (scaleSurface_rows s (Hok i s Hf)).
        destruct (arrayWrite_spec tex i
                    (flat_map (fun y =>
                       map (fun x => nth (Z.to_nat (sourceIndex s x y))
                                         (pixels s) 0)
                           (indices TEXTURE_WIDTH))
                       (indices TEXTURE_HEIGHT)) Hi)
          as (tex1 & Hw & Hlen & Hrd & Hother).
        rewrite Hw. cbn [fst snd]. exists tex1.
        rewrite andb_true_r. repeat split; auto.
        eexists. split; [reflexivity|exact Hrd].
      - destruct (arrayWrite_spec tex i createErrorTexture Hi)
          as (tex1 & Hw & Hlen & Hrd & Hother).
        cbn [fst snd]. rewrite Hw. exists tex1.
        rewrite andb_false_r. repeat split; auto. }
    destruct Hstep as (tex1 & Hs1 & Hlen1 & Hother1 & Hslot1).
    rewrite Hs1.
    destruct (IH tex1 (flag && fileLoaded files i) Hnd') as
      (tex' & Hf & Hlen' & Hother' & Hslots').
    { intros j Hj. rewrite Hlen1. apply Hin. right. exact Hj. }
    exists tex'. rewrite Hf, andb_assoc. split; [reflexivity|].
    split; [congruence|]. split.
    + intros j Hj. rewrite Hother' by (intros Hc; apply Hj; right; exact Hc).
      apply Hother1. intros ->. apply Hj. left. reflexivity.
    + intros j [<- | Hj]; [|apply Hslots'; exact Hj].
      unfold slotLoaded in *. rewrite Hother' by exact Hni. exact Hslot1.
Qed.

Lemma texture_slots : map (fun i => i + 1) (indices (NUM_TEXTURES - 1))
                      = [1; 2; 3; 4; 5; 6; 7].
Proof. reflexivity. Qed.

(** X15. [loadTextures] always yields a complete cache: whatever files
    can or cannot be loaded, it returns the eight slots with slot 0 as it
    was and each slot 1 to 7 holding the scaled image of its file, or the
    placeholder when the file could not be loaded; the flag it computes
    is true exactly when all seven files were loaded. *)
Theorem loadTextures_spec (files : Z -> option Surface) (tex : Textures) :
  (forall i s, files i = Some s -> surfaceOK s) ->
  Z.of_nat (length tex) = NUM_TEXTURES ->
  exists tex',
    loadTextures files tex
    = Some (tex', forallb (fileLoaded files) [1; 2; 3; 4; 5; 6; 7]) /\
    Z.of_nat (length tex') = NUM_TEXTURES /\
    arrayRead tex' 0 = arrayRead tex 0 /\
    forall i, 1 <= i < NUM_TEXTURES -> slotLoaded files tex' i.
Proof.
  intros Hok Hlen. unfold loadTextures. rewrite texture_slots.
  destruct (loadTextures_fold files Hok [1; 2; 3; 4; 5; 6; 7] tex true)
    as (tex' & Hf & Hlen' & Hother & Hslots).
  { repeat constructor; simpl; intuition lia. }
  { intros i Hi. rewrite Hlen. unfold NUM_TEXTURES. simpl in Hi. lia. }
  exists tex'. split; [exact Hf|]. split; [congruence|]. split.
  - apply Hother. simpl. lia.
  - intros i Hi. apply Hslots. unfold NUM_TEXTURES in Hi. simpl. lia.
Qed.

Lemma createErrorTexture_texel (x y : Z) :
  0 <= x < TEXTURE_WIDTH -> 0 <= y < TEXTURE_HEIGHT ->
  nth_error createErrorTexture (Z.to_nat (TEXTURE_WIDTH * y + x))
  = Some (checker x y).
Proof.
  intros Hx Hy. unfold createErrorTexture.
  replace (Z.to_nat (TEXTURE_WIDTH * y + x))
    with (Z.to_nat y * length (indices TEXTURE_WIDTH) + Z.to_nat x)%nat
    by (rewrite indices_length; unfold TEXTURE_WIDTH in *; lia).
  rewrite (rows_nth (fun x y => if Z.rem (Z.quot x 8 + Z.quot y 8) 2 =? 0
                                then 0xFF000000 else 0xFFFF00FF)
             _ _ _ _ (Z.of_nat (Z.to_nat x)) (Z.of_nat (Z.to_nat y)))
    by (apply indices_nth; unfold TEXTURE_WIDTH, TEXTURE_HEIGHT in *; lia).
  rewrite !Z2Nat.id by lia. unfold checker.
  rewrite (Z.mod_small x), (Z.mod_small y) by lia.
  rewrite !Z.quot_div_nonneg by lia.
  rewrite Z.rem_mod_nonneg; [reflexivity| |lia].
  pose proof (Z.div_pos x 8). pose proof (Z.div_pos y 8). lia.
Qed.

(** X16. A wall whose texture file is missing is drawn as a
    checkerboard: after [loadTextures], sampling the slot of a file that
    could not be loaded gives black or magenta by the parity of the 8x8
    square the wrapped coordinates fall in, and the flag of [loadTextures]
    is false. *)
Theorem missing_texture_checkerboard (files : Z -> option Surface)
        (tex tex' : Textures) (flag : bool) (idx u v : Z) :
  (forall i s, files i = Some s -> surfaceOK s) ->
  Z.of_nat (length tex) = NUM_TEXTURES ->
  loadTextures files tex = Some (tex', flag) ->
  1 <= idx < NUM_TEXTURES ->
  files idx = None ->
  flag = false /\
  getTexturePixel tex' idx u v = Some (checker u v).
Proof.
  intros Hok Hlen Hload Hidx Hnone.
  unfold loadTextures in Hload. rewrite texture_slots in Hload.
  destruct (loadTextures_fold files Hok [1; 2; 3; 4; 5; 6; 7] tex true)
    as (tex1 & Hf & Hlen' & Hother & Hslots).
  { repeat constructor; simpl; intuition lia. }
  { intros i Hi. rewrite Hlen. unfold NUM_TEXTURES. simpl in Hi. lia. }
  rewrite Hf in Hload. injection Hload as <- <-.
  assert (Hin : In idx [1; 2; 3; 4; 5; 6; 7])
    by (unfold NUM_TEXTURES in Hidx; simpl; lia).
  split.
  - apply not_true_is_false. intros Hall.
    pose proof (proj1 (forallb_forall (fileLoaded files)
                                      [1; 2; 3; 4; 5; 6; 7]) Hall idx Hin)
      as Hidx'.
    unfold fileLoaded in Hidx'. rewrite Hnone in Hidx'. discriminate.
  - specialize (Hslots idx Hin). unfold slotLoaded in Hslots.
    rewrite Hnone in Hslots. unfold arrayRead in Hslots.
    destruct (idx <? 0) eqn:Hneg; [discriminate|].
    unfold getTexturePixel.
    replace ((idx <? 1) || (idx >=? NUM_TEXTURES)) with false
      by (symmetry; apply orb_false_iff; unfold NUM_TEXTURES in *; lia).
    rewrite Hslots.
    change (Z.land u (TEXTURE_WIDTH - 1)) with (Z.land u 63).
    change (Z.land v (TEXTURE_HEIGHT - 1)) with (Z.land v 63).
    rewrite createErrorTexture_texel
      by (pose proof (land_mask_range u); pose proof (land_mask_range v);
          unfold TEXTURE_WIDTH, TEXTURE_HEIGHT; lia).
    rewrite !land_mask_mod. unfold checker, TEXTURE_WIDTH, TEXTURE_HEIGHT.
    rewrite !Z.mod_mod by lia. reflexivity.
Qed.

(** worldMap *)

Lemma worldMap_cells (x y c : Z) :
  cellAt worldMap x y = Some c -> 0 <= c < NUM_TEXTURES.
Proof.
  unfold cellAt. destruct ((x <? 0) || (y <? 0)); [discriminate|].
  destruct (nth_error worldMap (Z.to_nat x)) as [row|] eqn:Hrow;
    [|discriminate].
  intros Hc. apply nth_error_In in Hrow. apply nth_error_In in Hc.
  assert (Hall : forallb (forallb (fun c => (0 <=? c) && (c <? NUM_TEXTURES)))
                         worldMap = true) by (vm_compute; reflexivity).
  rewrite forallb_forall in Hall. specialize (Hall row Hrow).
  rewrite forallb_forall in Hall. specialize (Hall c Hc).
  apply andb_true_iff in Hall. lia.
Qed.

(** X17. On the shipped map a ray never selects an invalid texture: from
    any position in an empty tile of [worldMap], for any screen column,
    the ray stops on a tile whose value is a texture index in
    [1, NUM_TEXTURES), so the wall pass never samples with an index that
    [getTexturePixel] answers with the sentinel. *)
Theorem worldMap_hit_texture {D : Type} `{DoubleOps D}
        (p : Player D) (x : Z) (fuel : nat) :
  playerTile worldMap p = Some 0 ->
  (48 <= fuel)%nat ->
  exists h texNum,
    castRay worldMap p x fuel = Cast h /\
    cellAt worldMap (hitX h) (hitY h) = Some texNum /\
    1 <= texNum < NUM_TEXTURES.
Proof.
  intros Htile Hfuel.
  destruct (castRay_hits_wall worldMap p x fuel) as (h & c & Hc & Hcell & Hpos).
  - vm_compute. reflexivity.
  - exact Htile.
  - exact Hfuel.
  - exists h, c. split; [exact Hc|]. split; [exact Hcell|].
    pose proof (worldMap_cells _ _ _ Hcell). lia.
Qed.

(** gun rect *)
(** X18. [drawGun] draws the sprite at twice its size, horizontally
    centred and resting on the bottom edge of the screen, also when the
    scaled sprite is wider or taller than the screen. *)
Theorem gunRect_centred (gunWidth gunHeight : Z) :
  0 <= gunWidth <= 1073741823 -> 0 <= gunHeight <= 1073741823 ->
  let '(gunX, gunY, scaledWidth, scaledHeight) := gunRect gunWidth gunHeight in
  scaledWidth = 2 * gunWidth /\ scaledHeight = 2 * gunHeight /\
  gunX + scaledWidth + gunX = SCREEN_WIDTH /\
  gunY + scaledHeight = SCREEN_HEIGHT.
Proof.
  intros Hw Hh. unfold gunRect, SCREEN_WIDTH, SCREEN_HEIGHT.
  rewrite (wrap_int_id (gunWidth * 2)) by (unfold INT_MIN, INT_MAX; lia).
  rewrite (wrap_int_id (gunHeight * 2)) by (unfold INT_MIN, INT_MAX; lia).
  rewrite !wrap_int_id by (unfold INT_MIN, INT_MAX; lia).
  replace (800 - gunWidth * 2) with ((400 - gunWidth) * 2) by lia.
  rewrite Z.quot_mul by lia. lia.
Qed.

(** ** Concrete instances of the properties above *)

Lemma renderGame_in_bounds_witness :
  exists buf,
    renderGame room3 errorTextures Scenario.roomPlayer 6 = Some buf /\
    Z.of_nat (length buf) = SCREEN_WIDTH * SCREEN_HEIGHT /\
    forall x, 0 <= x < SCREEN_WIDTH ->
      pixelAt buf x (SCREEN_HEIGHT - 1)
      = Some (if SCREEN_HEIGHT - 1 <? horizonOf Scenario.roomPlayer
              then SKY else FLOOR).
Proof.
  apply (renderGame_in_bounds (D:=B64.t) room3 errorTextures
           Scenario.roomPlayer 6).
  - vm_compute. reflexivity.
  - exact errorTextures_wf.
  - vm_compute. reflexivity.
  - simpl. lia.
Defined.

Lemma wideSurface_ok : surfaceOK Assets.wideSurface.
Proof.
  unfold surfaceOK, Assets.wideSurface, INT_MAX. cbn [surfaceW surfaceH pixels].
  rewrite repeat_length. lia.
Qed.

Lemma onlyWall2_ok (i : Z) (s : Surface) :
  Assets.onlyWall2 i = Some s -> surfaceOK s.
Proof.
  unfold Assets.onlyWall2. destruct (i =? 2); [|discriminate].
  intros Heq. injection Heq as <-. exact wideSurface_ok.
Qed.

Lemma scaleSurface_spec_witness :
  exists t,
    scaleSurface Assets.wideSurface = Some t /\
    Z.of_nat (length t) = TEXTURE_WIDTH * TEXTURE_HEIGHT /\
    forall x y, 0 <= x < TEXTURE_WIDTH -> 0 <= y < TEXTURE_HEIGHT ->
      0 <= sourceIndex Assets.wideSurface x y
        < Z.of_nat (length (pixels Assets.wideSurface)) /\
      arrayRead t (TEXTURE_WIDTH * y + x)
      = arrayRead (pixels Assets.wideSurface)
                  (sourceIndex Assets.wideSurface x y).
Proof.
  apply (scaleSurface_spec Assets.wideSurface). exact wideSurface_ok.
Defined.

Lemma scaleSurface_identity_witness :
  scaleSurface Assets.squareSurface = Some (pixels Assets.squareSurface).
Proof.
  apply (scaleSurface_identity Assets.squareSurface).
  - reflexivity.
  - reflexivity.
  - vm_compute. reflexivity.
Defined.

Lemma loadTextures_spec_witness :
  exists tex',
    loadTextures Assets.onlyWall2 Assets.blankTextures
    = Some (tex', forallb (fileLoaded Assets.onlyWall2)
                          [1; 2; 3; 4; 5; 6; 7]) /\
    Z.of_nat (length tex') = NUM_TEXTURES /\
    arrayRead tex' 0 = arrayRead Assets.blankTextures 0 /\
    forall i, 1 <= i < NUM_TEXTURES -> slotLoaded Assets.onlyWall2 tex' i.
Proof.
  apply (loadTextures_spec Assets.onlyWall2 Assets.blankTextures).
  - exact onlyWall2_ok.
  - reflexivity.
Defined.

Lemma missing_texture_checkerboard_witness :
  exists tex' flag,
    loadTextures Assets.onlyWall2 Assets.blankTextures = Some (tex', flag) /\
    flag = false /\
    getTexturePixel tex' 3 70 (-9) = Some (checker 70 (-9)).
Proof.
  destruct (loadTextures_fold Assets.onlyWall2 onlyWall2_ok
              [1; 2; 3; 4; 5; 6; 7] Assets.blankTextures true)
    as (tex' & Hf & _).
  { repeat constructor; simpl; intuition lia. }
  { intros i Hi. simpl in Hi. simpl. lia. }
  exists tex', (true && forallb (fileLoaded Assets.onlyWall2)
                                [1; 2; 3; 4; 5; 6; 7]).
  split; [exact Hf|].
  apply (missing_texture_checkerboard Assets.onlyWall2 Assets.blankTextures
           tex' _ 3 70 (-9)).
  - exact onlyWall2_ok.
  - reflexivity.
  - exact Hf.
  - unfold NUM_TEXTURES. lia.
  - reflexivity.
Defined.

Lemma worldMap_hit_texture_witness :
  exists h texNum,
    castRay worldMap (initialPlayer (D:=B64.t)) 123 48 = Cast h /\
    cellAt worldMap (hitX h) (hitY h) = Some texNum /\
    1 <= texNum < NUM_TEXTURES.
Proof.
  apply (worldMap_hit_texture (D:=B64.t) initialPlayer 123 48).
  - vm_compute. reflexivity.
  - lia.
Defined.

Lemma gunRect_centred_witness :
  let '(gunX, gunY, scaledWidth, scaledHeight) := gunRect 450 80 in
  scaledWidth = 2 * 450 /\ scaledHeight = 2 * 80 /\
  gunX + scaledWidth + gunX = SCREEN_WIDTH /\
  gunY + scaledHeight = SCREEN_HEIGHT.
Proof.
  apply (gunRect_centred 450 80); lia.
Defined.

(** ** Menu navigation *)

(** X20. With two menu items the UP and DOWN keys both move the
    selection to the other item, and pressing one after the other gives
    back the state the menu was in. *)
Theorem menu_selection_cycles {D : Type} `{DoubleOps D}
        (sound : bool) (t1 t2 : Z) (s : Game D) :
  currentState s = STATE_MENU ->
  0 <= selectedMenuItem s < MENU_ITEM_COUNT ->
  selectedMenuItem (dispatchEvent sound (t1, SDL_KEYDOWN SC_UP) s)
    = 1 - selectedMenuItem s /\
  selectedMenuItem (dispatchEvent sound (t1, SDL_KEYDOWN SC_DOWN) s)
    = 1 - selectedMenuItem s /\
  dispatchEvent sound (t2, SDL_KEYDOWN SC_DOWN)
    (dispatchEvent sound (t1, SDL_KEYDOWN SC_UP) s) = s /\
  dispatchEvent sound (t2, SDL_KEYDOWN SC_UP)
    (dispatchEvent sound (t1, SDL_KEYDOWN SC_DOWN) s) = s.
Proof.
  unfold MENU_ITEM_COUNT. intros Hst Hsel.
  destruct s as [run st sel gn pl ks]. simpl in Hst, Hsel. subst st.
  assert (Hc : sel = 0 \/ sel = 1) by lia.
  destruct Hc as [-> | ->]; repeat split.
Qed.

Lemma menu_selection_cycles_witness :
  selectedMenuItem
    (dispatchEvent true (1, SDL_KEYDOWN SC_UP) (initialGame (D:=B64.t) 0))
    = 1 - selectedMenuItem (initialGame (D:=B64.t) 0) /\
  selectedMenuItem
    (dispatchEvent true (1, SDL_KEYDOWN SC_DOWN) (initialGame (D:=B64.t) 0))
    = 1 - selectedMenuItem (initialGame (D:=B64.t) 0) /\
  dispatchEvent true (2, SDL_KEYDOWN SC_DOWN)
    (dispatchEvent true (1, SDL_KEYDOWN SC_UP) (initialGame (D:=B64.t) 0))
    = initialGame 0 /\
  dispatchEvent true (2, SDL_KEYDOWN SC_UP)
    (dispatchEvent true (1, SDL_KEYDOWN SC_DOWN) (initialGame (D:=B64.t) 0))
    = initialGame 0.
Proof.
  apply (menu_selection_cycles (D:=B64.t) true 1 2 (initialGame 0)).
  - reflexivity.
  - vm_compute. split; [discriminate|reflexivity].
Defined.
